(** * Instance lock manager (src/server/game/Instances/InstanceLockMgr.cpp)

    A shallow embedding of the instance lock manager and the properties
    of its lock model: the reset scheduler, the two-tier binding store,
    the jointly owned shared instance records with their deletion hook,
    the lifecycle operations and the admission predicate.

    Conventions.
    - [uint32] values, time points and the fields of [struct tm] are
      integers ([Z]); a time point is its count of seconds since the
      epoch, so [Seconds(d)] is [d] and [from_time_t] is the identity.
    - A [std::unique_ptr<InstanceLock>] stored in a map is the lock value
      itself; a [std::shared_ptr<SharedInstanceLockData>] is the index of
      its control block in [heap]; a [std::weak_ptr] is the same index,
      and can be upgraded while the block's use count is positive.
    - An [ASSERT] that fails aborts the process: [Abort]. *)

From stdpp Require Import gmap strings list.

Local Open Scope Z_scope.

(** ** Reference data and the world clock *)

(** Modelled from the spec: the reset intervals declared in DBCEnums.h
    (daily, weekly, and no schedule). *)
Inductive MapDifficultyResetInterval :=
  | MAP_DIFFICULTY_RESET_ANYTIME
  | MAP_DIFFICULTY_RESET_DAILY
  | MAP_DIFFICULTY_RESET_WEEKLY.

(** Modelled from the spec: the map descriptor of the catalog
    (DB2Structure.h); only what the manager reads of it. *)
Record MapEntry := {
  ID : Z;
  IsFlexLocking : bool
}.

(** Modelled from the spec: the difficulty descriptor of the catalog
    (DB2Structure.h); the predicates the manager calls are fields. *)
Record MapDifficultyEntry := {
  MapID : Z;
  DifficultyID : Z;
  LockID : Z;
  ResetInterval : MapDifficultyResetInterval;
  HasResetSchedule : bool;
  IsUsingEncounterLocks : bool;
  GetRaidDuration : Z
}.

Record MapDb2Entries := {
  Map : MapEntry;
  MapDifficulty : MapDifficultyEntry
}.

(** [struct tm] of the C library. *)
Record tm := {
  tm_sec : Z;
  tm_min : Z;
  tm_hour : Z;
  tm_mday : Z;
  tm_mon : Z;
  tm_year : Z;
  tm_wday : Z;
  tm_yday : Z;
  tm_isdst : Z
}.

(** What the manager reads from its collaborators: the world clock
    ([GameTime]), the configuration store, the C library's [mktime], the
    database's string escaping and the two catalog stores. *)
Record Env := {
  GetSystemTime : Z;
  GetDateAndTime : tm;
  sConfigMgr : gmap string Z;
  mktime : tm → Z;
  EscapeString : string → string;
  sMapStore : Z → option MapEntry;
  GetMapDifficultyData : Z → Z → option MapDifficultyEntry
}.

Definition GetIntDefault (cfg : gmap string Z) (name : string) (def : Z) : Z :=
  default def (cfg !! name).

(** ** Assertions *)

Inductive Asserted (A : Type) :=
  | Ok (a : A)
  | Abort.
Arguments Ok {A} a.
Arguments Abort {A}.

#[global] Instance Asserted_ret : MRet Asserted := λ A a, Ok a.

#[global] Instance Asserted_bind : MBind Asserted := λ A B f x,
  match x with
  | Ok a => f a
  | Abort => Abort
  end.

Definition ASSERT (b : bool) : Asserted unit :=
  if b then Ok tt else Abort.

(** [MapDb2Entries(mapId, difficulty)]: both catalog lookups are asserted. *)
Definition MapDb2Entries_ctor (env : Env) (mapId difficulty : Z) : Asserted MapDb2Entries :=
  match sMapStore env mapId, GetMapDifficultyData env mapId difficulty with
  | Some m, Some d => Ok {| Map := m; MapDifficulty := d |}
  | _, _ => Abort
  end.

Definition InstanceLockKey : Type := Z * Z.

Definition GetKey (entries : MapDb2Entries) : InstanceLockKey :=
  (MapID (MapDifficulty entries), LockID (MapDifficulty entries)).

Definition IsInstanceIdBound (entries : MapDb2Entries) : bool :=
  negb (IsFlexLocking (Map entries)) && negb (IsUsingEncounterLocks (MapDifficulty entries)).

(** ** Reset scheduler *)

Definition set_tm_sec (v : Z) (t : tm) : tm :=
  {| tm_sec := v; tm_min := tm_min t; tm_hour := tm_hour t; tm_mday := tm_mday t;
     tm_mon := tm_mon t; tm_year := tm_year t; tm_wday := tm_wday t;
     tm_yday := tm_yday t; tm_isdst := tm_isdst t |}.

Definition set_tm_min (v : Z) (t : tm) : tm :=
  {| tm_sec := tm_sec t; tm_min := v; tm_hour := tm_hour t; tm_mday := tm_mday t;
     tm_mon := tm_mon t; tm_year := tm_year t; tm_wday := tm_wday t;
     tm_yday := tm_yday t; tm_isdst := tm_isdst t |}.

Definition set_tm_hour (v : Z) (t : tm) : tm :=
  {| tm_sec := tm_sec t; tm_min := tm_min t; tm_hour := v; tm_mday := tm_mday t;
     tm_mon := tm_mon t; tm_year := tm_year t; tm_wday := tm_wday t;
     tm_yday := tm_yday t; tm_isdst := tm_isdst t |}.

Definition set_tm_mday (v : Z) (t : tm) : tm :=
  {| tm_sec := tm_sec t; tm_min := tm_min t; tm_hour := tm_hour t; tm_mday := v;
     tm_mon := tm_mon t; tm_year := tm_year t; tm_wday := tm_wday t;
     tm_yday := tm_yday t; tm_isdst := tm_isdst t |}.

(** The local variable [dateTime] of [GetNextResetTime] as it is handed
    to [mktime]. *)
Definition GetNextResetTime_dateTime (env : Env) (entries : MapDb2Entries) : tm :=
  let dateTime := GetDateAndTime env in
  let dateTime := set_tm_sec 0 dateTime in
  let dateTime := set_tm_min 0 dateTime in
  let resetHour := GetIntDefault (sConfigMgr env) "ResetSchedule.DailyHour" 9 in
  match ResetInterval (MapDifficulty entries) with
  | MAP_DIFFICULTY_RESET_DAILY =>
      let dateTime :=
        if resetHour <=? tm_hour dateTime
        then set_tm_mday (tm_mday dateTime + 1) dateTime
        else dateTime in
      set_tm_hour resetHour dateTime
  | MAP_DIFFICULTY_RESET_WEEKLY =>
      let resetDay := GetIntDefault (sConfigMgr env) "ResetSchedule.WeeklyDay" 2 in
      let daysAdjust := resetDay - tm_wday dateTime in
      let daysAdjust :=
        if (resetDay <? tm_wday dateTime)
           || ((tm_wday dateTime =? resetDay) && (resetHour <=? tm_hour dateTime))
        then daysAdjust + 7
        else daysAdjust in
      let dateTime := set_tm_hour resetHour dateTime in
      set_tm_mday (tm_mday dateTime + daysAdjust) dateTime
  | MAP_DIFFICULTY_RESET_ANYTIME => dateTime
  end.

Definition GetNextResetTime (env : Env) (entries : MapDb2Entries) : Z :=
  mktime env (GetNextResetTime_dateTime env entries).

(** ** Bindings *)

(** Modelled from the spec: [InstanceLockData] of InstanceLockMgr.h, the
    progress blob with its encounter mask and entrance location, all
    default-initialised to empty and zero. *)
Record InstanceLockData := {
  Data : string;
  CompletedEncountersMask : Z;
  EntranceWorldSafeLocId : Z
}.

Definition InstanceLockData_default : InstanceLockData :=
  {| Data := ""; CompletedEncountersMask := 0; EntranceWorldSafeLocId := 0 |}.

(** Modelled from the spec: [SharedInstanceLockData] of InstanceLockMgr.h,
    an [InstanceLockData] with the [InstanceId] of the saved copy. *)
Record SharedInstanceLockData := {
  sharedBase : InstanceLockData;
  InstanceId : Z
}.

Definition SharedInstanceLockData_default : SharedInstanceLockData :=
  {| sharedBase := InstanceLockData_default; InstanceId := 0 |}.

(** [InstanceLock] and its subclass [SharedInstanceLock]: the subclass is
    the case [_sharedData = Some p], [p] being the owned shared pointer. *)
Record InstanceLock := {
  _mapId : Z;
  _difficultyId : Z;
  _instanceId : Z;
  _expiryTime : Z;
  _extended : bool;
  _data : InstanceLockData;
  _sharedData : option nat
}.

Definition InstanceLock_ctor (mapId difficultyId expiryTime instanceId : Z) : InstanceLock :=
  {| _mapId := mapId; _difficultyId := difficultyId; _instanceId := instanceId;
     _expiryTime := expiryTime; _extended := false;
     _data := InstanceLockData_default; _sharedData := None |}.

Definition SharedInstanceLock_ctor (mapId difficultyId expiryTime instanceId : Z)
    (sharedData : nat) : InstanceLock :=
  {| _mapId := mapId; _difficultyId := difficultyId; _instanceId := instanceId;
     _expiryTime := expiryTime; _extended := false;
     _data := InstanceLockData_default; _sharedData := Some sharedData |}.

Definition SetInstanceId (v : Z) (l : InstanceLock) : InstanceLock :=
  {| _mapId := _mapId l; _difficultyId := _difficultyId l; _instanceId := v;
     _expiryTime := _expiryTime l; _extended := _extended l;
     _data := _data l; _sharedData := _sharedData l |}.

Definition SetExpiryTime (v : Z) (l : InstanceLock) : InstanceLock :=
  {| _mapId := _mapId l; _difficultyId := _difficultyId l; _instanceId := _instanceId l;
     _expiryTime := v; _extended := _extended l;
     _data := _data l; _sharedData := _sharedData l |}.

Definition SetExtended (v : bool) (l : InstanceLock) : InstanceLock :=
  {| _mapId := _mapId l; _difficultyId := _difficultyId l; _instanceId := _instanceId l;
     _expiryTime := _expiryTime l; _extended := v;
     _data := _data l; _sharedData := _sharedData l |}.

Definition SetData (v : InstanceLockData) (l : InstanceLock) : InstanceLock :=
  {| _mapId := _mapId l; _difficultyId := _difficultyId l; _instanceId := _instanceId l;
     _expiryTime := _expiryTime l; _extended := _extended l;
     _data := v; _sharedData := _sharedData l |}.

Definition IsExpired (env : Env) (l : InstanceLock) : bool :=
  _expiryTime l <? GetSystemTime env.

Definition GetEffectiveExpiryTime (env : Env) (l : InstanceLock) : Asserted Z :=
  if negb (_extended l) then Ok (_expiryTime l)
  else
    entries ← MapDb2Entries_ctor env (_mapId l) (_difficultyId l);
    if IsExpired env l then Ok (GetNextResetTime env entries)
    else Ok (_expiryTime l + GetRaidDuration (MapDifficulty entries)).

(** ** Persistence statements and log lines *)

(** The statements the manager emits, one constructor per format string. *)
Inductive Statement :=
  (** DELETE FROM instance2 WHERE instanceId=%u *)
  | DELETE_instance2 (instanceId : Z)
  (** INSERT INTO instance2 (instanceId, data, completedEncountersMask,
      entranceWorldSafeLocId) VALUES (...) *)
  | INSERT_instance2 (instanceId : Z) (data : string) (mask entrance : Z)
  (** DELETE FROM character_instance_lock WHERE guid=.. AND mapId=.. AND lockId=.. *)
  | DELETE_character_instance_lock (guid mapId lockId : Z)
  (** INSERT INTO character_instance_lock (...) VALUES (...) *)
  | INSERT_character_instance_lock (guid mapId lockId instanceId difficulty : Z)
      (data : string) (mask entrance expiryTime extended : Z)
  (** UPDATE character_instance_lock SET extended = .. WHERE guid = .. AND
      mapId = .. AND lockId = .. *)
  | UPDATE_character_instance_lock_extended (extended guid mapId lockId : Z)
  (** DELETE FROM character_instance_lock WHERE instanceId = %u *)
  | DELETE_character_instance_lock_instanceId (instanceId : Z).

(** The lines written to the "instance.locks" logger, by their numeric
    arguments. *)
Inductive LogLine :=
  | ERROR_missing_instance_data (instanceId : Z)
  | DEBUG_created_temporary (mapID difficultyID guid instanceId : Z)
  | DEBUG_promoting_temporary (mapID difficultyID guid instanceId : Z)
  | DEBUG_created_new (mapID difficultyID guid instanceId : Z)
  | DEBUG_gains_encounter (mapID difficultyID guid instanceId encounterID : Z)
  | DEBUG_expired_now_active (mapID difficultyID guid instanceId : Z)
  | DEBUG_instance_gains_encounter (instanceId encounterID : Z)
  | DEBUG_deleting_instance (instanceId : Z)
  | DEBUG_extension (mapID difficultyID guid : Z) (extended : bool).

(** ** The manager and the state around it *)

(** The control block of a [std::shared_ptr]: the number of owners and
    the object, which is destroyed when the count reaches zero. *)
Record ControlBlock := {
  use_count : nat;
  object : SharedInstanceLockData
}.

Record InstanceLockMgr := {
  _temporaryInstanceLocksByPlayer : gmap Z (gmap InstanceLockKey InstanceLock);
  _instanceLocksByPlayer : gmap Z (gmap InstanceLockKey InstanceLock);
  _instanceLockDataById : gmap Z nat;
  _unloading : bool
}.

(** The singleton [sInstanceLockMgr], the control blocks of the shared
    records, the statements executed on [CharacterDatabase] outside a
    transaction, the log, and the instance ids registered with [sMapMgr]. *)
Record World := {
  sInstanceLockMgr : InstanceLockMgr;
  heap : list ControlBlock;
  CharacterDatabase : list Statement;
  Log : list LogLine;
  sMapMgr : list Z
}.

Definition InstanceLockMgr_ctor : InstanceLockMgr :=
  {| _temporaryInstanceLocksByPlayer := ∅; _instanceLocksByPlayer := ∅;
     _instanceLockDataById := ∅; _unloading := false |}.

Definition set_temporary (v : gmap Z (gmap InstanceLockKey InstanceLock)) (w : World) : World :=
  let m := sInstanceLockMgr w in
  {| sInstanceLockMgr :=
       {| _temporaryInstanceLocksByPlayer := v;
          _instanceLocksByPlayer := _instanceLocksByPlayer m;
          _instanceLockDataById := _instanceLockDataById m;
          _unloading := _unloading m |};
     heap := heap w; CharacterDatabase := CharacterDatabase w; Log := Log w;
     sMapMgr := sMapMgr w |}.

Definition set_permanent (v : gmap Z (gmap InstanceLockKey InstanceLock)) (w : World) : World :=
  let m := sInstanceLockMgr w in
  {| sInstanceLockMgr :=
       {| _temporaryInstanceLocksByPlayer := _temporaryInstanceLocksByPlayer m;
          _instanceLocksByPlayer := v;
          _instanceLockDataById := _instanceLockDataById m;
          _unloading := _unloading m |};
     heap := heap w; CharacterDatabase := CharacterDatabase w; Log := Log w;
     sMapMgr := sMapMgr w |}.

Definition set_registry (v : gmap Z nat) (w : World) : World :=
  let m := sInstanceLockMgr w in
  {| sInstanceLockMgr :=
       {| _temporaryInstanceLocksByPlayer := _temporaryInstanceLocksByPlayer m;
          _instanceLocksByPlayer := _instanceLocksByPlayer m;
          _instanceLockDataById := v;
          _unloading := _unloading m |};
     heap := heap w; CharacterDatabase := CharacterDatabase w; Log := Log w;
     sMapMgr := sMapMgr w |}.

Definition set_unloading (v : bool) (w : World) : World :=
  let m := sInstanceLockMgr w in
  {| sInstanceLockMgr :=
       {| _temporaryInstanceLocksByPlayer := _temporaryInstanceLocksByPlayer m;
          _instanceLocksByPlayer := _instanceLocksByPlayer m;
          _instanceLockDataById := _instanceLockDataById m;
          _unloading := v |};
     heap := heap w; CharacterDatabase := CharacterDatabase w; Log := Log w;
     sMapMgr := sMapMgr w |}.

Definition set_heap (v : list ControlBlock) (w : World) : World :=
  {| sInstanceLockMgr := sInstanceLockMgr w; heap := v;
     CharacterDatabase := CharacterDatabase w; Log := Log w; sMapMgr := sMapMgr w |}.

(** [CharacterDatabase.PExecute] / [PQuery] of a statement. *)
Definition PExecute (s : Statement) (w : World) : World :=
  {| sInstanceLockMgr := sInstanceLockMgr w; heap := heap w;
     CharacterDatabase := CharacterDatabase w ++ [s]; Log := Log w; sMapMgr := sMapMgr w |}.

Definition TC_LOG (l : LogLine) (w : World) : World :=
  {| sInstanceLockMgr := sInstanceLockMgr w; heap := heap w;
     CharacterDatabase := CharacterDatabase w; Log := Log w ++ [l]; sMapMgr := sMapMgr w |}.

Definition RegisterInstanceId (instanceId : Z) (w : World) : World :=
  {| sInstanceLockMgr := sInstanceLockMgr w; heap := heap w;
     CharacterDatabase := CharacterDatabase w; Log := Log w;
     sMapMgr := sMapMgr w ++ [instanceId] |}.

Definition temporary (w : World) := _temporaryInstanceLocksByPlayer (sInstanceLockMgr w).
Definition permanent (w : World) := _instanceLocksByPlayer (sInstanceLockMgr w).
Definition registry (w : World) := _instanceLockDataById (sInstanceLockMgr w).
Definition unloading (w : World) := _unloading (sInstanceLockMgr w).

(** ** Shared records: ownership and the deletion hook *)

Definition OnSharedInstanceLockDataDelete (instanceId : Z) (w : World) : World :=
  if unloading w then w
  else
    let w := set_registry (delete instanceId (registry w)) w in
    let w := PExecute (DELETE_instance2 instanceId) w in
    TC_LOG (DEBUG_deleting_instance instanceId) w.

(** [~SharedInstanceLockData] *)
Definition SharedInstanceLockData_dtor (d : SharedInstanceLockData) (w : World) : World :=
  if InstanceId d =? 0 then w
  else OnSharedInstanceLockDataDelete (InstanceId d) w.

(** [std::make_shared<SharedInstanceLockData>()]: a new control block
    with one owner. *)
Definition make_shared (d : SharedInstanceLockData) (w : World) : nat * World :=
  (length (heap w), set_heap (heap w ++ [{| use_count := 1; object := d |}]) w).

(** Copying a [shared_ptr]: one more owner. *)
Definition shared_ptr_copy (p : nat) (w : World) : World :=
  match heap w !! p with
  | Some cb => set_heap (<[p := {| use_count := S (use_count cb); object := object cb |}]> (heap w)) w
  | None => w
  end.

(** Destroying a [shared_ptr]: one owner less; the last one destroys the
    object, whose destructor runs with the count already at zero. *)
Definition shared_ptr_release (p : nat) (w : World) : World :=
  match heap w !! p with
  | Some cb =>
      match use_count cb with
      | O => w
      | S O =>
          let w := set_heap (<[p := {| use_count := O; object := object cb |}]> (heap w)) w in
          SharedInstanceLockData_dtor (object cb) w
      | S n => set_heap (<[p := {| use_count := n; object := object cb |}]> (heap w)) w
      end
  | None => w
  end.

(** [weak_ptr::expired] *)
Definition expired (p : nat) (w : World) : bool :=
  match heap w !! p with
  | Some cb => Nat.eqb (use_count cb) 0
  | None => true
  end.

(** [weak_ptr::lock().get()]: the pointer, null when the record is gone. *)
Definition weak_get (p : nat) (w : World) : option nat :=
  if expired p w then None else Some p.

(** The record a live pointer refers to. *)
Definition deref (p : nat) (w : World) : option SharedInstanceLockData :=
  cb ← heap w !! p; Some (object cb).

(** [~InstanceLock], [~SharedInstanceLock]: the subclass drops its
    shared pointer. *)
Definition InstanceLock_dtor (l : InstanceLock) (w : World) : World :=
  match _sharedData l with
  | Some p => shared_ptr_release p w
  | None => w
  end.

(** ** Binding store *)

Definition FindInstanceLock (locks : gmap Z (gmap InstanceLockKey InstanceLock))
    (playerGuid : Z) (entries : MapDb2Entries) : option InstanceLock :=
  match locks !! playerGuid with
  | None => None
  | Some playerLocks => playerLocks !! GetKey entries
  end.

Definition FindActiveInstanceLock (env : Env) (w : World) (playerGuid : Z)
    (entries : MapDb2Entries) (ignoreTemporary ignoreExpired : bool) : option InstanceLock :=
  let lock := FindInstanceLock (permanent w) playerGuid entries in
  match lock with
  | Some l =>
      if negb (IsExpired env l) || _extended l || negb ignoreExpired then Some l
      else if ignoreTemporary then None
      else FindInstanceLock (temporary w) playerGuid entries
  | None =>
      if ignoreTemporary then None
      else FindInstanceLock (temporary w) playerGuid entries
  end.

(** The overload without flags. *)
Definition FindActiveInstanceLock2 (env : Env) (w : World) (playerGuid : Z)
    (entries : MapDb2Entries) : option InstanceLock :=
  FindActiveInstanceLock env w playerGuid entries false true.

(** [locks[playerGuid][key].reset(lock)]: the slot takes the new lock,
    then the lock it held is destroyed. *)
Definition slot_insert (playerGuid : Z) (key : InstanceLockKey) (lock : InstanceLock)
    (locks : gmap Z (gmap InstanceLockKey InstanceLock)) :
    gmap Z (gmap InstanceLockKey InstanceLock) :=
  <[playerGuid := <[key := lock]> (default ∅ (locks !! playerGuid))]> locks.

Definition slot_lookup (playerGuid : Z) (key : InstanceLockKey)
    (locks : gmap Z (gmap InstanceLockKey InstanceLock)) : option InstanceLock :=
  match locks !! playerGuid with
  | None => None
  | Some playerLocks => playerLocks !! key
  end.

Definition destroy_old (old : option InstanceLock) (w : World) : World :=
  match old with
  | Some o => InstanceLock_dtor o w
  | None => w
  end.

Definition temporary_reset (playerGuid : Z) (key : InstanceLockKey) (lock : InstanceLock)
    (w : World) : World :=
  let old := slot_lookup playerGuid key (temporary w) in
  destroy_old old (set_temporary (slot_insert playerGuid key lock (temporary w)) w).

Definition permanent_reset (playerGuid : Z) (key : InstanceLockKey) (lock : InstanceLock)
    (w : World) : World :=
  let old := slot_lookup playerGuid key (permanent w) in
  destroy_old old (set_permanent (slot_insert playerGuid key lock (permanent w)) w).

(** ** Admission predicate *)

Inductive TransferAbortReason :=
  | TRANSFER_ABORT_NONE
  | TRANSFER_ABORT_LOCKED_TO_DIFFERENT_INSTANCE
  | TRANSFER_ABORT_ALREADY_COMPLETED_ENCOUNTER.

(** [~x] on [uint32]. *)
Definition uint32_not (x : Z) : Z := Z.land (Z.lnot x) 4294967295.

Definition CanJoinInstanceLock (env : Env) (w : World) (playerGuid : Z)
    (entries : MapDb2Entries) (instanceLock : InstanceLock) : TransferAbortReason :=
  if negb (HasResetSchedule (MapDifficulty entries)) then TRANSFER_ABORT_NONE
  else
    match FindActiveInstanceLock2 env w playerGuid entries with
    | None => TRANSFER_ABORT_NONE
    | Some playerInstanceLock =>
        if IsFlexLocking (Map entries) then
          if negb (Z.land (CompletedEncountersMask (_data playerInstanceLock))
                          (uint32_not (CompletedEncountersMask (_data instanceLock))) =? 0)
          then TRANSFER_ABORT_ALREADY_COMPLETED_ENCOUNTER
          else TRANSFER_ABORT_NONE
        else if negb (IsUsingEncounterLocks (MapDifficulty entries))
                && negb (_instanceId playerInstanceLock =? 0)
                && negb (_instanceId playerInstanceLock =? _instanceId instanceLock)
        then TRANSFER_ABORT_LOCKED_TO_DIFFERENT_INSTANCE
        else TRANSFER_ABORT_NONE
    end.

(** ** Lifecycle: creation for a new instance *)

Definition CreateInstanceLockForNewInstance (env : Env) (playerGuid : Z)
    (entries : MapDb2Entries) (instanceId : Z) (w : World) : option InstanceLock * World :=
  if negb (HasResetSchedule (MapDifficulty entries)) then (None, w)
  else
    let '(instanceLock, w) :=
      if IsInstanceIdBound entries then
        let '(sharedData, w) := make_shared SharedInstanceLockData_default w in
        let w := set_registry (<[instanceId := sharedData]> (registry w)) w in
        (SharedInstanceLock_ctor (MapID (MapDifficulty entries))
           (DifficultyID (MapDifficulty entries)) (GetNextResetTime env entries) 0 sharedData, w)
      else
        (InstanceLock_ctor (MapID (MapDifficulty entries))
           (DifficultyID (MapDifficulty entries)) (GetNextResetTime env entries) 0, w) in
    let w := temporary_reset playerGuid (GetKey entries) instanceLock w in
    let w := TC_LOG (DEBUG_created_temporary (ID (Map entries))
                       (DifficultyID (MapDifficulty entries)) playerGuid instanceId) w in
    (Some instanceLock, w).

(** ** Lifecycle: update on encounter completion *)

(** Modelled from the spec: the encounter descriptor (DB2Structure.h), of
    which the manager reads the id and the bit. *)
Record DungeonEncounterEntry := {
  EncounterID : Z;
  Bit : Z
}.

(** Modelled from the spec: [InstanceLockUpdateEvent] of InstanceLockMgr.h. *)
Record InstanceLockUpdateEvent := {
  ev_InstanceId : Z;
  NewData : string;
  InstanceCompletedEncountersMask : Z;
  CompletedEncounter : option DungeonEncounterEntry
}.

(** [1u << bit] on [uint32], for a bit in 0..31. Outside this range the
    shift is undefined in C++; the value given here is then not the
    code's, and the properties state a bit only within the range. *)
Definition uint32_bit (bit : Z) : Z := Z.land (Z.shiftl 1 bit) 4294967295.

Definition set_mask (v : Z) (d : InstanceLockData) : InstanceLockData :=
  {| Data := Data d; CompletedEncountersMask := v;
     EntranceWorldSafeLocId := EntranceWorldSafeLocId d |}.

Definition set_Data (v : string) (d : InstanceLockData) : InstanceLockData :=
  {| Data := v; CompletedEncountersMask := CompletedEncountersMask d;
     EntranceWorldSafeLocId := EntranceWorldSafeLocId d |}.

(** Moving the player's temporary lock, if any, to the permanent store. *)
Definition promote_temporary (playerGuid : Z) (entries : MapDb2Entries)
    (updateEvent : InstanceLockUpdateEvent) (w : World) : option InstanceLock * World :=
  match temporary w !! playerGuid with
  | None => (None, w)
  | Some playerLocks =>
      match playerLocks !! GetKey entries with
      | None => (None, w)
      | Some instanceLock =>
          let w := permanent_reset playerGuid (GetKey entries) instanceLock w in
          let playerLocks := delete (GetKey entries) playerLocks in
          let w :=
            if decide (playerLocks = ∅)
            then set_temporary (delete playerGuid (temporary w)) w
            else set_temporary (<[playerGuid := playerLocks]> (temporary w)) w in
          let w := TC_LOG (DEBUG_promoting_temporary (ID (Map entries))
                             (DifficultyID (MapDifficulty entries)) playerGuid
                             (ev_InstanceId updateEvent)) w in
          (Some instanceLock, w)
      end
  end.

(** The first half of [UpdateInstanceLockForPlayer]: the lock the update
    is applied to, found, promoted or created, with its instance id set.
    It sits in the permanent store under the key of [entries]. *)
Definition UpdateInstanceLockForPlayer_locate (env : Env) (playerGuid : Z)
    (entries : MapDb2Entries) (updateEvent : InstanceLockUpdateEvent) (w : World) :
    Asserted (InstanceLock * World) :=
  let '(found, w) :=
    match FindActiveInstanceLock env w playerGuid entries true true with
    | Some l => (Some l, w)
    | None => promote_temporary playerGuid entries updateEvent w
    end in
  match found with
  | None =>
      '(instanceLock, w) ←
        (if IsInstanceIdBound entries then
           match registry w !! ev_InstanceId updateEvent with
           | None => Abort
           | Some sharedData =>
               _ ← ASSERT (negb (expired sharedData w));
               let w := shared_ptr_copy sharedData w in
               let instanceLock :=
                 SharedInstanceLock_ctor (MapID (MapDifficulty entries))
                   (DifficultyID (MapDifficulty entries)) (GetNextResetTime env entries)
                   (ev_InstanceId updateEvent) sharedData in
               _ ← ASSERT (match deref sharedData w with
                           | Some d => InstanceId d =? ev_InstanceId updateEvent
                           | None => false
                           end);
               Ok (instanceLock, w)
           end
         else
           Ok (InstanceLock_ctor (MapID (MapDifficulty entries))
                 (DifficultyID (MapDifficulty entries)) (GetNextResetTime env entries)
                 (ev_InstanceId updateEvent), w));
      let w := permanent_reset playerGuid (GetKey entries) instanceLock w in
      let w := TC_LOG (DEBUG_created_new (ID (Map entries))
                         (DifficultyID (MapDifficulty entries)) playerGuid
                         (ev_InstanceId updateEvent)) w in
      Ok (instanceLock, w)
  | Some instanceLock =>
      _ ← (if IsInstanceIdBound entries then
             _ ← ASSERT ((_instanceId instanceLock =? 0)
                         || (_instanceId instanceLock =? ev_InstanceId updateEvent));
             match registry w !! ev_InstanceId updateEvent with
             | None => Abort
             | Some sharedData =>
                 (* the cast to SharedInstanceLock needs a shared lock *)
                 match _sharedData instanceLock with
                 | None => Abort
                 | Some own => ASSERT (bool_decide (weak_get sharedData w = Some own))
                 end
             end
           else Ok tt);
      Ok (SetInstanceId (ev_InstanceId updateEvent) instanceLock, w)
  end.

(** New data, the completed encounter's bit, and the instance's mask. *)
Definition UpdateInstanceLockForPlayer_apply (playerGuid : Z) (entries : MapDb2Entries)
    (updateEvent : InstanceLockUpdateEvent) (instanceLock : InstanceLock) (w : World) :
    InstanceLock * World :=
  let d := set_Data (NewData updateEvent) (_data instanceLock) in
  let '(d, w) :=
    match CompletedEncounter updateEvent with
    | Some enc =>
        (set_mask (Z.lor (CompletedEncountersMask d) (uint32_bit (Bit enc))) d,
         TC_LOG (DEBUG_gains_encounter (ID (Map entries))
                   (DifficultyID (MapDifficulty entries)) playerGuid
                   (ev_InstanceId updateEvent) (EncounterID enc)) w)
    | None => (d, w)
    end in
  let d :=
    if negb (IsUsingEncounterLocks (MapDifficulty entries))
    then set_mask (Z.lor (CompletedEncountersMask d)
                     (InstanceCompletedEncountersMask updateEvent)) d
    else d in
  (SetData d instanceLock, w).

(** The expired lock is given the next reset time and loses its
    extension, which it is asserted to have. *)
Definition UpdateInstanceLockForPlayer_reactivate (env : Env) (playerGuid : Z)
    (entries : MapDb2Entries) (updateEvent : InstanceLockUpdateEvent)
    (instanceLock : InstanceLock) (w : World) : Asserted (InstanceLock * World) :=
  if IsExpired env instanceLock then
    _ ← ASSERT (_extended instanceLock);
    let instanceLock := SetExpiryTime (GetNextResetTime env entries) instanceLock in
    let instanceLock := SetExtended false instanceLock in
    Ok (instanceLock,
        TC_LOG (DEBUG_expired_now_active (ID (Map entries))
                  (DifficultyID (MapDifficulty entries)) playerGuid
                  (ev_InstanceId updateEvent)) w)
  else Ok (instanceLock, w).

(** The delete and insert pair appended to the transaction. *)
Definition UpdateInstanceLockForPlayer_save (env : Env) (playerGuid : Z)
    (entries : MapDb2Entries) (instanceLock : InstanceLock) : list Statement :=
  [ DELETE_character_instance_lock playerGuid (MapID (MapDifficulty entries))
      (LockID (MapDifficulty entries));
    INSERT_character_instance_lock playerGuid (MapID (MapDifficulty entries))
      (LockID (MapDifficulty entries)) (_instanceId instanceLock)
      (DifficultyID (MapDifficulty entries))
      (EscapeString env (Data (_data instanceLock)))
      (CompletedEncountersMask (_data instanceLock))
      (EntranceWorldSafeLocId (_data instanceLock))
      (_expiryTime instanceLock)
      (if _extended instanceLock then 1 else 0) ].

(** The lock is updated in place: it is stored back in its slot, which
    destroys nothing. *)
Definition UpdateInstanceLockForPlayer (env : Env) (trans : list Statement) (playerGuid : Z)
    (entries : MapDb2Entries) (updateEvent : InstanceLockUpdateEvent) (w : World) :
    Asserted (InstanceLock * list Statement * World) :=
  '(instanceLock, w) ← UpdateInstanceLockForPlayer_locate env playerGuid entries updateEvent w;
  let '(instanceLock, w) :=
    UpdateInstanceLockForPlayer_apply playerGuid entries updateEvent instanceLock w in
  '(instanceLock, w) ←
    UpdateInstanceLockForPlayer_reactivate env playerGuid entries updateEvent instanceLock w;
  let trans := trans ++ UpdateInstanceLockForPlayer_save env playerGuid entries instanceLock in
  let w := set_permanent (slot_insert playerGuid (GetKey entries) instanceLock (permanent w)) w in
  Ok (instanceLock, trans, w).

Definition UpdateSharedInstanceLock (env : Env) (trans : list Statement)
    (updateEvent : InstanceLockUpdateEvent) (w : World) : Asserted (list Statement * World) :=
  match registry w !! ev_InstanceId updateEvent with
  | None => Abort
  | Some p =>
      match weak_get p w, heap w !! p with
      | Some _, Some cb =>
          let sharedData := object cb in
          _ ← ASSERT (InstanceId sharedData =? ev_InstanceId updateEvent);
          let d := set_Data (NewData updateEvent) (sharedBase sharedData) in
          let '(d, w) :=
            match CompletedEncounter updateEvent with
            | Some enc =>
                (set_mask (Z.lor (CompletedEncountersMask d) (uint32_bit (Bit enc))) d,
                 TC_LOG (DEBUG_instance_gains_encounter (ev_InstanceId updateEvent)
                           (EncounterID enc)) w)
            | None => (d, w)
            end in
          let sharedData := {| sharedBase := d; InstanceId := InstanceId sharedData |} in
          let w := set_heap (<[p := {| use_count := use_count cb; object := sharedData |}]>
                               (heap w)) w in
          Ok (trans ++
                [ DELETE_instance2 (InstanceId sharedData);
                  INSERT_instance2 (InstanceId sharedData) (EscapeString env (Data d))
                    (CompletedEncountersMask d) (EntranceWorldSafeLocId d) ], w)
      | _, _ => Abort
      end
  end.

Definition UpdateInstanceLockExtensionForPlayer (env : Env) (playerGuid : Z)
    (entries : MapDb2Entries) (extended : bool) (w : World) : World :=
  match FindActiveInstanceLock env w playerGuid entries true false with
  | Some instanceLock =>
      let w := set_permanent (slot_insert playerGuid (GetKey entries)
                                (SetExtended extended instanceLock) (permanent w)) w in
      let w := PExecute (UPDATE_character_instance_lock_extended
                           (if extended then 1 else 0) playerGuid
                           (MapID (MapDifficulty entries))
                           (LockID (MapDifficulty entries))) w in
      TC_LOG (DEBUG_extension (ID (Map entries)) (DifficultyID (MapDifficulty entries))
                playerGuid extended) w
  | None => w
  end.

(** ** Unload *)

(** The locks a store owns, in the order in which [clear] destroys them
    (the iteration order of the map, which the claims do not depend on). *)
Definition owned_locks (locks : gmap Z (gmap InstanceLockKey InstanceLock)) : list InstanceLock :=
  map_to_list locks ≫= (λ kv, (map_to_list kv.2).*2).

Definition destroy_locks (ls : list InstanceLock) (w : World) : World :=
  foldl (λ w l, InstanceLock_dtor l w) w ls.

Definition Unload (w : World) : World :=
  let w := set_unloading true w in
  let w := set_permanent ∅ (destroy_locks (owned_locks (permanent w)) w) in
  set_registry ∅ w.

(** ** Load *)

(** A row of [SELECT instanceId, data, completedEncountersMask FROM instance]. *)
Record InstanceRow := {
  ir_instanceId : Z;
  ir_data : string;
  ir_completedEncountersMask : Z
}.

(** A row of [SELECT guid, mapId, lockId, instanceId, difficulty, data,
    completedEncountersMask, expiryTime, extended FROM character_instance_lock]. *)
Record LockRow := {
  lr_guid : Z;
  lr_mapId : Z;
  lr_lockId : Z;
  lr_instanceId : Z;
  lr_difficulty : Z;
  lr_data : string;
  lr_completedEncountersMask : Z;
  lr_expiryTime : Z;
  lr_extended : bool
}.

(** One turn of the first loop: the record of the row takes the slot of
    its instance id in the local index, whose previous owner is released. *)
Definition Load_instance_row (row : InstanceRow) (st : gmap Z nat * World) : gmap Z nat * World :=
  let '(instanceLockDataById, w) := st in
  let '(data, w) :=
    make_shared {| sharedBase := {| Data := ir_data row;
                                    CompletedEncountersMask := ir_completedEncountersMask row;
                                    EntranceWorldSafeLocId := 0 |};
                   InstanceId := ir_instanceId row |} w in
  let old := instanceLockDataById !! ir_instanceId row in
  let instanceLockDataById := <[ir_instanceId row := data]> instanceLockDataById in
  (instanceLockDataById,
   match old with
   | Some p => shared_ptr_release p w
   | None => w
   end).

(** One turn of the second loop. *)
Definition Load_lock_row (env : Env) (instanceLockDataById : gmap Z nat) (row : LockRow)
    (w : World) : Asserted World :=
  let w := RegisterInstanceId (lr_instanceId row) w in
  entries ← MapDb2Entries_ctor env (lr_mapId row) (lr_difficulty row);
  let made :=
    if IsInstanceIdBound entries then
      match instanceLockDataById !! lr_instanceId row with
      | None => None
      | Some sharedData =>
          let w := shared_ptr_copy sharedData w in
          let w := set_registry (<[lr_instanceId row := sharedData]> (registry w)) w in
          Some (SharedInstanceLock_ctor (lr_mapId row) (lr_difficulty row)
                  (lr_expiryTime row) (lr_instanceId row) sharedData, w)
      end
    else
      Some (InstanceLock_ctor (lr_mapId row) (lr_difficulty row) (lr_expiryTime row)
              (lr_instanceId row), w) in
  match made with
  | None =>
      (* continue *)
      let w := TC_LOG (ERROR_missing_instance_data (lr_instanceId row)) w in
      Ok (PExecute (DELETE_character_instance_lock_instanceId (lr_instanceId row)) w)
  | Some (instanceLock, w) =>
      let instanceLock :=
        SetData (set_mask (lr_completedEncountersMask row)
                   (set_Data (lr_data row) (_data instanceLock))) instanceLock in
      let instanceLock := SetExtended (lr_extended row) instanceLock in
      Ok (permanent_reset (lr_guid row) (lr_mapId row, lr_lockId row) instanceLock w)
  end.

Fixpoint Load_lock_rows (env : Env) (instanceLockDataById : gmap Z nat) (rows : list LockRow)
    (w : World) : Asserted World :=
  match rows with
  | [] => Ok w
  | row :: rows =>
      w ← Load_lock_row env instanceLockDataById row w;
      Load_lock_rows env instanceLockDataById rows w
  end.

(** [Load], on the two result sets. At the end the local index goes out
    of scope and releases the records it owns. *)
Definition Load (env : Env) (instanceRows : list InstanceRow) (lockRows : list LockRow)
    (w : World) : Asserted World :=
  let '(instanceLockDataById, w) :=
    foldl (λ st row, Load_instance_row row st) (∅, w) instanceRows in
  w ← Load_lock_rows env instanceLockDataById lockRows w;
  Ok (foldl (λ w p, shared_ptr_release p w) w (map_to_list instanceLockDataById).*2).

(** ** What a destructor can touch *)

(** From [w] to [w'] both binding stores, the unloading flag and the
    registered ids are unchanged: what any release of a shared pointer
    guarantees. *)
Definition stores_kept (w w' : World) : Prop :=
  temporary w' = temporary w ∧ permanent w' = permanent w ∧
  unloading w' = unloading w ∧ sMapMgr w' = sMapMgr w.

(** From [w] to [w'] only the control blocks may differ: what a release
    guarantees while the manager unloads. *)
Definition only_heap (w w' : World) : Prop :=
  sInstanceLockMgr w' = sInstanceLockMgr w ∧
  CharacterDatabase w' = CharacterDatabase w ∧
  Log w' = Log w ∧ sMapMgr w' = sMapMgr w.

(** From [w] to [w'] the log and the executed statements are extended. *)
Definition grows (w w' : World) : Prop :=
  Log w `prefix_of` Log w' ∧ CharacterDatabase w `prefix_of` CharacterDatabase w'.

(** ** States the manager's operations lead to *)

(** The shared record of every temporary lock has [InstanceId] 0. *)
Definition temporary_records_unassigned (w : World) : Prop :=
  ∀ g k l q,
    slot_lookup g k (temporary w) = Some l → _sharedData l = Some q →
    ∃ cb, heap w !! q = Some cb ∧ InstanceId (object cb) = 0.

(** From [w] to [w'] no temporary lock is added or changed and every
    shared record keeps its [InstanceId]. *)
Definition evolves (w w' : World) : Prop :=
  (∀ g k l, slot_lookup g k (temporary w') = Some l →
            slot_lookup g k (temporary w) = Some l) ∧
  (∀ q cb, heap w !! q = Some cb →
           ∃ cb', heap w' !! q = Some cb' ∧
                  InstanceId (object cb') = InstanceId (object cb)).

(** One call of an operation of the manager that returns. *)
Inductive step : World → World → Prop :=
  | step_Load env instanceRows lockRows w w' :
      Load env instanceRows lockRows w = Ok w' → step w w'
  | step_Unload w :
      step w (Unload w)
  | step_CreateInstanceLockForNewInstance env playerGuid entries instanceId w :
      step w (CreateInstanceLockForNewInstance env playerGuid entries instanceId w).2
  | step_UpdateInstanceLockForPlayer env trans playerGuid entries updateEvent w res :
      UpdateInstanceLockForPlayer env trans playerGuid entries updateEvent w = Ok res →
      step w res.2
  | step_UpdateSharedInstanceLock env trans updateEvent w res :
      UpdateSharedInstanceLock env trans updateEvent w = Ok res → step w res.2
  | step_UpdateInstanceLockExtensionForPlayer env playerGuid entries extended w :
      step w (UpdateInstanceLockExtensionForPlayer env playerGuid entries extended w).

(** The world at start-up: a manager just constructed, no shared record,
    nothing executed or logged. *)
Definition initial : World :=
  {| sInstanceLockMgr := InstanceLockMgr_ctor; heap := [];
     CharacterDatabase := []; Log := []; sMapMgr := [] |}.

Definition reachable (w : World) : Prop := rtc step initial w.

(** ** Local time as a line *)

(** The seconds a broken-down local time counts from the start of its
    month frame. [mktime] accepts a day of the month out of range and
    carries it over, so a time with [tm_mday + k] is [k] days later. *)
Definition tm_local_seconds (t : tm) : Z :=
  ((tm_mday t * 24 + tm_hour t) * 60 + tm_min t) * 60 + tm_sec t.

(** What [localtime] yields for the clock and the weekday. *)
Definition tm_clock_valid (t : tm) : Prop :=
  0 ≤ tm_sec t < 60 ∧ 0 ≤ tm_min t < 60 ∧ 0 ≤ tm_hour t < 24 ∧ 0 ≤ tm_wday t ≤ 6.

(** Today's date [k] days on, at [hour] o'clock sharp. *)
Definition tm_at (t : tm) (k hour : Z) : tm :=
  set_tm_mday (tm_mday t + k) (set_tm_hour hour (set_tm_min 0 (set_tm_sec 0 t))).

Definition resetHour_of (env : Env) : Z :=
  GetIntDefault (sConfigMgr env) "ResetSchedule.DailyHour" 9.

Definition resetDay_of (env : Env) : Z :=
  GetIntDefault (sConfigMgr env) "ResetSchedule.WeeklyDay" 2.

(** ** Sample data: Monday 12:00, reset on Tuesday 09:00 *)

Module Sample.

Definition monday_noon : tm :=
  {| tm_sec := 0; tm_min := 0; tm_hour := 12; tm_mday := 5; tm_mon := 0;
     tm_year := 126; tm_wday := 1; tm_yday := 4; tm_isdst := 0 |}.

Definition map100 : MapEntry := {| ID := 100; IsFlexLocking := false |}.
Definition map200 : MapEntry := {| ID := 200; IsFlexLocking := true |}.

Definition diff5 : MapDifficultyEntry :=
  {| MapID := 100; DifficultyID := 5; LockID := 7;
     ResetInterval := MAP_DIFFICULTY_RESET_WEEKLY; HasResetSchedule := true;
     IsUsingEncounterLocks := false; GetRaidDuration := 604800 |}.

Definition diff1 : MapDifficultyEntry :=
  {| MapID := 100; DifficultyID := 1; LockID := 3;
     ResetInterval := MAP_DIFFICULTY_RESET_DAILY; HasResetSchedule := true;
     IsUsingEncounterLocks := true; GetRaidDuration := 86400 |}.

Definition diff0 : MapDifficultyEntry :=
  {| MapID := 100; DifficultyID := 0; LockID := 0;
     ResetInterval := MAP_DIFFICULTY_RESET_ANYTIME; HasResetSchedule := false;
     IsUsingEncounterLocks := false; GetRaidDuration := 0 |}.

Definition diff14 : MapDifficultyEntry :=
  {| MapID := 200; DifficultyID := 14; LockID := 1;
     ResetInterval := MAP_DIFFICULTY_RESET_WEEKLY; HasResetSchedule := true;
     IsUsingEncounterLocks := false; GetRaidDuration := 604800 |}.

(** instance-bound, weekly *)
Definition raid : MapDb2Entries := {| Map := map100; MapDifficulty := diff5 |}.
(** encounter-locked, daily *)
Definition dungeon : MapDb2Entries := {| Map := map100; MapDifficulty := diff1 |}.
(** no reset schedule *)
Definition normal : MapDb2Entries := {| Map := map100; MapDifficulty := diff0 |}.
(** flex-locking *)
Definition flex : MapDb2Entries := {| Map := map200; MapDifficulty := diff14 |}.

Definition env : Env :=
  {| GetSystemTime := tm_local_seconds monday_noon;
     GetDateAndTime := monday_noon;
     sConfigMgr := ∅;
     mktime := tm_local_seconds;
     EscapeString := λ s, s;
     sMapStore := λ m,
       if m =? 100 then Some map100 else if m =? 200 then Some map200 else None;
     GetMapDifficultyData := λ m d,
       if (m =? 100) && (d =? 5) then Some diff5
       else if (m =? 100) && (d =? 1) then Some diff1
       else if (m =? 100) && (d =? 0) then Some diff0
       else if (m =? 200) && (d =? 14) then Some diff14
       else None |}.

Definition start : World := initial.

Definition tuesday_9 : Z := Eval vm_compute in GetNextResetTime env raid.

(** A plain lock with a mask, and a store holding it for one player. *)
Definition lock_with (instanceId expiryTime : Z) (extended : bool) (mask : Z)
    (shared : option nat) (e : MapDb2Entries) : InstanceLock :=
  {| _mapId := MapID (MapDifficulty e); _difficultyId := DifficultyID (MapDifficulty e);
     _instanceId := instanceId; _expiryTime := expiryTime; _extended := extended;
     _data := set_mask mask InstanceLockData_default; _sharedData := shared |}.

Definition holding (playerGuid : Z) (e : MapDb2Entries) (l : InstanceLock) (w : World) : World :=
  set_permanent (slot_insert playerGuid (GetKey e) l (permanent w)) w.

Definition holding_temporary (playerGuid : Z) (e : MapDb2Entries) (l : InstanceLock)
    (w : World) : World :=
  set_temporary (slot_insert playerGuid (GetKey e) l (temporary w)) w.

(** The record of instance 9 with two owners, registered under 9. *)
Definition record9 : SharedInstanceLockData :=
  {| sharedBase := InstanceLockData_default; InstanceId := 9 |}.

Definition two_owners : World :=
  {| sInstanceLockMgr :=
       {| _temporaryInstanceLocksByPlayer := ∅; _instanceLocksByPlayer := ∅;
          _instanceLockDataById := {[ 9 := 0%nat ]}; _unloading := false |};
     heap := [ {| use_count := 2; object := record9 |} ];
     CharacterDatabase := []; Log := []; sMapMgr := [] |}.

(** The encounter of bit 3 is completed in instance 42. *)
Definition kill3 : InstanceLockUpdateEvent :=
  {| ev_InstanceId := 42; NewData := "a"; InstanceCompletedEncountersMask := 0;
     CompletedEncounter := Some {| EncounterID := 1; Bit := 3 |} |}.

(** A row of player 1 for the raid, bound to instance 77. *)
Definition orphan_row : LockRow :=
  {| lr_guid := 1; lr_mapId := 100; lr_lockId := 7; lr_instanceId := 77;
     lr_difficulty := 5; lr_data := "x"; lr_completedEncountersMask := 1;
     lr_expiryTime := 550800; lr_extended := false |}.

End Sample.

(** ** The locks of a player *)

(** [GetInstanceLocksForPlayer]: the player's permanent locks, in the
    iteration order of the player's map. *)
Definition GetInstanceLocksForPlayer (w : World) (playerGuid : Z) : list InstanceLock :=
  match permanent w !! playerGuid with
  | Some playerLocks => (map_to_list playerLocks).*2
  | None => []
  end.

(** ** The lock an update starts from *)

(** The lock [UpdateInstanceLockForPlayer] works on when there is one:
    the permanent lock of the key if it is usable (not expired, or
    extended), and otherwise the temporary lock of the key. *)
Definition UpdateInstanceLockForPlayer_prior (env : Env) (w : World) (playerGuid : Z)
    (entries : MapDb2Entries) : option InstanceLock :=
  match FindActiveInstanceLock env w playerGuid entries true true with
  | Some l => Some l
  | None => FindInstanceLock (temporary w) playerGuid entries
  end.

(** ** After the unloading flag is set *)

(** From [w] to [w'], if the manager was unloading it still is, and the
    statements executed since are no DELETE FROM instance2. *)
Definition quiet (w w' : World) : Prop :=
  unloading w = true →
  unloading w' = true ∧
  ∃ l, CharacterDatabase w' = CharacterDatabase w ++ l ∧
       Forall (λ s, ∀ instanceId, s ≠ DELETE_instance2 instanceId) l.

(** ** The rows of the two tables *)

(** The primary key of a row of character_instance_lock. *)
Definition lock_row_key (row : LockRow) : Z * InstanceLockKey :=
  (lr_guid row, (lr_mapId row, lr_lockId row)).

(** Whether the map and difficulty of a row are in the catalog and
    instance-bound. *)
Definition lock_row_bound (env : Env) (row : LockRow) : bool :=
  match MapDb2Entries_ctor env (lr_mapId row) (lr_difficulty row) with
  | Ok entries => IsInstanceIdBound entries
  | Abort => false
  end.

(** The lock that [Load] makes from a row. *)
Definition lock_of_row (row : LockRow) (sharedData : option nat) : InstanceLock :=
  {| _mapId := lr_mapId row; _difficultyId := lr_difficulty row;
     _instanceId := lr_instanceId row; _expiryTime := lr_expiryTime row;
     _extended := lr_extended row;
     _data := {| Data := lr_data row;
                 CompletedEncountersMask := lr_completedEncountersMask row;
                 EntranceWorldSafeLocId := 0 |};
     _sharedData := sharedData |}.

(** The shared record that [Load] makes from a row of the instance table. *)
Definition record_of_row (row : InstanceRow) : SharedInstanceLockData :=
  {| sharedBase := {| Data := ir_data row;
                      CompletedEncountersMask := ir_completedEncountersMask row;
                      EntranceWorldSafeLocId := 0 |};
     InstanceId := ir_instanceId row |}.

(** What a turn of the second loop of [Load] leaves in the slot of its
    row: nothing for an orphaned row, and the lock of the row otherwise. *)
Definition Load_lock_row_slot (env : Env) (instanceLockDataById : gmap Z nat)
    (row : LockRow) : option InstanceLock :=
  if lock_row_bound env row then
    match instanceLockDataById !! lr_instanceId row with
    | Some p => Some (lock_of_row row (Some p))
    | None => None
    end
  else Some (lock_of_row row None).

(** Whether a row takes a share of the record that the index has for its
    instance id. *)
Definition lock_row_shares (env : Env) (instanceLockDataById : gmap Z nat)
    (row : LockRow) (p : nat) : Prop :=
  lock_row_bound env row = true ∧ instanceLockDataById !! lr_instanceId row = Some p.

(** Whether a row of character_instance_lock is orphaned: its map and
    difficulty are instance-bound and the instance table has no row of
    its instance id. *)
Definition lock_row_orphaned (env : Env) (instanceRows : list InstanceRow)
    (row : LockRow) : bool :=
  lock_row_bound env row &&
  bool_decide (lr_instanceId row ∉ ir_instanceId <$> instanceRows).

(** The instance ids of the orphaned rows, in the order of the rows. *)
Definition orphaned_instance_ids (env : Env) (instanceRows : list InstanceRow)
    (lockRows : list LockRow) : list Z :=
  lr_instanceId <$> List.filter (lock_row_orphaned env instanceRows) lockRows.

(** ** Sample tables *)

Module SampleTables.

(** Instances 9 and 10. *)
Definition instances : list InstanceRow :=
  [ {| ir_instanceId := 9; ir_data := "nine"; ir_completedEncountersMask := 1 |};
    {| ir_instanceId := 10; ir_data := "ten"; ir_completedEncountersMask := 0 |} ].

(** Player 1 is bound to instance 9 of the raid. *)
Definition bound_row : LockRow :=
  {| lr_guid := 1; lr_mapId := 100; lr_lockId := 7; lr_instanceId := 9;
     lr_difficulty := 5; lr_data := "p"; lr_completedEncountersMask := 1;
     lr_expiryTime := 550800; lr_extended := false |}.

(** Player 2 has a row for instance 77 of the raid, which has no row. *)
Definition orphan_row : LockRow :=
  {| lr_guid := 2; lr_mapId := 100; lr_lockId := 7; lr_instanceId := 77;
     lr_difficulty := 5; lr_data := "x"; lr_completedEncountersMask := 1;
     lr_expiryTime := 550800; lr_extended := false |}.

Definition locks : list LockRow := [bound_row; orphan_row].

(** Player 1 holds a lock that expired at time 0, the only owner of the
    record of instance 9. *)
Definition expired_owner : World :=
  Sample.holding 1 Sample.raid
    (Sample.lock_with 9 0 false 0 (Some 0%nat) Sample.raid)
    {| sInstanceLockMgr :=
         {| _temporaryInstanceLocksByPlayer := ∅; _instanceLocksByPlayer := ∅;
            _instanceLockDataById := {[ 9 := 0%nat ]}; _unloading := false |};
       heap := [ {| use_count := 1; object := Sample.record9 |} ];
       CharacterDatabase := []; Log := []; sMapMgr := [] |}.

End SampleTables.

(** ** Temporary locks as they are made *)

(** Every temporary lock is as [CreateInstanceLockForNewInstance] made
    it: no instance id, no extension, no data, no encounter. *)
Definition temporary_locks_fresh (w : World) : Prop :=
  ∀ g k l, slot_lookup g k (temporary w) = Some l →
           _instanceId l = 0 ∧ _extended l = false ∧ _data l = InstanceLockData_default.

(** * Properties *)

(** ** Admission *)

Lemma uint32_not_land (x y : Z) :
  0 ≤ x < 4294967296 → Z.land x (uint32_not y) = Z.land x (Z.lnot y).
Proof.
  intros Hx. unfold uint32_not.
  rewrite (Z.land_comm (Z.lnot y)), Z.land_assoc. f_equal.
  change 4294967295 with (Z.ones 32). rewrite Z.land_ones by lia.
  apply Z.mod_small. lia.
Qed.

(** C1. [CanJoinInstanceLock] allows the transfer when the difficulty has
    no reset schedule or the player has no active lock under the key.
    With a schedule and an active lock of the player: on a flex-locking
    map it answers ALREADY_COMPLETED_ENCOUNTER exactly when
    [playerMask & ~candidateMask] is not zero, and NONE otherwise; on a
    map that is not flex-locking and uses encounter locks it answers
    NONE; on an instance-bound map it answers
    LOCKED_TO_DIFFERENT_INSTANCE exactly when the player's lock has a
    nonzero instance id that differs from the candidate's, and NONE
    otherwise. *)
Theorem CanJoinInstanceLock_disciplines (env : Env) (w : World) (playerGuid : Z)
    (entries : MapDb2Entries) (instanceLock : InstanceLock) :
  let r := CanJoinInstanceLock env w playerGuid entries instanceLock in
  (HasResetSchedule (MapDifficulty entries) = false → r = TRANSFER_ABORT_NONE) ∧
  (FindActiveInstanceLock2 env w playerGuid entries = None → r = TRANSFER_ABORT_NONE) ∧
  (∀ playerInstanceLock,
     HasResetSchedule (MapDifficulty entries) = true →
     FindActiveInstanceLock2 env w playerGuid entries = Some playerInstanceLock →
     let playerMask := CompletedEncountersMask (_data playerInstanceLock) in
     let candidateMask := CompletedEncountersMask (_data instanceLock) in
     (IsFlexLocking (Map entries) = true →
        (r = TRANSFER_ABORT_ALREADY_COMPLETED_ENCOUNTER ↔
           Z.land playerMask (uint32_not candidateMask) ≠ 0) ∧
        (Z.land playerMask (uint32_not candidateMask) = 0 → r = TRANSFER_ABORT_NONE)) ∧
     (IsFlexLocking (Map entries) = false →
      IsUsingEncounterLocks (MapDifficulty entries) = true →
        r = TRANSFER_ABORT_NONE) ∧
     (IsInstanceIdBound entries = true →
        (r = TRANSFER_ABORT_LOCKED_TO_DIFFERENT_INSTANCE ↔
           _instanceId playerInstanceLock ≠ 0 ∧
           _instanceId playerInstanceLock ≠ _instanceId instanceLock) ∧
        (¬ (_instanceId playerInstanceLock ≠ 0 ∧
            _instanceId playerInstanceLock ≠ _instanceId instanceLock) →
           r = TRANSFER_ABORT_NONE))).
Proof.
  unfold CanJoinInstanceLock, IsInstanceIdBound. cbv zeta.
  split; [intros ->; reflexivity|].
  split.
  { intros ->. destruct (HasResetSchedule _); reflexivity. }
  intros pl -> ->. cbn [negb].
  split; [|split].
  - intros ->.
    destruct (Z.eqb_spec (Z.land (CompletedEncountersMask (_data pl))
                (uint32_not (CompletedEncountersMask (_data instanceLock)))) 0) as [E|E];
      cbn [negb].
    + split; [split; [discriminate | intros H; contradiction] | reflexivity].
    + split; [split; [intros _; exact E | reflexivity] | intros H; contradiction].
  - intros -> ->. reflexivity.
  - intros Hb. apply andb_true_iff in Hb as [Hf He].
    apply negb_true_iff in Hf, He. rewrite Hf, He. cbn [negb andb].
    destruct (Z.eqb_spec (_instanceId pl) 0) as [E0|E0]; cbn [negb andb].
    + split; [split; [discriminate | intros [H _]; contradiction] | reflexivity].
    + destruct (Z.eqb_spec (_instanceId pl) (_instanceId instanceLock)) as [E1|E1];
        cbn [negb].
      * split; [split; [discriminate | intros [_ H]; contradiction] | reflexivity].
      * split; [split; [intros _; split; assumption | reflexivity] |].
        intros H. exfalso. apply H. split; assumption.
Qed.

(** Cross-instance rejection: a player bound to instance 42 of an
    instance-bound raid is refused instance 43. *)
Lemma CanJoinInstanceLock_disciplines_witness :
  CanJoinInstanceLock Sample.env
    (Sample.holding 1 Sample.raid
       (Sample.lock_with 42 Sample.tuesday_9 false 0 None Sample.raid) Sample.start)
    1 Sample.raid (Sample.lock_with 43 Sample.tuesday_9 false 0 None Sample.raid)
  = TRANSFER_ABORT_LOCKED_TO_DIFFERENT_INSTANCE.
Proof.
  pose proof (CanJoinInstanceLock_disciplines Sample.env
    (Sample.holding 1 Sample.raid
       (Sample.lock_with 42 Sample.tuesday_9 false 0 None Sample.raid) Sample.start)
    1 Sample.raid (Sample.lock_with 43 Sample.tuesday_9 false 0 None Sample.raid)) as H.
  cbv zeta in H. destruct H as (_ & _ & H).
  destruct (H (Sample.lock_with 42 Sample.tuesday_9 false 0 None Sample.raid)
              eq_refl eq_refl) as (_ & _ & Hb).
  destruct (Hb eq_refl) as [Hiff _].
  apply Hiff. split; vm_compute; discriminate.
Defined.

(** ** Binding store *)

(** C2. [FindActiveInstanceLock] returns the permanent lock of the key
    when there is one and it is not expired, or is extended, or expired
    locks are not ignored. Otherwise it returns the temporary lock of the
    key (or none) when temporary locks are not ignored, and none when
    they are. The overload without flags passes
    [ignoreTemporary = false] and [ignoreExpired = true]: it does not see
    a permanent lock that is expired and not extended, and returns the
    temporary lock of the same key. *)
Theorem FindActiveInstanceLock_tiers (env : Env) (w : World) (playerGuid : Z)
    (entries : MapDb2Entries) (ignoreTemporary ignoreExpired : bool) :
  let perm := FindInstanceLock (permanent w) playerGuid entries in
  let temp := FindInstanceLock (temporary w) playerGuid entries in
  let r := FindActiveInstanceLock env w playerGuid entries ignoreTemporary ignoreExpired in
  (∀ l, perm = Some l →
     IsExpired env l = false ∨ _extended l = true ∨ ignoreExpired = false →
     r = Some l) ∧
  (perm = None ∨
   (∃ l, perm = Some l ∧ IsExpired env l = true ∧ _extended l = false ∧ ignoreExpired = true) →
     (ignoreTemporary = false → r = temp) ∧ (ignoreTemporary = true → r = None)) ∧
  FindActiveInstanceLock2 env w playerGuid entries
    = FindActiveInstanceLock env w playerGuid entries false true ∧
  (∀ l, perm = Some l → IsExpired env l = true → _extended l = false →
     FindActiveInstanceLock2 env w playerGuid entries = temp).
Proof.
  unfold FindActiveInstanceLock2, FindActiveInstanceLock. cbv zeta.
  split; [|split; [|split]].
  - intros l -> H.
    destruct H as [-> | [-> | ->]]; cbn [negb orb]; [reflexivity | |].
    + rewrite orb_true_r. reflexivity.
    + rewrite orb_true_r. reflexivity.
  - intros [-> | (l & -> & -> & -> & ->)]; cbn [negb orb];
      (split; intros ->; reflexivity).
  - reflexivity.
  - intros l -> -> ->. reflexivity.
Qed.

(** An expired permanent lock that is not extended hides behind the
    temporary lock of the same key. *)
Lemma FindActiveInstanceLock_tiers_witness :
  FindActiveInstanceLock2 Sample.env
    (Sample.holding_temporary 1 Sample.raid
       (Sample.lock_with 0 Sample.tuesday_9 false 0 None Sample.raid)
       (Sample.holding 1 Sample.raid
          (Sample.lock_with 42 0 false 0 None Sample.raid) Sample.start))
    1 Sample.raid
  = Some (Sample.lock_with 0 Sample.tuesday_9 false 0 None Sample.raid).
Proof.
  pose proof (FindActiveInstanceLock_tiers Sample.env
    (Sample.holding_temporary 1 Sample.raid
       (Sample.lock_with 0 Sample.tuesday_9 false 0 None Sample.raid)
       (Sample.holding 1 Sample.raid
          (Sample.lock_with 42 0 false 0 None Sample.raid) Sample.start))
    1 Sample.raid false true) as H.
  cbv zeta in H. destruct H as (_ & _ & _ & H).
  rewrite (H (Sample.lock_with 42 0 false 0 None Sample.raid) eq_refl eq_refl eq_refl).
  reflexivity.
Defined.

(** ** Expiry *)

(** C3. The effective expiry time of a lock is its expiry time when it is
    not extended. When it is extended and expired (its expiry time is
    before now) it is the next reset time of the entries of the lock's
    map and difficulty; when it is extended and not expired it is the
    expiry time plus the raid duration of the difficulty. *)
Theorem GetEffectiveExpiryTime_cases (env : Env) (b : InstanceLock) :
  (_extended b = false → GetEffectiveExpiryTime env b = Ok (_expiryTime b)) ∧
  (∀ entries,
     _extended b = true →
     MapDb2Entries_ctor env (_mapId b) (_difficultyId b) = Ok entries →
     (_expiryTime b < GetSystemTime env →
        IsExpired env b = true ∧
        GetEffectiveExpiryTime env b = Ok (GetNextResetTime env entries)) ∧
     (GetSystemTime env ≤ _expiryTime b →
        IsExpired env b = false ∧
        GetEffectiveExpiryTime env b
          = Ok (_expiryTime b + GetRaidDuration (MapDifficulty entries)))).
Proof.
  unfold GetEffectiveExpiryTime, IsExpired. split.
  - intros ->. reflexivity.
  - intros entries -> ->. cbn. split; intros H.
    + apply Z.ltb_lt in H. rewrite H. split; reflexivity.
    + apply Z.ltb_ge in H. rewrite H. split; reflexivity.
Qed.

(** An extended lock that expired at time 0 is good until Tuesday 09:00. *)
Lemma GetEffectiveExpiryTime_cases_witness :
  GetEffectiveExpiryTime Sample.env (Sample.lock_with 42 0 true 0 None Sample.raid)
  = Ok Sample.tuesday_9.
Proof.
  destruct (GetEffectiveExpiryTime_cases Sample.env
              (Sample.lock_with 42 0 true 0 None Sample.raid)) as [_ H].
  destruct (H Sample.raid eq_refl eq_refl) as [Hexp _].
  destruct Hexp as [_ ->]; [vm_compute; reflexivity | reflexivity].
Defined.

(** ** Reset scheduler *)

Lemma GetNextResetTime_dateTime_daily (env : Env) (entries : MapDb2Entries) :
  ResetInterval (MapDifficulty entries) = MAP_DIFFICULTY_RESET_DAILY →
  GetNextResetTime_dateTime env entries
  = tm_at (GetDateAndTime env)
      (if resetHour_of env <=? tm_hour (GetDateAndTime env) then 1 else 0)
      (resetHour_of env).
Proof.
  intros E. unfold GetNextResetTime_dateTime, tm_at, resetHour_of. rewrite E.
  unfold set_tm_hour, set_tm_mday, set_tm_min, set_tm_sec. cbn.
  destruct (_ <=? _); cbn; f_equal; lia.
Qed.

Lemma GetNextResetTime_dateTime_weekly (env : Env) (entries : MapDb2Entries) :
  ResetInterval (MapDifficulty entries) = MAP_DIFFICULTY_RESET_WEEKLY →
  GetNextResetTime_dateTime env entries
  = tm_at (GetDateAndTime env)
      (if (resetDay_of env <? tm_wday (GetDateAndTime env))
          || ((tm_wday (GetDateAndTime env) =? resetDay_of env)
              && (resetHour_of env <=? tm_hour (GetDateAndTime env)))
       then resetDay_of env - tm_wday (GetDateAndTime env) + 7
       else resetDay_of env - tm_wday (GetDateAndTime env))
      (resetHour_of env).
Proof.
  intros E. unfold GetNextResetTime_dateTime, tm_at, resetHour_of, resetDay_of. rewrite E.
  cbn. destruct (_ || _); reflexivity.
Qed.

(** C4. [GetNextResetTime] hands to [mktime] a local time whose minutes
    and seconds are zero. With a daily interval it is today at the reset
    hour when the current hour is below the reset hour, and tomorrow at
    the reset hour otherwise. With a weekly interval, for a reset hour
    and a reset weekday in range, it is the first day from today on that
    falls on the reset weekday and whose reset hour is strictly after
    now: [k] days on with [0 ≤ k ≤ 7], where [k = 7] exactly when today
    is the reset day and the current hour is at or past the reset hour. *)
Theorem GetNextResetTime_schedule (env : Env) (entries : MapDb2Entries) :
  let now := GetDateAndTime env in
  let hour := resetHour_of env in
  let day := resetDay_of env in
  let r := GetNextResetTime_dateTime env entries in
  GetNextResetTime env entries = mktime env r ∧
  tm_min r = 0 ∧ tm_sec r = 0 ∧
  (ResetInterval (MapDifficulty entries) = MAP_DIFFICULTY_RESET_DAILY →
     (tm_hour now < hour → r = tm_at now 0 hour) ∧
     (hour ≤ tm_hour now → r = tm_at now 1 hour)) ∧
  (ResetInterval (MapDifficulty entries) = MAP_DIFFICULTY_RESET_WEEKLY →
   tm_clock_valid now → 0 ≤ hour < 24 → 0 ≤ day ≤ 6 →
     ∃ k, r = tm_at now k hour ∧ 0 ≤ k ≤ 7 ∧
          (tm_wday now + k) mod 7 = day ∧
          tm_local_seconds now < tm_local_seconds r ∧
          (∀ j, 0 ≤ j < k → (tm_wday now + j) mod 7 = day →
                tm_local_seconds (tm_at now j hour) ≤ tm_local_seconds now) ∧
          (k = 7 ↔ tm_wday now = day ∧ hour ≤ tm_hour now)).
Proof.
  cbv zeta. split; [reflexivity|].
  split; [unfold GetNextResetTime_dateTime;
          destruct (ResetInterval _); [|destruct (_ <=? _)|]; reflexivity|].
  split; [unfold GetNextResetTime_dateTime;
          destruct (ResetInterval _); [|destruct (_ <=? _)|]; reflexivity|].
  split.
  - intros E. rewrite (GetNextResetTime_dateTime_daily _ _ E). split; intros H.
    + apply Z.leb_gt in H. rewrite H. reflexivity.
    + apply Z.leb_le in H. rewrite H. reflexivity.
  - intros E (Hs & Hm & Hh & Hw) Hhour Hday.
    rewrite (GetNextResetTime_dateTime_weekly _ _ E).
    set (now := GetDateAndTime env) in *.
    set (hour := resetHour_of env) in *. set (day := resetDay_of env) in *.
    destruct (Z.ltb_spec day (tm_wday now)) as [Hlt|Hge]; cbn [orb].
    + exists (day - tm_wday now + 7). split; [reflexivity|].
      split; [lia|]. split; [|split; [|split]].
      * replace (tm_wday now + (day - tm_wday now + 7)) with (day + 1 * 7) by lia.
        rewrite Z_mod_plus_full. apply Z.mod_small. lia.
      * unfold tm_local_seconds, tm_at. cbn. nia.
      * intros j Hj Hmod. exfalso.
        assert ((tm_wday now + j) mod 7 = tm_wday now + j ∨
                (tm_wday now + j) mod 7 = tm_wday now + j - 7) as [Hc|Hc]
          by (Z.div_mod_to_equations; lia); lia.
      * split; [lia | intros [? ?]; lia].
    + destruct (Z.eqb_spec (tm_wday now) day) as [Heq|Hne]; cbn [andb].
      * destruct (Z.leb_spec hour (tm_hour now)) as [Hpast|Hbefore].
        -- exists (day - tm_wday now + 7). split; [reflexivity|].
           split; [lia|]. split; [|split; [|split]].
           ++ replace (tm_wday now + (day - tm_wday now + 7)) with (day + 1 * 7) by lia.
              rewrite Z_mod_plus_full. apply Z.mod_small. lia.
           ++ unfold tm_local_seconds, tm_at. cbn. nia.
           ++ intros j Hj Hmod.
              assert (j = 0) as ->.
              { assert ((tm_wday now + j) mod 7 = tm_wday now + j ∨
                        (tm_wday now + j) mod 7 = tm_wday now + j - 7) as [Hc|Hc]
                  by (Z.div_mod_to_equations; lia); lia. }
              unfold tm_local_seconds, tm_at. cbn. nia.
           ++ split; [intros _; split; assumption | lia].
        -- exists (day - tm_wday now). split; [reflexivity|].
           split; [lia|]. split; [|split; [|split]].
           ++ replace (tm_wday now + (day - tm_wday now)) with day by lia.
              apply Z.mod_small. lia.
           ++ unfold tm_local_seconds, tm_at. cbn. nia.
           ++ intros j Hj. lia.
           ++ split; [lia | intros [? ?]; lia].
      * exists (day - tm_wday now). split; [reflexivity|].
        split; [lia|]. split; [|split; [|split]].
        -- replace (tm_wday now + (day - tm_wday now)) with day by lia.
           apply Z.mod_small. lia.
        -- unfold tm_local_seconds, tm_at. cbn. nia.
        -- intros j Hj Hmod. exfalso.
           rewrite Z.mod_small in Hmod by lia. lia.
        -- split; [lia | intros [? ?]; lia].
Qed.

(** On Monday at noon the weekly reset is a day on that falls on
    Tuesday, at 09:00. *)
Lemma GetNextResetTime_schedule_witness :
  ∃ k, GetNextResetTime_dateTime Sample.env Sample.raid = tm_at Sample.monday_noon k 9 ∧
       0 ≤ k ≤ 7 ∧ (1 + k) mod 7 = 2.
Proof.
  pose proof (GetNextResetTime_schedule Sample.env Sample.raid) as H.
  cbv zeta in H. destruct H as (_ & _ & _ & _ & H).
  destruct (H eq_refl) as (k & Hr & Hk & Hmod & _).
  - unfold tm_clock_valid. vm_compute. intuition discriminate.
  - vm_compute. intuition discriminate.
  - vm_compute. intuition discriminate.
  - exists k. split; [exact Hr | split; [exact Hk | exact Hmod]].
Defined.

(** ** What destroying a lock can touch *)

Lemma stores_kept_refl (w : World) : stores_kept w w.
Proof. repeat split. Qed.

Lemma stores_kept_trans (w1 w2 w3 : World) :
  stores_kept w1 w2 → stores_kept w2 w3 → stores_kept w1 w3.
Proof.
  intros (? & ? & ? & ?) (? & ? & ? & ?). repeat split; congruence.
Qed.

Lemma OnSharedInstanceLockDataDelete_stores (instanceId : Z) (w : World) :
  stores_kept w (OnSharedInstanceLockDataDelete instanceId w).
Proof.
  unfold OnSharedInstanceLockDataDelete. destruct (unloading w); repeat split.
Qed.

Lemma shared_ptr_release_stores (p : nat) (w : World) :
  stores_kept w (shared_ptr_release p w).
Proof.
  unfold shared_ptr_release. destruct (heap w !! p) as [cb|]; [|apply stores_kept_refl].
  destruct (use_count cb) as [|[|n]]; [apply stores_kept_refl| |repeat split].
  unfold SharedInstanceLockData_dtor. destruct (_ =? 0); [repeat split|].
  eapply stores_kept_trans; [|apply OnSharedInstanceLockDataDelete_stores].
  repeat split.
Qed.

Lemma InstanceLock_dtor_stores (l : InstanceLock) (w : World) :
  stores_kept w (InstanceLock_dtor l w).
Proof.
  unfold InstanceLock_dtor. destruct (_sharedData l);
    [apply shared_ptr_release_stores | apply stores_kept_refl].
Qed.

Lemma destroy_old_stores (old : option InstanceLock) (w : World) :
  stores_kept w (destroy_old old w).
Proof.
  destruct old; [apply InstanceLock_dtor_stores | apply stores_kept_refl].
Qed.

Lemma only_heap_refl (w : World) : only_heap w w.
Proof. repeat split. Qed.

Lemma only_heap_trans (w1 w2 w3 : World) :
  only_heap w1 w2 → only_heap w2 w3 → only_heap w1 w3.
Proof.
  intros (? & ? & ? & ?) (? & ? & ? & ?). repeat split; congruence.
Qed.

Lemma only_heap_set_heap (h : list ControlBlock) (w : World) : only_heap w (set_heap h w).
Proof. repeat split. Qed.

Lemma OnSharedInstanceLockDataDelete_unloading (instanceId : Z) (w : World) :
  unloading w = true → OnSharedInstanceLockDataDelete instanceId w = w.
Proof. unfold OnSharedInstanceLockDataDelete. intros ->. reflexivity. Qed.

Lemma shared_ptr_release_unloading (p : nat) (w : World) :
  unloading w = true → only_heap w (shared_ptr_release p w).
Proof.
  intros Hu. unfold shared_ptr_release.
  destruct (heap w !! p) as [cb|]; [|apply only_heap_refl].
  destruct (use_count cb) as [|[|n]];
    [apply only_heap_refl | | apply only_heap_set_heap].
  unfold SharedInstanceLockData_dtor. destruct (_ =? 0); [apply only_heap_set_heap|].
  rewrite OnSharedInstanceLockDataDelete_unloading by exact Hu.
  apply only_heap_set_heap.
Qed.

Lemma InstanceLock_dtor_unloading (l : InstanceLock) (w : World) :
  unloading w = true → only_heap w (InstanceLock_dtor l w).
Proof.
  intros Hu. unfold InstanceLock_dtor.
  destruct (_sharedData l); [by apply shared_ptr_release_unloading | apply only_heap_refl].
Qed.

Lemma destroy_locks_unloading (ls : list InstanceLock) (w : World) :
  unloading w = true → only_heap w (destroy_locks ls w).
Proof.
  revert w. induction ls as [|l ls IH]; intros w Hu; [apply only_heap_refl|].
  cbn. pose proof (InstanceLock_dtor_unloading l w Hu) as H1.
  eapply only_heap_trans; [exact H1|]. apply IH.
  destruct H1 as (Hm & _). unfold unloading. rewrite Hm. exact Hu.
Qed.

(** ** Unload *)

(** C6, as the code has it. [Unload] sets the unloading flag first; after
    it the permanent store and the registry of shared records are empty
    and no statement at all, so no DELETE FROM instance2, has been
    executed. The temporary store is not cleared: it is what it was. *)
Theorem Unload_clears_permanent_and_registry (w : World) :
  permanent (Unload w) = ∅ ∧
  registry (Unload w) = ∅ ∧
  unloading (Unload w) = true ∧
  CharacterDatabase (Unload w) = CharacterDatabase w ∧
  temporary (Unload w) = temporary w.
Proof.
  unfold Unload.
  pose proof (destroy_locks_unloading (owned_locks (permanent (set_unloading true w)))
                (set_unloading true w) eq_refl) as (Hm & Hdb & _ & _).
  set (w1 := destroy_locks _ _) in *.
  unfold permanent, registry, unloading, temporary in *. cbn.
  rewrite Hm, Hdb. repeat split.
Qed.

(** C6 fails as stated: in the state reached from start-up by one
    [CreateInstanceLockForNewInstance] for player 1, [Unload] leaves the
    temporary lock made in the temporary store. *)
Lemma Unload_keeps_temporary :
  let w := (CreateInstanceLockForNewInstance Sample.env 1 Sample.raid 42 Sample.start).2 in
  reachable w ∧
  ¬ (permanent (Unload w) = ∅ ∧ temporary (Unload w) = ∅ ∧ registry (Unload w) = ∅ ∧
     CharacterDatabase (Unload w) = CharacterDatabase w).
Proof.
  cbv zeta. split; [apply rtc_once, step_CreateInstanceLockForNewInstance|].
  intros (_ & Ht & _).
  apply (f_equal (λ m, slot_lookup 1 (100, 7) m)) in Ht.
  vm_compute in Ht. discriminate Ht.
Qed.

(** ** The deletion hook *)

Lemma shared_ptr_release_last (p : nat) (cb : ControlBlock) (w : World) :
  heap w !! p = Some cb → use_count cb = 1%nat →
  shared_ptr_release p w
  = SharedInstanceLockData_dtor (object cb)
      (set_heap (<[p := {| use_count := 0; object := object cb |}]> (heap w)) w).
Proof. intros Hp Hc. unfold shared_ptr_release. rewrite Hp, Hc. reflexivity. Qed.

Lemma expired_after_last (p : nat) (cb : ControlBlock) (h : list ControlBlock) :
  h !! p = Some cb →
  <[p := {| use_count := 0; object := object cb |}]> h !! p
  = Some {| use_count := 0; object := object cb |}.
Proof.
  intros Hp. apply list_lookup_insert_eq. by eapply lookup_lt_Some.
Qed.

(** C7, as the code has it. When the last owner of a shared record lets
    go of it and the manager is not unloading, the destructor calls the
    deletion hook if the record's [InstanceId] is not zero: the hook
    erases the registry entry of that id and executes exactly one
    DELETE FROM instance2 for it. A release by an owner that is not the
    last executes nothing. While the manager is unloading, the release
    of the last owner leaves the manager, its registry included, and the
    executed statements as they were, and the hook itself is the
    identity. *)
Theorem SharedInstanceLockData_release_hook (w : World) (p : nat) (cb : ControlBlock) :
  heap w !! p = Some cb →
  let w' := shared_ptr_release p w in
  (use_count cb = 1%nat → unloading w = false → InstanceId (object cb) ≠ 0 →
     registry w' = delete (InstanceId (object cb)) (registry w) ∧
     CharacterDatabase w'
       = CharacterDatabase w ++ [DELETE_instance2 (InstanceId (object cb))] ∧
     expired p w' = true) ∧
  (∀ n, use_count cb = S (S n) →
     sInstanceLockMgr w' = sInstanceLockMgr w ∧
     CharacterDatabase w' = CharacterDatabase w ∧
     expired p w' = false) ∧
  (use_count cb = 1%nat → unloading w = true →
     sInstanceLockMgr w' = sInstanceLockMgr w ∧
     CharacterDatabase w' = CharacterDatabase w ∧
     expired p w' = true) ∧
  (∀ instanceId, unloading w = true → OnSharedInstanceLockDataDelete instanceId w = w).
Proof.
  intros Hp. cbv zeta. split; [|split; [|split]].
  - intros Hc Hu Hid. rewrite (shared_ptr_release_last _ _ _ Hp Hc).
    unfold SharedInstanceLockData_dtor.
    destruct (Z.eqb_spec (InstanceId (object cb)) 0) as [E|_]; [contradiction|].
    unfold OnSharedInstanceLockDataDelete.
    replace (unloading (set_heap _ w)) with (unloading w) by reflexivity. rewrite Hu.
    split; [reflexivity|]. split; [reflexivity|].
    unfold expired. cbn. rewrite (expired_after_last _ _ _ Hp). reflexivity.
  - intros n Hc. unfold shared_ptr_release. rewrite Hp, Hc.
    split; [reflexivity|]. split; [reflexivity|].
    unfold expired. cbn. rewrite list_lookup_insert_eq by (by eapply lookup_lt_Some).
    reflexivity.
  - intros Hc Hu.
    destruct (shared_ptr_release_unloading p w Hu) as (Hm & Hdb & _).
    split; [exact Hm|]. split; [exact Hdb|].
    rewrite (shared_ptr_release_last _ _ _ Hp Hc).
    unfold SharedInstanceLockData_dtor. destruct (_ =? 0).
    + unfold expired. cbn. rewrite (expired_after_last _ _ _ Hp). reflexivity.
    + rewrite OnSharedInstanceLockDataDelete_unloading by exact Hu.
      unfold expired. cbn. rewrite (expired_after_last _ _ _ Hp). reflexivity.
  - intros instanceId Hu. by apply OnSharedInstanceLockDataDelete_unloading.
Qed.

(** Two locks own the record of instance 9; dropping both executes one
    DELETE FROM instance2 for instance 9 and erases its registry entry. *)
Lemma SharedInstanceLockData_release_hook_witness :
  let w := shared_ptr_release 0 Sample.two_owners in
  registry (shared_ptr_release 0 w) = delete 9 (registry w) ∧
  CharacterDatabase (shared_ptr_release 0 w) = [DELETE_instance2 9] ∧
  expired 0 (shared_ptr_release 0 w) = true.
Proof.
  cbv zeta.
  destruct (SharedInstanceLockData_release_hook (shared_ptr_release 0 Sample.two_owners) 0
              {| use_count := 1; object := Sample.record9 |} eq_refl) as (H & _).
  destruct (H eq_refl eq_refl) as (Hr & Hdb & He); [vm_compute; discriminate|].
  split; [exact Hr | split; [exact Hdb | exact He]].
Defined.

(** C7 fails as stated: the record that
    [CreateInstanceLockForNewInstance] makes has [InstanceId] 0; when its
    only owner lets go of it outside unloading, the record is destroyed,
    yet no statement is executed and the registry keeps its entry. *)
Lemma SharedInstanceLockData_release_without_hook :
  let w := (CreateInstanceLockForNewInstance Sample.env 1 Sample.raid 42 Sample.start).2 in
  let w' := shared_ptr_release 0 w in
  reachable w ∧
  unloading w = false ∧ expired 0 w = false ∧ expired 0 w' = true ∧
  (∃ cb, heap w !! 0%nat = Some cb ∧ use_count cb = 1%nat ∧
     ¬ (registry w' = delete (InstanceId (object cb)) (registry w) ∧
        CharacterDatabase w'
          = CharacterDatabase w ++ [DELETE_instance2 (InstanceId (object cb))])) ∧
  CharacterDatabase w' = [] ∧ registry w' !! 42 = Some 0%nat.
Proof.
  cbv zeta. split; [apply rtc_once, step_CreateInstanceLockForNewInstance|].
  split; [reflexivity|]. split; [reflexivity|]. split; [reflexivity|].
  split; [|split; reflexivity].
  eexists. split; [reflexivity|]. split; [reflexivity|].
  intros [_ H]. vm_compute in H. discriminate H.
Qed.

(** C10. A lock that is the last owner of a shared record whose
    [InstanceId] is 0 is destroyed without the deletion hook being called,
    unloading or not: no statement is executed, nothing is logged, the
    manager and so its registry are unchanged, and every registry entry
    that refers to the record stays in place and can no longer be
    upgraded. *)
Theorem InstanceLock_dtor_unassigned_record (w : World) (l : InstanceLock) (p : nat)
    (cb : ControlBlock) :
  _sharedData l = Some p →
  heap w !! p = Some cb →
  use_count cb = 1%nat →
  InstanceId (object cb) = 0 →
  let w' := InstanceLock_dtor l w in
  CharacterDatabase w' = CharacterDatabase w ∧
  Log w' = Log w ∧
  sInstanceLockMgr w' = sInstanceLockMgr w ∧
  expired p w' = true ∧
  (∀ instanceId, registry w !! instanceId = Some p →
     registry w' !! instanceId = Some p ∧ weak_get p w' = None).
Proof.
  intros Hl Hp Hc Hid. cbv zeta. unfold InstanceLock_dtor. rewrite Hl.
  rewrite (shared_ptr_release_last _ _ _ Hp Hc).
  unfold SharedInstanceLockData_dtor. rewrite Hid. cbn [Z.eqb].
  assert (expired p (set_heap (<[p := {| use_count := 0; object := object cb |}]> (heap w)) w)
          = true) as He.
  { unfold expired. cbn. rewrite (expired_after_last _ _ _ Hp). reflexivity. }
  repeat split; try exact He.
  - assumption.
  - unfold weak_get. rewrite He. reflexivity.
Qed.

(** The temporary lock made for instance 42 is destroyed: nothing is
    executed and the registry entry of 42 is dead but in place. *)
Lemma InstanceLock_dtor_unassigned_record_witness :
  let w := (CreateInstanceLockForNewInstance Sample.env 1 Sample.raid 42 Sample.start).2 in
  let l := Sample.lock_with 0 Sample.tuesday_9 false 0 (Some 0%nat) Sample.raid in
  unloading w = false ∧
  CharacterDatabase (InstanceLock_dtor l w) = [] ∧
  registry (InstanceLock_dtor l w) !! 42 = Some 0%nat ∧
  weak_get 0 (InstanceLock_dtor l w) = None.
Proof.
  cbv zeta.
  destruct (InstanceLock_dtor_unassigned_record
              (CreateInstanceLockForNewInstance Sample.env 1 Sample.raid 42 Sample.start).2
              (Sample.lock_with 0 Sample.tuesday_9 false 0 (Some 0%nat) Sample.raid)
              0 {| use_count := 1; object := SharedInstanceLockData_default |}
              eq_refl eq_refl eq_refl eq_refl) as (Hdb & _ & _ & _ & Hreg).
  destruct (Hreg 42 eq_refl) as [H1 H2].
  split; [reflexivity|]. split; [exact Hdb|]. split; [exact H1 | exact H2].
Defined.

(** ** Update on encounter completion *)

Lemma slot_lookup_insert_eq (playerGuid : Z) (key : InstanceLockKey) (lock : InstanceLock)
    (locks : gmap Z (gmap InstanceLockKey InstanceLock)) :
  slot_lookup playerGuid key (slot_insert playerGuid key lock locks) = Some lock.
Proof.
  unfold slot_lookup, slot_insert. rewrite lookup_insert_eq. apply lookup_insert_eq.
Qed.

Lemma slot_lookup_insert_ne (g g' : Z) (key key' : InstanceLockKey) (lock : InstanceLock)
    (locks : gmap Z (gmap InstanceLockKey InstanceLock)) :
  (g', key') ≠ (g, key) →
  slot_lookup g' key' (slot_insert g key lock locks) = slot_lookup g' key' locks.
Proof.
  intros Hne. unfold slot_lookup, slot_insert.
  destruct (decide (g = g')) as [<-|Hg].
  - rewrite lookup_insert_eq. rewrite lookup_insert_ne by congruence.
    destruct (locks !! g); [reflexivity | apply lookup_empty].
  - rewrite lookup_insert_ne by exact Hg. reflexivity.
Qed.

Lemma FindInstanceLock_slot_lookup (locks : gmap Z (gmap InstanceLockKey InstanceLock))
    (playerGuid : Z) (entries : MapDb2Entries) :
  FindInstanceLock locks playerGuid entries = slot_lookup playerGuid (GetKey entries) locks.
Proof. reflexivity. Qed.

Lemma UpdateInstanceLockForPlayer_apply_keeps (playerGuid : Z) (entries : MapDb2Entries)
    (updateEvent : InstanceLockUpdateEvent) (b : InstanceLock) (w : World) :
  let b' := (UpdateInstanceLockForPlayer_apply playerGuid entries updateEvent b w).1 in
  _expiryTime b' = _expiryTime b ∧ _extended b' = _extended b ∧
  _instanceId b' = _instanceId b ∧ _sharedData b' = _sharedData b.
Proof.
  unfold UpdateInstanceLockForPlayer_apply.
  destruct (CompletedEncounter updateEvent); cbn; repeat split.
Qed.

(** C5. Let [b] be the lock that [UpdateInstanceLockForPlayer] has found,
    promoted or created, and let it be expired when the update is
    applied. If [b] is not extended the assertion fails and the call
    aborts; so a call that returns had [b] extended. If [b] is extended
    the call returns the lock with the next reset time of the entries as
    its expiry time and the extension cleared, and that is the lock the
    permanent store holds under the player's key. *)
Theorem UpdateInstanceLockForPlayer_expired (env : Env) (trans : list Statement)
    (playerGuid : Z) (entries : MapDb2Entries) (updateEvent : InstanceLockUpdateEvent)
    (w : World) (b : InstanceLock) (w1 : World) :
  UpdateInstanceLockForPlayer_locate env playerGuid entries updateEvent w = Ok (b, w1) →
  IsExpired env b = true →
  let r := UpdateInstanceLockForPlayer env trans playerGuid entries updateEvent w in
  (_extended b = false → r = Abort) ∧
  (∀ res, r = Ok res → _extended b = true) ∧
  (_extended b = true →
     ∃ b' trans' w',
       r = Ok (b', trans', w') ∧
       _expiryTime b' = GetNextResetTime env entries ∧
       _extended b' = false ∧
       FindInstanceLock (permanent w') playerGuid entries = Some b').
Proof.
  intros Hloc Hexp. cbv zeta. unfold UpdateInstanceLockForPlayer. rewrite Hloc. cbn.
  pose proof (UpdateInstanceLockForPlayer_apply_keeps playerGuid entries updateEvent b w1)
    as (Ht & Hx & _ & _). cbv zeta in Ht, Hx.
  destruct (UpdateInstanceLockForPlayer_apply playerGuid entries updateEvent b w1)
    as [b1 w2] eqn:Happ. cbn in Ht, Hx.
  unfold UpdateInstanceLockForPlayer_reactivate.
  assert (IsExpired env b1 = true) as ->
    by (unfold IsExpired in *; rewrite Ht; exact Hexp).
  rewrite Hx.
  destruct (_extended b) eqn:Hext; cbn.
  - split; [discriminate|]. split; [reflexivity|]. intros _.
    eexists _, _, _. split; [reflexivity|]. split; [reflexivity|]. split; [reflexivity|].
    rewrite FindInstanceLock_slot_lookup. unfold permanent at 1. cbn.
    apply slot_lookup_insert_eq.
  - split; [reflexivity|]. split; [discriminate|]. discriminate.
Qed.

(** An extended lock of the daily dungeon that expired at time 0 comes
    back with Tuesday 09:00 and without its extension. *)
Lemma UpdateInstanceLockForPlayer_expired_witness :
  ∃ b' trans' w',
    UpdateInstanceLockForPlayer Sample.env [] 1 Sample.dungeon Sample.kill3
      (Sample.holding 1 Sample.dungeon
         (Sample.lock_with 42 0 true 0 None Sample.dungeon) Sample.start)
    = Ok (b', trans', w') ∧
    _expiryTime b' = GetNextResetTime Sample.env Sample.dungeon ∧
    _extended b' = false ∧
    CompletedEncountersMask (_data b') = 8.
Proof.
  edestruct (UpdateInstanceLockForPlayer_expired Sample.env [] 1 Sample.dungeon Sample.kill3
               (Sample.holding 1 Sample.dungeon
                  (Sample.lock_with 42 0 true 0 None Sample.dungeon) Sample.start))
    as (_ & _ & H).
  - vm_compute. reflexivity.
  - vm_compute. reflexivity.
  - destruct (H eq_refl) as (b' & trans' & w' & Hr & Ht & Hx & _).
    exists b', trans', w'. split; [exact Hr|]. split; [exact Ht|]. split; [exact Hx|].
    vm_compute in Hr. injection Hr as <- _ _. reflexivity.
Defined.

(** ** Creation for a new instance *)

Lemma SharedInstanceLockData_dtor_heap (d : SharedInstanceLockData) (w : World) :
  heap (SharedInstanceLockData_dtor d w) = heap w.
Proof.
  unfold SharedInstanceLockData_dtor, OnSharedInstanceLockDataDelete.
  destruct (_ =? 0); [reflexivity|]. destruct (unloading w); reflexivity.
Qed.

Lemma shared_ptr_release_heap_ne (q p : nat) (w : World) :
  q ≠ p → heap (shared_ptr_release q w) !! p = heap w !! p.
Proof.
  intros Hne. unfold shared_ptr_release.
  destruct (heap w !! q) as [cb|]; [|reflexivity].
  destruct (use_count cb) as [|[|n]]; [reflexivity| |].
  - rewrite SharedInstanceLockData_dtor_heap. cbn. by apply list_lookup_insert_ne.
  - cbn. by apply list_lookup_insert_ne.
Qed.

Lemma shared_ptr_release_registry (q : nat) (w : World) :
  registry (shared_ptr_release q w) = registry w ∨
  (∃ cb, heap w !! q = Some cb ∧ use_count cb = 1%nat ∧ InstanceId (object cb) ≠ 0 ∧
         unloading w = false ∧
         registry (shared_ptr_release q w) = delete (InstanceId (object cb)) (registry w)).
Proof.
  unfold shared_ptr_release.
  destruct (heap w !! q) as [cb|] eqn:Hq; [|by left].
  destruct (use_count cb) as [|[|n]] eqn:Hc; [by left| |by left].
  unfold SharedInstanceLockData_dtor.
  destruct (Z.eqb_spec (InstanceId (object cb)) 0) as [E|E]; [by left|].
  unfold OnSharedInstanceLockDataDelete.
  replace (unloading (set_heap _ w)) with (unloading w) by reflexivity.
  destruct (unloading w) eqn:Hu; [by left|].
  right. exists cb. repeat split; assumption.
Qed.

Lemma temporary_reset_stores (playerGuid : Z) (key : InstanceLockKey) (lock : InstanceLock)
    (w : World) :
  temporary (temporary_reset playerGuid key lock w)
    = slot_insert playerGuid key lock (temporary w) ∧
  permanent (temporary_reset playerGuid key lock w) = permanent w.
Proof.
  unfold temporary_reset.
  destruct (destroy_old_stores (slot_lookup playerGuid key (temporary w))
              (set_temporary (slot_insert playerGuid key lock (temporary w)) w))
    as (Ht & Hp & _ & _).
  rewrite Ht, Hp. split; reflexivity.
Qed.

Lemma permanent_reset_stores (playerGuid : Z) (key : InstanceLockKey) (lock : InstanceLock)
    (w : World) :
  permanent (permanent_reset playerGuid key lock w)
    = slot_insert playerGuid key lock (permanent w) ∧
  temporary (permanent_reset playerGuid key lock w) = temporary w.
Proof.
  unfold permanent_reset.
  destruct (destroy_old_stores (slot_lookup playerGuid key (permanent w))
              (set_permanent (slot_insert playerGuid key lock (permanent w)) w))
    as (Ht & Hp & _ & _).
  rewrite Ht, Hp. split; reflexivity.
Qed.

(** C8. [CreateInstanceLockForNewInstance] returns no lock and leaves
    everything as it was when the difficulty has no reset schedule.
    Otherwise it returns a lock with instance id 0, the next reset time
    as expiry time, no extension, empty data and a zero encounter mask,
    and the temporary store holds it under the player's (map, lock id)
    key in place of whatever temporary lock was there; the other slots
    and the permanent store are as before. For an instance-bound
    dungeon the lock owns a record that did not exist before, with one
    owner, no data and [InstanceId] 0, and the registry holds a handle
    to it under the instance id passed. This is so in every state where
    the records of the temporary locks have [InstanceId] 0, which are all
    the states the manager's operations lead to; in general the handle is
    there unless the temporary lock that was replaced was the last owner
    of a record of that very id, whose deletion hook then erased the
    entry. *)
Theorem CreateInstanceLockForNewInstance_temporary (env : Env) (playerGuid : Z)
    (entries : MapDb2Entries) (instanceId : Z) (w : World) :
  let r := CreateInstanceLockForNewInstance env playerGuid entries instanceId w in
  (HasResetSchedule (MapDifficulty entries) = false → r = (None, w)) ∧
  (HasResetSchedule (MapDifficulty entries) = true →
     ∃ lock w',
       r = (Some lock, w') ∧
       _instanceId lock = 0 ∧
       _expiryTime lock = GetNextResetTime env entries ∧
       _extended lock = false ∧
       Data (_data lock) = "" ∧
       CompletedEncountersMask (_data lock) = 0 ∧
       _mapId lock = MapID (MapDifficulty entries) ∧
       _difficultyId lock = DifficultyID (MapDifficulty entries) ∧
       temporary w' = slot_insert playerGuid (GetKey entries) lock (temporary w) ∧
       FindInstanceLock (temporary w') playerGuid entries = Some lock ∧
       permanent w' = permanent w ∧
       (IsInstanceIdBound entries = false → _sharedData lock = None) ∧
       (IsInstanceIdBound entries = true →
          ∃ p, _sharedData lock = Some p ∧
               heap w !! p = None ∧
               ((∀ old q, FindInstanceLock (temporary w) playerGuid entries = Some old →
                          _sharedData old = Some q → is_Some (heap w !! q)) →
                  heap w' !! p
                    = Some {| use_count := 1; object := SharedInstanceLockData_default |} ∧
                  (registry w' !! instanceId = Some p ∨
                   (∃ old q cb,
                      FindInstanceLock (temporary w) playerGuid entries = Some old ∧
                      _sharedData old = Some q ∧ heap w !! q = Some cb ∧
                      use_count cb = 1%nat ∧ InstanceId (object cb) = instanceId ∧
                      instanceId ≠ 0 ∧ registry w' !! instanceId = None))) ∧
               (temporary_records_unassigned w →
                  heap w' !! p
                    = Some {| use_count := 1; object := SharedInstanceLockData_default |} ∧
                  registry w' !! instanceId = Some p))).
Proof.
  cbv zeta. unfold CreateInstanceLockForNewInstance.
  split; [intros ->; reflexivity|]. intros ->. cbn [negb].
  destruct (IsInstanceIdBound entries) eqn:Hb.
  - unfold make_shared. cbv beta iota zeta.
    eexists _, _. split; [reflexivity|].
    set (p := length (heap w)).
    set (lock := SharedInstanceLock_ctor _ _ _ 0 p).
    set (wm := set_registry _ (set_heap _ w)).
    change (temporary (TC_LOG ?l ?x)) with (temporary x).
    change (permanent (TC_LOG ?l ?x)) with (permanent x).
    change (heap (TC_LOG ?l ?x)) with (heap x).
    change (registry (TC_LOG ?l ?x)) with (registry x).
    destruct (temporary_reset_stores playerGuid (GetKey entries) lock wm) as [-> ->].
    change (temporary wm) with (temporary w). change (permanent wm) with (permanent w).
    do 7 (split; [reflexivity|]).
    split; [reflexivity|].
    split; [rewrite FindInstanceLock_slot_lookup; apply slot_lookup_insert_eq|].
    split; [reflexivity|]. split; [discriminate|].
    intros _. exists p. split; [reflexivity|].
    split; [apply lookup_ge_None; unfold p; lia|].
    match goal with |- ?A ∧ _ => assert A as Hgen end; cycle 1.
    { split; [exact Hgen|]. intros Hinv.
      destruct Hgen as [Hcell Hreg].
      - intros old q Hold Hq. rewrite FindInstanceLock_slot_lookup in Hold.
        destruct (Hinv _ _ _ _ Hold Hq) as (cb & Hcb & _). by exists cb.
      - split; [exact Hcell|].
        destruct Hreg as [Hreg | (old & q & cb & Hold & Hq & Hcb & _ & E & Hne & _)];
          [exact Hreg|].
        rewrite FindInstanceLock_slot_lookup in Hold.
        destruct (Hinv _ _ _ _ Hold Hq) as (cb' & Hcb' & E'). congruence. }
    intros Hvalid.
    assert (heap wm !! p = Some {| use_count := 1; object := SharedInstanceLockData_default |})
      as Hnew.
    { unfold wm. cbn. unfold p. rewrite lookup_app_r by lia.
      rewrite Nat.sub_diag. reflexivity. }
    assert (registry wm !! instanceId = Some p) as Hreg
      by (unfold wm, registry; cbn; apply lookup_insert_eq).
    unfold temporary_reset. change (temporary wm) with (temporary w).
    rewrite FindInstanceLock_slot_lookup in Hvalid.
    destruct (slot_lookup playerGuid (GetKey entries) (temporary w)) as [old|] eqn:Hold;
      [|cbn; split; [exact Hnew | left; exact Hreg]].
    cbn [destroy_old]. unfold InstanceLock_dtor.
    destruct (_sharedData old) as [q|] eqn:Hq;
      [|cbn; split; [exact Hnew | left; exact Hreg]].
    destruct (Hvalid old q) as [cb Hcb]; [reflexivity | exact Hq |].
    assert (q ≠ p) as Hne.
    { apply lookup_lt_Some in Hcb. unfold p. lia. }
    set (wt := set_temporary _ wm).
    split.
    + rewrite shared_ptr_release_heap_ne by exact Hne. exact Hnew.
    + destruct (shared_ptr_release_registry q wt) as [-> | (cb' & Hcb' & Hc & Hid & Hu & ->)].
      * left. exact Hreg.
      * assert (cb' = cb) as ->.
        { unfold wt, wm in Hcb'. cbn in Hcb'.
          rewrite lookup_app_l in Hcb' by (by eapply lookup_lt_Some). congruence. }
        destruct (decide (InstanceId (object cb) = instanceId)) as [E|E].
        -- right. exists old, q, cb. rewrite FindInstanceLock_slot_lookup.
           repeat split; try assumption; [congruence|].
           change (registry wt) with (registry wm). rewrite E. apply lookup_delete_eq.
        -- left. change (registry wt) with (registry wm).
           rewrite lookup_delete_ne by exact E. exact Hreg.
  - eexists _, _. split; [reflexivity|].
    set (lock := InstanceLock_ctor _ _ _ 0).
    change (temporary (TC_LOG ?l ?x)) with (temporary x).
    change (permanent (TC_LOG ?l ?x)) with (permanent x).
    destruct (temporary_reset_stores playerGuid (GetKey entries) lock w) as [-> ->].
    do 7 (split; [reflexivity|]).
    split; [reflexivity|].
    split; [rewrite FindInstanceLock_slot_lookup; apply slot_lookup_insert_eq|].
    split; [reflexivity|]. split; [reflexivity|]. discriminate.
Qed.

(** Scenario: player 1 enters instance 42 of the instance-bound raid on
    Monday at noon. *)
Lemma CreateInstanceLockForNewInstance_temporary_witness :
  ∃ lock w',
    CreateInstanceLockForNewInstance Sample.env 1 Sample.raid 42 Sample.start
      = (Some lock, w') ∧
    _instanceId lock = 0 ∧ _expiryTime lock = Sample.tuesday_9 ∧
    slot_lookup 1 (100, 7) (temporary w') = Some lock ∧
    ∃ p, _sharedData lock = Some p ∧ registry w' !! 42 = Some p.
Proof.
  destruct (CreateInstanceLockForNewInstance_temporary Sample.env 1 Sample.raid 42
              Sample.start) as [_ H].
  destruct (H eq_refl)
    as (lock & w' & Hr & Hi & Ht & _ & _ & _ & _ & _ & _ & Hf & _ & _ & Hs).
  exists lock, w'. split; [exact Hr|]. split; [exact Hi|]. split; [exact Ht|].
  split; [exact Hf|].
  destruct (Hs eq_refl) as (p & Hp & _ & _ & Hinv).
  exists p. split; [exact Hp|]. apply Hinv.
  intros g k l q Hl. vm_compute in Hl. discriminate Hl.
Defined.

(** ** Load *)

Lemma shared_ptr_release_keeps (q p : nat) (cb : ControlBlock) (w : World) :
  heap w !! p = Some cb → (2 ≤ use_count cb)%nat →
  ∃ cb', heap (shared_ptr_release q w) !! p = Some cb' ∧
         object cb' = object cb ∧ (1 ≤ use_count cb')%nat.
Proof.
  intros Hp Hc. destruct (decide (q = p)) as [->|Hne].
  - unfold shared_ptr_release. rewrite Hp.
    destruct (use_count cb) as [|[|n]] eqn:E; [lia | lia |].
    cbn. rewrite list_lookup_insert_eq by (by eapply lookup_lt_Some).
    eexists. split; [reflexivity|]. cbn. split; [reflexivity | lia].
  - rewrite shared_ptr_release_heap_ne by exact Hne.
    exists cb. split; [exact Hp|]. split; [reflexivity | lia].
Qed.

(** One turn of the second loop of [Load], whatever the slot of the row
    holds, on a row whose map and difficulty are instance-bound. If the
    index of loaded shared records has no record for the row's instance
    id, the turn logs the error,
    executes the DELETE on character_instance_lock for that instance id
    and changes neither the manager, so no lock is made, nor the shared
    records. If the index has a record, the turn puts into the permanent
    store, under the row's player and (map, lock id) key, a lock made
    from the row that owns this record: the record is alive, unchanged,
    and has one owner more when the slot was free. In both cases the
    loop goes on with the remaining rows. *)
Lemma Load_lock_row_instance_bound (env : Env) (instanceLockDataById : gmap Z nat)
    (row : LockRow) (rows : list LockRow) (w : World) (entries : MapDb2Entries) :
  MapDb2Entries_ctor env (lr_mapId row) (lr_difficulty row) = Ok entries →
  IsInstanceIdBound entries = true →
  (instanceLockDataById !! lr_instanceId row = None →
     ∃ w', Load_lock_row env instanceLockDataById row w = Ok w' ∧
           Log w' = Log w ++ [ERROR_missing_instance_data (lr_instanceId row)] ∧
           CharacterDatabase w'
             = CharacterDatabase w
               ++ [DELETE_character_instance_lock_instanceId (lr_instanceId row)] ∧
           sInstanceLockMgr w' = sInstanceLockMgr w ∧
           heap w' = heap w ∧
           Load_lock_rows env instanceLockDataById (row :: rows) w
             = Load_lock_rows env instanceLockDataById rows w') ∧
  (∀ p cb,
     instanceLockDataById !! lr_instanceId row = Some p →
     heap w !! p = Some cb → (1 ≤ use_count cb)%nat →
     ∃ w' lock,
       Load_lock_row env instanceLockDataById row w = Ok w' ∧
       slot_lookup (lr_guid row) (lr_mapId row, lr_lockId row) (permanent w') = Some lock ∧
       _sharedData lock = Some p ∧
       _instanceId lock = lr_instanceId row ∧
       _mapId lock = lr_mapId row ∧
       _difficultyId lock = lr_difficulty row ∧
       _expiryTime lock = lr_expiryTime row ∧
       _extended lock = lr_extended row ∧
       Data (_data lock) = lr_data row ∧
       CompletedEncountersMask (_data lock) = lr_completedEncountersMask row ∧
       (∃ cb', heap w' !! p = Some cb' ∧ object cb' = object cb ∧
               (1 ≤ use_count cb')%nat ∧
               (slot_lookup (lr_guid row) (lr_mapId row, lr_lockId row) (permanent w) = None →
                  use_count cb' = S (use_count cb) ∧
                  registry w' = <[lr_instanceId row := p]> (registry w))) ∧
       Load_lock_rows env instanceLockDataById (row :: rows) w
         = Load_lock_rows env instanceLockDataById rows w').
Proof.
  intros He Hb. split.
  - intros Hidx. cbn [Load_lock_rows]. unfold Load_lock_row. rewrite He. cbn.
    rewrite Hb, Hidx. eexists. split; [reflexivity|]. cbn. repeat split.
  - intros p cb Hidx Hp Hc. cbn [Load_lock_rows]. unfold Load_lock_row. rewrite He. cbn.
    rewrite Hb, Hidx. unfold shared_ptr_copy.
    change (heap (RegisterInstanceId ?i ?x)) with (heap x). rewrite Hp.
    set (lock := SetExtended _ _).
    set (wc := set_registry _ _).
    eexists _, lock. split; [reflexivity|].
    destruct (permanent_reset_stores (lr_guid row) (lr_mapId row, lr_lockId row) lock wc)
      as [Hperm _].
    split; [rewrite Hperm; apply slot_lookup_insert_eq|].
    do 8 (split; [reflexivity|]).
    split; [|reflexivity].
    assert (heap wc !! p = Some {| use_count := S (use_count cb); object := object cb |})
      as Hwc.
    { unfold wc. cbn. apply list_lookup_insert_eq. by eapply lookup_lt_Some. }
    unfold permanent_reset. change (permanent wc) with (permanent w).
    destruct (slot_lookup (lr_guid row) (lr_mapId row, lr_lockId row) (permanent w))
      as [old|] eqn:Hold.
    + cbn [destroy_old]. unfold InstanceLock_dtor.
      destruct (_sharedData old) as [q|].
      * destruct (shared_ptr_release_keeps q p _
                    (set_permanent
                       (slot_insert (lr_guid row) (lr_mapId row, lr_lockId row) lock
                          (permanent w)) wc) Hwc) as (cb' & H1 & H2 & H3);
          [cbn; lia|].
        exists cb'. split; [exact H1|]. split; [exact H2|]. split; [exact H3|]. discriminate.
      * eexists. split; [exact Hwc|]. cbn. split; [reflexivity|]. split; [lia|]. discriminate.
    + cbn [destroy_old]. eexists. split; [exact Hwc|]. cbn.
      split; [reflexivity|]. split; [lia|]. intros _. split; [reflexivity|].
      reflexivity.
Qed.

(** A row bound to instance 77 of the raid, which no shared record
    backs: the error is logged, the DELETE executed, no lock made. *)
Example Load_lock_row_orphan_turn :
  ∃ w', Load_lock_row Sample.env ∅ Sample.orphan_row Sample.start = Ok w' ∧
        Log w' = [ERROR_missing_instance_data 77] ∧
        CharacterDatabase w' = [DELETE_character_instance_lock_instanceId 77] ∧
        sInstanceLockMgr w' = InstanceLockMgr_ctor.
Proof.
  destruct (Load_lock_row_instance_bound Sample.env ∅ Sample.orphan_row [] Sample.start
              Sample.raid eq_refl eq_refl) as [H _].
  destruct (H eq_refl) as (w' & Hr & Hlog & Hdb & Hm & _).
  exists w'. split; [exact Hr|]. split; [exact Hlog|]. split; [exact Hdb | exact Hm].
Defined.

(** ** Temporary locks own unassigned records in every reachable state *)

Lemma evolves_refl (w : World) : evolves w w.
Proof. split; [auto | eauto]. Qed.

Lemma evolves_trans (w1 w2 w3 : World) : evolves w1 w2 → evolves w2 w3 → evolves w1 w3.
Proof.
  intros [Ht1 Hh1] [Ht2 Hh2]. split; [auto|].
  intros q cb Hq. destruct (Hh1 q cb Hq) as (cb1 & Hq1 & E1).
  destruct (Hh2 q cb1 Hq1) as (cb2 & Hq2 & E2). exists cb2. split; [exact Hq2 | congruence].
Qed.

(** A change that leaves the temporary store and the records alone. *)
Lemma evolves_same (w w' : World) :
  temporary w' = temporary w → heap w' = heap w → evolves w w'.
Proof. intros Ht Hh. split; [rewrite Ht; auto | rewrite Hh; eauto]. Qed.

Lemma evolves_set_heap_insert (q : nat) (cb new : ControlBlock) (w : World) :
  heap w !! q = Some cb → InstanceId (object new) = InstanceId (object cb) →
  evolves w (set_heap (<[q := new]> (heap w)) w).
Proof.
  intros Hq E. split; [auto|]. intros q' cb' Hq'. cbn.
  destruct (decide (q = q')) as [<-|Hne].
  - rewrite list_lookup_insert_eq by (by eapply lookup_lt_Some).
    exists new. split; [reflexivity | congruence].
  - rewrite list_lookup_insert_ne by exact Hne. eauto.
Qed.

Lemma evolves_make_shared (d : SharedInstanceLockData) (w : World) :
  evolves w (make_shared d w).2.
Proof.
  split; [auto|]. intros q cb Hq. cbn.
  rewrite lookup_app_l by (by eapply lookup_lt_Some). eauto.
Qed.

Lemma evolves_SharedInstanceLockData_dtor (d : SharedInstanceLockData) (w : World) :
  evolves w (SharedInstanceLockData_dtor d w).
Proof.
  apply evolves_same; [|apply SharedInstanceLockData_dtor_heap].
  unfold SharedInstanceLockData_dtor. destruct (_ =? 0); [reflexivity|].
  apply OnSharedInstanceLockDataDelete_stores.
Qed.

Lemma evolves_shared_ptr_release (p : nat) (w : World) : evolves w (shared_ptr_release p w).
Proof.
  unfold shared_ptr_release. destruct (heap w !! p) as [cb|] eqn:Hp; [|apply evolves_refl].
  destruct (use_count cb) as [|[|n]]; [apply evolves_refl| |].
  - eapply evolves_trans; [|apply evolves_SharedInstanceLockData_dtor].
    by eapply evolves_set_heap_insert.
  - by eapply evolves_set_heap_insert.
Qed.

Lemma evolves_shared_ptr_copy (p : nat) (w : World) : evolves w (shared_ptr_copy p w).
Proof.
  unfold shared_ptr_copy. destruct (heap w !! p) as [cb|] eqn:Hp; [|apply evolves_refl].
  by eapply evolves_set_heap_insert.
Qed.

Lemma evolves_destroy_old (old : option InstanceLock) (w : World) :
  evolves w (destroy_old old w).
Proof.
  destruct old as [o|]; [|apply evolves_refl]. cbn. unfold InstanceLock_dtor.
  destruct (_sharedData o); [apply evolves_shared_ptr_release | apply evolves_refl].
Qed.

Lemma evolves_destroy_locks (ls : list InstanceLock) (w : World) :
  evolves w (destroy_locks ls w).
Proof.
  revert w. induction ls as [|l ls IH]; intros w; [apply evolves_refl|].
  cbn. eapply evolves_trans; [|apply IH].
  apply (evolves_destroy_old (Some l)).
Qed.

Lemma evolves_permanent_reset (playerGuid : Z) (key : InstanceLockKey) (lock : InstanceLock)
    (w : World) :
  evolves w (permanent_reset playerGuid key lock w).
Proof.
  unfold permanent_reset. eapply evolves_trans; [|apply evolves_destroy_old].
  by apply evolves_same.
Qed.

Lemma evolves_releases (ps : list nat) (w : World) :
  evolves w (foldl (λ w p, shared_ptr_release p w) w ps).
Proof.
  revert w. induction ps as [|p ps IH]; intros w; [apply evolves_refl|].
  cbn. eapply evolves_trans; [apply evolves_shared_ptr_release | apply IH].
Qed.

Lemma temporary_records_unassigned_evolves (w w' : World) :
  evolves w w' → temporary_records_unassigned w → temporary_records_unassigned w'.
Proof.
  intros [Ht Hh] Hinv g k l q Hl Hq.
  destruct (Hinv g k l q (Ht _ _ _ Hl) Hq) as (cb & Hcb & E).
  destruct (Hh q cb Hcb) as (cb' & Hcb' & E'). exists cb'. split; [exact Hcb' | congruence].
Qed.

Lemma evolves_Unload (w : World) : evolves w (Unload w).
Proof.
  unfold Unload.
  eapply evolves_trans; [|by apply evolves_same].
  eapply evolves_trans; [|by apply evolves_same].
  eapply evolves_trans; [|apply evolves_destroy_locks].
  by apply evolves_same.
Qed.

Lemma evolves_UpdateInstanceLockExtensionForPlayer (env : Env) (playerGuid : Z)
    (entries : MapDb2Entries) (extended : bool) (w : World) :
  evolves w (UpdateInstanceLockExtensionForPlayer env playerGuid entries extended w).
Proof.
  unfold UpdateInstanceLockExtensionForPlayer.
  destruct (FindActiveInstanceLock _ _ _ _ _ _); [by apply evolves_same | apply evolves_refl].
Qed.

Lemma evolves_UpdateSharedInstanceLock (env : Env) (trans : list Statement)
    (updateEvent : InstanceLockUpdateEvent) (w : World) (res : list Statement * World) :
  UpdateSharedInstanceLock env trans updateEvent w = Ok res → evolves w res.2.
Proof.
  unfold UpdateSharedInstanceLock.
  destruct (registry w !! _) as [p|]; [|discriminate].
  destruct (weak_get p w); [|discriminate].
  destruct (heap w !! p) as [cb|] eqn:Hp; [|discriminate].
  destruct (InstanceId (object cb) =? _); [|discriminate]. cbn.
  destruct (CompletedEncounter updateEvent) as [enc|]; intros [= <-]; cbn.
  - eapply (evolves_trans _ (TC_LOG _ w)); [by apply evolves_same|].
    by apply (evolves_set_heap_insert p cb _ (TC_LOG _ w)).
  - by eapply (evolves_set_heap_insert p cb).
Qed.

Lemma slot_lookup_delete (g : Z) (key : InstanceLockKey)
    (locks : gmap Z (gmap InstanceLockKey InstanceLock))
    (playerLocks : gmap InstanceLockKey InstanceLock) (g' : Z) (key' : InstanceLockKey)
    (l : InstanceLock) :
  locks !! g = Some playerLocks →
  slot_lookup g' key'
    (if decide (delete key playerLocks = ∅) then delete g locks
     else <[g := delete key playerLocks]> locks) = Some l →
  slot_lookup g' key' locks = Some l.
Proof.
  intros Hg. unfold slot_lookup. destruct (decide (g = g')) as [<-|Hne].
  - rewrite Hg. case_decide.
    + rewrite lookup_delete_eq. discriminate.
    + rewrite lookup_insert_eq. intros Hl.
      destruct (decide (key = key')) as [<-|Hk].
      * rewrite lookup_delete_eq in Hl. discriminate.
      * rewrite lookup_delete_ne in Hl by exact Hk. exact Hl.
  - case_decide.
    + rewrite lookup_delete_ne by exact Hne. auto.
    + rewrite lookup_insert_ne by exact Hne. auto.
Qed.

Lemma evolves_promote_temporary (playerGuid : Z) (entries : MapDb2Entries)
    (updateEvent : InstanceLockUpdateEvent) (w : World) :
  evolves w (promote_temporary playerGuid entries updateEvent w).2.
Proof.
  unfold promote_temporary.
  destruct (temporary w !! playerGuid) as [playerLocks|] eqn:Hg; [|apply evolves_refl].
  destruct (playerLocks !! GetKey entries) as [l|]; [|apply evolves_refl].
  cbn [snd].
  set (w1 := permanent_reset playerGuid (GetKey entries) l w).
  assert (temporary w1 = temporary w) as Ht
    by apply (permanent_reset_stores playerGuid (GetKey entries) l w).
  eapply evolves_trans; [apply (evolves_permanent_reset playerGuid (GetKey entries) l w)|].
  fold w1. rewrite Ht.
  split; [|case_decide; cbn; eauto].
  intros g k l' Hl. rewrite Ht.
  eapply (slot_lookup_delete playerGuid (GetKey entries)); [exact Hg|].
  revert Hl. case_decide; intros Hl; exact Hl.
Qed.

Lemma evolves_UpdateInstanceLockForPlayer_locate (env : Env) (playerGuid : Z)
    (entries : MapDb2Entries) (updateEvent : InstanceLockUpdateEvent) (w : World)
    (res : InstanceLock * World) :
  UpdateInstanceLockForPlayer_locate env playerGuid entries updateEvent w = Ok res →
  evolves w res.2.
Proof.
  unfold UpdateInstanceLockForPlayer_locate.
  assert (evolves w
            (match FindActiveInstanceLock env w playerGuid entries true true with
             | Some l => (Some l, w)
             | None => promote_temporary playerGuid entries updateEvent w
             end).2) as Hev.
  { destruct (FindActiveInstanceLock _ _ _ _ _ _);
      [apply evolves_refl | apply evolves_promote_temporary]. }
  destruct (match FindActiveInstanceLock env w playerGuid entries true true with
            | Some l => (Some l, w)
            | None => promote_temporary playerGuid entries updateEvent w
            end) as [found w1]. cbn [snd] in Hev.
  destruct found as [l|].
  - destruct (IsInstanceIdBound entries).
    + destruct (_ || _); [|discriminate]. cbn.
      destruct (registry w1 !! _); [|discriminate].
      destruct (_sharedData l); [|discriminate].
      destruct (bool_decide _); [|discriminate]. cbn. intros [= <-]. exact Hev.
    + cbn. intros [= <-]. exact Hev.
  - destruct (IsInstanceIdBound entries).
    + destruct (registry w1 !! _) as [p|]; [|discriminate].
      destruct (negb (expired p w1)); [|discriminate]. cbn.
      destruct (match deref p (shared_ptr_copy p w1) with
                | Some d => _ | None => false end); [|discriminate].
      cbn. intros [= <-]. cbn [snd].
      eapply evolves_trans; [exact Hev|].
      eapply evolves_trans; [apply evolves_shared_ptr_copy|].
      eapply evolves_trans; [apply evolves_permanent_reset|].
      by apply evolves_same.
    + cbn. intros [= <-]. cbn [snd].
      eapply evolves_trans; [exact Hev|].
      eapply evolves_trans; [apply evolves_permanent_reset|].
      by apply evolves_same.
Qed.

Lemma evolves_UpdateInstanceLockForPlayer (env : Env) (trans : list Statement)
    (playerGuid : Z) (entries : MapDb2Entries) (updateEvent : InstanceLockUpdateEvent)
    (w : World) (res : InstanceLock * list Statement * World) :
  UpdateInstanceLockForPlayer env trans playerGuid entries updateEvent w = Ok res →
  evolves w res.2.
Proof.
  unfold UpdateInstanceLockForPlayer.
  destruct (UpdateInstanceLockForPlayer_locate env playerGuid entries updateEvent w)
    as [[b w1]|] eqn:Hloc; [|discriminate].
  apply evolves_UpdateInstanceLockForPlayer_locate in Hloc. cbn [snd] in Hloc. cbn.
  assert (evolves w1 (UpdateInstanceLockForPlayer_apply playerGuid entries updateEvent b w1).2)
    as Happ.
  { unfold UpdateInstanceLockForPlayer_apply.
    destruct (CompletedEncounter updateEvent); cbn; [by apply evolves_same | apply evolves_refl]. }
  destruct (UpdateInstanceLockForPlayer_apply playerGuid entries updateEvent b w1) as [b1 w2].
  cbn [snd] in Happ.
  unfold UpdateInstanceLockForPlayer_reactivate.
  destruct (IsExpired env b1).
  - destruct (_extended b1); [|discriminate]. cbn. intros [= <-]. cbn [snd].
    eapply evolves_trans; [exact Hloc|]. eapply evolves_trans; [exact Happ|].
    by apply evolves_same.
  - cbn. intros [= <-]. cbn [snd].
    eapply evolves_trans; [exact Hloc|]. eapply evolves_trans; [exact Happ|].
    by apply evolves_same.
Qed.

Lemma evolves_Load_instance_rows (rows : list InstanceRow) (st : gmap Z nat * World) :
  evolves st.2 (foldl (λ st row, Load_instance_row row st) st rows).2.
Proof.
  revert st. induction rows as [|row rows IH]; intros st; [apply evolves_refl|].
  cbn [foldl]. eapply evolves_trans; [|apply IH].
  destruct st as [idx w]. unfold Load_instance_row. cbn [snd].
  destruct (idx !! ir_instanceId row); cbn [snd].
  - eapply evolves_trans; [|apply evolves_shared_ptr_release].
    apply (evolves_make_shared _ w).
  - apply (evolves_make_shared _ w).
Qed.

Lemma evolves_Load_lock_row (env : Env) (idx : gmap Z nat) (row : LockRow) (w w' : World) :
  Load_lock_row env idx row w = Ok w' → evolves w w'.
Proof.
  unfold Load_lock_row.
  destruct (MapDb2Entries_ctor _ _ _) as [entries|]; [|discriminate]. cbn.
  destruct (IsInstanceIdBound entries).
  - destruct (idx !! lr_instanceId row) as [p|].
    + intros [= <-].
      eapply evolves_trans; [|apply evolves_permanent_reset].
      eapply evolves_trans; [|by apply evolves_same].
      eapply evolves_trans; [|apply evolves_shared_ptr_copy].
      by apply evolves_same.
    + intros [= <-]. by apply evolves_same.
  - intros [= <-].
    eapply evolves_trans; [|apply evolves_permanent_reset].
    by apply evolves_same.
Qed.

Lemma evolves_Load_lock_rows (env : Env) (idx : gmap Z nat) (rows : list LockRow)
    (w w' : World) :
  Load_lock_rows env idx rows w = Ok w' → evolves w w'.
Proof.
  revert w. induction rows as [|row rows IH]; intros w.
  - intros [= <-]. apply evolves_refl.
  - cbn [Load_lock_rows].
    destruct (Load_lock_row env idx row w) as [w1|] eqn:Hrow; [|discriminate]. cbn.
    intros H. eapply evolves_trans; [by eapply evolves_Load_lock_row | by apply IH].
Qed.

Lemma evolves_Load (env : Env) (instanceRows : list InstanceRow) (lockRows : list LockRow)
    (w w' : World) :
  Load env instanceRows lockRows w = Ok w' → evolves w w'.
Proof.
  unfold Load.
  pose proof (evolves_Load_instance_rows instanceRows (∅, w)) as H1. cbn [snd] in H1.
  destruct (foldl _ (∅, w) instanceRows) as [idx w1]. cbn [snd] in H1.
  destruct (Load_lock_rows env idx lockRows w1) as [w2|] eqn:H2; [|discriminate].
  cbn. intros [= <-].
  eapply evolves_trans; [exact H1|].
  eapply evolves_trans; [by eapply evolves_Load_lock_rows | apply evolves_releases].
Qed.

Lemma temporary_records_unassigned_insert (playerGuid : Z) (key : InstanceLockKey)
    (lock : InstanceLock) (w w' : World) :
  temporary w' = slot_insert playerGuid key lock (temporary w) →
  (∀ q cb, heap w !! q = Some cb →
           ∃ cb', heap w' !! q = Some cb' ∧
                  InstanceId (object cb') = InstanceId (object cb)) →
  (∀ q, _sharedData lock = Some q →
        ∃ cb, heap w' !! q = Some cb ∧ InstanceId (object cb) = 0) →
  temporary_records_unassigned w → temporary_records_unassigned w'.
Proof.
  intros Ht Hh Hnew Hinv g k l q Hl Hq. rewrite Ht in Hl.
  destruct (decide ((g, k) = (playerGuid, key))) as [[= -> ->]|Hne].
  - rewrite slot_lookup_insert_eq in Hl. injection Hl as <-. by apply Hnew.
  - rewrite slot_lookup_insert_ne in Hl by exact Hne.
    destruct (Hinv g k l q Hl Hq) as (cb & Hcb & E).
    destruct (Hh q cb Hcb) as (cb' & Hcb' & E'). exists cb'. split; [exact Hcb' | congruence].
Qed.

Lemma temporary_records_unassigned_Create (env : Env) (playerGuid : Z)
    (entries : MapDb2Entries) (instanceId : Z) (w : World) :
  temporary_records_unassigned w →
  temporary_records_unassigned
    (CreateInstanceLockForNewInstance env playerGuid entries instanceId w).2.
Proof.
  intros Hinv. unfold CreateInstanceLockForNewInstance.
  destruct (HasResetSchedule _); [|exact Hinv]. cbn [negb].
  destruct (IsInstanceIdBound entries).
  - unfold make_shared. cbv beta iota zeta. cbn [snd].
    set (p := length (heap w)).
    set (lock := SharedInstanceLock_ctor _ _ _ 0 p).
    set (wm := set_registry _ (set_heap _ w)).
    set (wt := set_temporary (slot_insert playerGuid (GetKey entries) lock (temporary wm)) wm).
    assert (evolves wt (temporary_reset playerGuid (GetKey entries) lock wm)) as [_ Hh]
      by apply evolves_destroy_old.
    eapply (temporary_records_unassigned_insert playerGuid (GetKey entries) lock w);
      [| | |exact Hinv].
    + apply (temporary_reset_stores playerGuid (GetKey entries) lock wm).
    + intros q cb Hq. apply (Hh q cb). unfold wt, wm. cbn.
      rewrite lookup_app_l by (by eapply lookup_lt_Some). exact Hq.
    + intros q [= <-].
      destruct (Hh p {| use_count := 1; object := SharedInstanceLockData_default |})
        as (cb' & Hcb' & E).
      * unfold wt, wm. cbn. unfold p. rewrite lookup_app_r by lia.
        rewrite Nat.sub_diag. reflexivity.
      * exists cb'. split; [exact Hcb' | exact E].
  - cbn [snd].
    set (lock := InstanceLock_ctor _ _ _ 0).
    set (wt := set_temporary (slot_insert playerGuid (GetKey entries) lock (temporary w)) w).
    assert (evolves wt (temporary_reset playerGuid (GetKey entries) lock w)) as [_ Hh]
      by apply evolves_destroy_old.
    eapply (temporary_records_unassigned_insert playerGuid (GetKey entries) lock w);
      [| | |exact Hinv].
    + apply (temporary_reset_stores playerGuid (GetKey entries) lock w).
    + intros q cb Hq. by apply (Hh q cb).
    + intros q. discriminate.
Qed.

Lemma step_temporary_records_unassigned (w w' : World) :
  step w w' → temporary_records_unassigned w → temporary_records_unassigned w'.
Proof.
  intros Hstep. destruct Hstep.
  - apply temporary_records_unassigned_evolves. by eapply evolves_Load.
  - apply temporary_records_unassigned_evolves. apply evolves_Unload.
  - apply temporary_records_unassigned_Create.
  - apply temporary_records_unassigned_evolves.
    by eapply evolves_UpdateInstanceLockForPlayer.
  - apply temporary_records_unassigned_evolves.
    by eapply evolves_UpdateSharedInstanceLock.
  - apply temporary_records_unassigned_evolves.
    apply evolves_UpdateInstanceLockExtensionForPlayer.
Qed.

(** In every state the manager's operations lead to from start-up, the
    shared record of every temporary lock has [InstanceId] 0. *)
Lemma reachable_temporary_records_unassigned (w : World) :
  reachable w → temporary_records_unassigned w.
Proof.
  unfold reachable. revert w.
  apply (rtc_ind_r temporary_records_unassigned initial).
  - intros g k l q Hl. vm_compute in Hl. discriminate Hl.
  - intros w2 w3 _ Hstep IH. by eapply step_temporary_records_unassigned.
Qed.

(** ** The whole second loop of Load *)

Lemma grows_refl (w : World) : grows w w.
Proof. split; reflexivity. Qed.

Lemma grows_trans (w1 w2 w3 : World) : grows w1 w2 → grows w2 w3 → grows w1 w3.
Proof. intros [? ?] [? ?]. split; etrans; eassumption. Qed.

Lemma grows_same (w w' : World) :
  Log w' = Log w → CharacterDatabase w' = CharacterDatabase w → grows w w'.
Proof. intros H1 H2. split; [rewrite H1 | rewrite H2]; reflexivity. Qed.

Lemma grows_shared_ptr_release (p : nat) (w : World) : grows w (shared_ptr_release p w).
Proof.
  unfold shared_ptr_release. destruct (heap w !! p) as [cb|]; [|apply grows_refl].
  destruct (use_count cb) as [|[|n]]; [apply grows_refl | | by apply grows_same].
  unfold SharedInstanceLockData_dtor. destruct (_ =? 0); [by apply grows_same|].
  unfold OnSharedInstanceLockDataDelete.
  match goal with |- context [if ?b then _ else _] => destruct b end;
    [by apply grows_same|].
  split; cbn; by apply prefix_app_r.
Qed.

Lemma grows_permanent_reset (playerGuid : Z) (key : InstanceLockKey) (lock : InstanceLock)
    (w : World) :
  grows w (permanent_reset playerGuid key lock w).
Proof.
  unfold permanent_reset.
  destruct (slot_lookup playerGuid key (permanent w)) as [old|]; [|by apply grows_same].
  cbn. unfold InstanceLock_dtor. destruct (_sharedData old); [|by apply grows_same].
  eapply grows_trans; [|apply grows_shared_ptr_release]. by apply grows_same.
Qed.

Lemma grows_Load_lock_row (env : Env) (idx : gmap Z nat) (row : LockRow) (w w' : World) :
  Load_lock_row env idx row w = Ok w' → grows w w'.
Proof.
  unfold Load_lock_row.
  destruct (MapDb2Entries_ctor _ _ _) as [entries|]; [|discriminate]. cbn.
  destruct (IsInstanceIdBound entries).
  - destruct (idx !! lr_instanceId row) as [p|].
    + intros [= <-]. eapply grows_trans; [|apply grows_permanent_reset].
      unfold shared_ptr_copy. cbn. destruct (heap w !! p); by apply grows_same.
    + intros [= <-]. split; cbn; by apply prefix_app_r.
  - intros [= <-]. eapply grows_trans; [|apply grows_permanent_reset]. by apply grows_same.
Qed.

Lemma grows_Load_lock_rows (env : Env) (idx : gmap Z nat) (rows : list LockRow)
    (w w' : World) :
  Load_lock_rows env idx rows w = Ok w' → grows w w'.
Proof.
  revert w. induction rows as [|row rows IH]; intros w.
  - intros [= <-]. apply grows_refl.
  - cbn [Load_lock_rows].
    destruct (Load_lock_row env idx row w) as [w1|] eqn:Hrow; [|discriminate]. cbn.
    intros Hrest. eapply grows_trans; [by eapply grows_Load_lock_row | by apply IH].
Qed.

(** When the second loop of [Load] runs to its end, every row among its
    rows that is instance-bound and has no shared record in the index
    has its error in the log and its DELETE among the executed
    statements: an orphaned row does not stop the loop. *)
Lemma Load_lock_rows_orphans (env : Env) (idx : gmap Z nat) (rows : list LockRow)
    (w w' : World) (row : LockRow) (entries : MapDb2Entries) :
  Load_lock_rows env idx rows w = Ok w' →
  row ∈ rows →
  MapDb2Entries_ctor env (lr_mapId row) (lr_difficulty row) = Ok entries →
  IsInstanceIdBound entries = true →
  idx !! lr_instanceId row = None →
  ERROR_missing_instance_data (lr_instanceId row) ∈ Log w' ∧
  DELETE_character_instance_lock_instanceId (lr_instanceId row) ∈ CharacterDatabase w'.
Proof.
  intros Hload Hin He Hb Hidx. revert w Hload.
  induction rows as [|row' rows IH]; intros w; [by apply elem_of_nil in Hin|].
  cbn [Load_lock_rows]. apply elem_of_cons in Hin as [<-|Hin].
  - unfold Load_lock_row at 1. rewrite He. cbn. rewrite Hb, Hidx. cbn.
    intros Hrest. apply grows_Load_lock_rows in Hrest as [Hl Hd]. cbn in Hl, Hd.
    split; (eapply elem_of_prefix; [|eassumption]);
      apply elem_of_app; right; by apply list_elem_of_singleton.
  - destruct (Load_lock_row env idx row' w) as [w1|]; [|discriminate]. cbn.
    by apply IH.
Qed.

(** ** Scenarios *)

(** Fresh temporary lock, then promotion: player 1 enters instance 42 of
    the raid and the encounter of bit 3 is completed. The lock moves to
    the permanent store with instance id 42 and mask 8, the temporary
    store is empty, and the shared record is still alive. *)
Example scenario_promotion :
  ∃ b trans w',
    UpdateInstanceLockForPlayer Sample.env [] 1 Sample.raid Sample.kill3
      (CreateInstanceLockForNewInstance Sample.env 1 Sample.raid 42 Sample.start).2
    = Ok (b, trans, w') ∧
    _instanceId b = 42 ∧ CompletedEncountersMask (_data b) = 8 ∧
    _expiryTime b = Sample.tuesday_9 ∧
    slot_lookup 1 (100, 7) (permanent w') = Some b ∧
    temporary w' = ∅ ∧ expired 0 w' = false ∧
    trans = [ DELETE_character_instance_lock 1 100 7;
              INSERT_character_instance_lock 1 100 7 42 5 "a" 8 0 Sample.tuesday_9 0 ].
Proof.
  eexists _, _, _. split; [vm_compute; reflexivity|].
  repeat split.
Qed.

(** Flex admission: the player's mask 0b0110 fits the instance's 0b0111,
    and not the other way round. *)
Example scenario_flex :
  CanJoinInstanceLock Sample.env
    (Sample.holding 1 Sample.flex
       (Sample.lock_with 5 Sample.tuesday_9 false 6 None Sample.flex) Sample.start)
    1 Sample.flex (Sample.lock_with 6 Sample.tuesday_9 false 7 None Sample.flex)
  = TRANSFER_ABORT_NONE ∧
  CanJoinInstanceLock Sample.env
    (Sample.holding 1 Sample.flex
       (Sample.lock_with 5 Sample.tuesday_9 false 7 None Sample.flex) Sample.start)
    1 Sample.flex (Sample.lock_with 6 Sample.tuesday_9 false 6 None Sample.flex)
  = TRANSFER_ABORT_ALREADY_COMPLETED_ENCOUNTER.
Proof. split; reflexivity. Qed.

(** A temporary lock that expires before its first encounter is
    completed is promoted and then fails the assertion of the update. *)
Example scenario_expired_temporary :
  UpdateInstanceLockForPlayer Sample.env [] 1 Sample.dungeon Sample.kill3
    (Sample.holding_temporary 1 Sample.dungeon
       (Sample.lock_with 0 0 false 0 None Sample.dungeon) Sample.start)
  = Abort.
Proof. reflexivity. Qed.

(** Loading one orphaned row and nothing else. *)
Example scenario_orphan :
  ∃ w', Load Sample.env [] [Sample.orphan_row] Sample.start = Ok w' ∧
        Log w' = [ERROR_missing_instance_data 77] ∧
        CharacterDatabase w' = [DELETE_character_instance_lock_instanceId 77] ∧
        permanent w' = ∅ ∧ sMapMgr w' = [77].
Proof. eexists. split; [vm_compute; reflexivity|]. repeat split. Qed.

(** * Further properties *)

(** ** The next reset lies ahead, one period at most *)

(** X1. For a clock as [localtime] yields it and a reset hour in
    0..23, the local time that [GetNextResetTime] hands to [mktime] for
    a daily interval is strictly after now and at most 24 hours after
    it; for a weekly interval and a reset weekday in 0..6 it is strictly
    after now and at most seven days after it. *)
Theorem GetNextResetTime_within_period (env : Env) (entries : MapDb2Entries) :
  let now := GetDateAndTime env in
  let r := GetNextResetTime_dateTime env entries in
  tm_clock_valid now →
  0 ≤ resetHour_of env < 24 →
  (ResetInterval (MapDifficulty entries) = MAP_DIFFICULTY_RESET_DAILY →
     0 < tm_local_seconds r - tm_local_seconds now ≤ 86400) ∧
  (ResetInterval (MapDifficulty entries) = MAP_DIFFICULTY_RESET_WEEKLY →
   0 ≤ resetDay_of env ≤ 6 →
     0 < tm_local_seconds r - tm_local_seconds now ≤ 604800).
Proof.
  cbv zeta. intros (Hs & Hm & Hh & Hw) Hhour. split.
  - intros E. rewrite (GetNextResetTime_dateTime_daily _ _ E).
    destruct (Z.leb_spec (resetHour_of env) (tm_hour (GetDateAndTime env)));
      unfold tm_local_seconds, tm_at, set_tm_mday, set_tm_hour, set_tm_min, set_tm_sec;
      cbn; lia.
  - intros E Hday. rewrite (GetNextResetTime_dateTime_weekly _ _ E).
    destruct (Z.ltb_spec (resetDay_of env) (tm_wday (GetDateAndTime env)));
      destruct (Z.eqb_spec (tm_wday (GetDateAndTime env)) (resetDay_of env));
      destruct (Z.leb_spec (resetHour_of env) (tm_hour (GetDateAndTime env)));
      unfold tm_local_seconds, tm_at, set_tm_mday, set_tm_hour, set_tm_min, set_tm_sec;
      cbn; lia.
Qed.

(** On Monday at noon the weekly reset of Tuesday 09:00 is 21 hours on. *)
Lemma GetNextResetTime_within_period_witness :
  0 < tm_local_seconds (GetNextResetTime_dateTime Sample.env Sample.raid)
      - tm_local_seconds Sample.monday_noon ≤ 604800.
Proof.
  destruct (GetNextResetTime_within_period Sample.env Sample.raid) as [_ H].
  - unfold tm_clock_valid. vm_compute. intuition discriminate.
  - vm_compute. intuition discriminate.
  - apply H; [reflexivity|]. vm_compute. intuition discriminate.
Defined.

(** ** The locks of a player *)

(** X2. [GetInstanceLocksForPlayer] lists exactly the locks that the
    permanent store holds for the player under some key, expired ones
    included; a lock that is only in the temporary store is not listed,
    and a player without an entry gets the empty list. *)
Theorem GetInstanceLocksForPlayer_permanent (w : World) (playerGuid : Z) :
  (∀ l, l ∈ GetInstanceLocksForPlayer w playerGuid ↔
        ∃ key, slot_lookup playerGuid key (permanent w) = Some l) ∧
  (permanent w !! playerGuid = None → GetInstanceLocksForPlayer w playerGuid = []) ∧
  (∀ playerLocks, permanent w !! playerGuid = Some playerLocks →
     length (GetInstanceLocksForPlayer w playerGuid) = size playerLocks).
Proof.
  unfold GetInstanceLocksForPlayer, slot_lookup. split; [|split].
  - intros l. destruct (permanent w !! playerGuid) as [playerLocks|].
    + rewrite list_elem_of_fmap. split.
      * intros ([k l'] & -> & Hin). exists k. by apply elem_of_map_to_list.
      * intros (k & Hk). exists (k, l). split; [reflexivity|].
        by apply elem_of_map_to_list.
    + split; [intros H; by apply elem_of_nil in H | intros (k & Hk); discriminate].
  - intros ->. reflexivity.
  - intros playerLocks ->. rewrite length_fmap. apply length_map_to_list.
Qed.

(** A player holding one permanent lock, expired, has a list of one. *)
Lemma GetInstanceLocksForPlayer_permanent_witness :
  length (GetInstanceLocksForPlayer
            (Sample.holding 1 Sample.raid
               (Sample.lock_with 42 0 false 0 None Sample.raid) Sample.start) 1)
  = 1%nat.
Proof.
  destruct (GetInstanceLocksForPlayer_permanent
              (Sample.holding 1 Sample.raid
                 (Sample.lock_with 42 0 false 0 None Sample.raid) Sample.start) 1)
    as (_ & _ & H).
  rewrite (H {[ (100, 7) := Sample.lock_with 42 0 false 0 None Sample.raid ]});
    [reflexivity | vm_compute; reflexivity].
Defined.

(** ** What an update returns *)

Lemma promote_temporary_found (playerGuid : Z) (entries : MapDb2Entries)
    (updateEvent : InstanceLockUpdateEvent) (w : World) :
  (promote_temporary playerGuid entries updateEvent w).1
  = FindInstanceLock (temporary w) playerGuid entries.
Proof.
  unfold promote_temporary, FindInstanceLock.
  destruct (temporary w !! playerGuid) as [playerLocks|]; [|reflexivity].
  destruct (playerLocks !! GetKey entries); reflexivity.
Qed.

Lemma promote_temporary_none (playerGuid : Z) (entries : MapDb2Entries)
    (updateEvent : InstanceLockUpdateEvent) (w : World) :
  FindInstanceLock (temporary w) playerGuid entries = None →
  (promote_temporary playerGuid entries updateEvent w).2 = w.
Proof.
  unfold promote_temporary, FindInstanceLock.
  destruct (temporary w !! playerGuid) as [playerLocks|]; [|reflexivity].
  destruct (playerLocks !! GetKey entries); [discriminate | reflexivity].
Qed.

(** The lock the update starts from: the usable permanent lock, or else
    the temporary lock of the key. *)
Lemma UpdateInstanceLockForPlayer_locate_found (env : Env) (playerGuid : Z)
    (entries : MapDb2Entries) (updateEvent : InstanceLockUpdateEvent) (w : World)
    (b : InstanceLock) (w1 : World) (l : InstanceLock) :
  UpdateInstanceLockForPlayer_locate env playerGuid entries updateEvent w = Ok (b, w1) →
  UpdateInstanceLockForPlayer_prior env w playerGuid entries = Some l →
  b = SetInstanceId (ev_InstanceId updateEvent) l ∧
  w1 = match FindActiveInstanceLock env w playerGuid entries true true with
       | Some _ => w
       | None => (promote_temporary playerGuid entries updateEvent w).2
       end.
Proof.
  unfold UpdateInstanceLockForPlayer_locate, UpdateInstanceLockForPlayer_prior.
  destruct (FindActiveInstanceLock env w playerGuid entries true true) as [l0|].
  - intros H [= ->]. revert H.
    destruct (IsInstanceIdBound entries).
    + destruct (_ || _); [|discriminate]. cbn.
      destruct (registry w !! _); [|discriminate].
      destruct (_sharedData l); [|discriminate].
      destruct (bool_decide _); [|discriminate]. cbn. intros [= <- <-]. by split.
    + cbn. intros [= <- <-]. by split.
  - pose proof (promote_temporary_found playerGuid entries updateEvent w) as Hf.
    destruct (promote_temporary playerGuid entries updateEvent w) as [found w2].
    cbn [fst snd] in *. intros H Hl. rewrite Hl in Hf. subst found. revert H.
    cbv beta iota.
    destruct (IsInstanceIdBound entries).
    + destruct (_ || _); [|discriminate]. cbn.
      destruct (registry w2 !! _); [|discriminate].
      destruct (_sharedData l); [|discriminate].
      destruct (bool_decide _); [|discriminate]. cbn. intros [= <- <-]. by split.
    + cbn. intros [= <- <-]. by split.
Qed.

(** Without a lock to start from, a lock is made. *)
Lemma UpdateInstanceLockForPlayer_locate_new (env : Env) (playerGuid : Z)
    (entries : MapDb2Entries) (updateEvent : InstanceLockUpdateEvent) (w : World)
    (b : InstanceLock) (w1 : World) :
  UpdateInstanceLockForPlayer_locate env playerGuid entries updateEvent w = Ok (b, w1) →
  UpdateInstanceLockForPlayer_prior env w playerGuid entries = None →
  _mapId b = MapID (MapDifficulty entries) ∧
  _difficultyId b = DifficultyID (MapDifficulty entries) ∧
  _instanceId b = ev_InstanceId updateEvent ∧
  _expiryTime b = GetNextResetTime env entries ∧
  _extended b = false ∧
  _data b = InstanceLockData_default ∧
  (IsInstanceIdBound entries = false → _sharedData b = None) ∧
  (IsInstanceIdBound entries = true →
     ∃ p cb, registry w !! ev_InstanceId updateEvent = Some p ∧
             _sharedData b = Some p ∧ heap w !! p = Some cb ∧
             (1 ≤ use_count cb)%nat ∧
             InstanceId (object cb) = ev_InstanceId updateEvent).
Proof.
  unfold UpdateInstanceLockForPlayer_locate, UpdateInstanceLockForPlayer_prior.
  destruct (FindActiveInstanceLock env w playerGuid entries true true) as [l0|];
    [discriminate|].
  intros H Hnone.
  pose proof (promote_temporary_found playerGuid entries updateEvent w) as Hf.
  rewrite (surjective_pairing (promote_temporary playerGuid entries updateEvent w)) in H.
  rewrite Hf, Hnone, (promote_temporary_none _ _ _ _ Hnone) in H. revert H.
  destruct (IsInstanceIdBound entries).
  - destruct (registry w !! _) as [p|]; [|discriminate].
    unfold expired, deref, shared_ptr_copy.
    destruct (heap w !! p) as [cb|] eqn:Hp; [|discriminate].
    destruct (use_count cb) as [|n] eqn:Hc; [discriminate|]. cbn.
    rewrite list_lookup_insert_eq by (by eapply lookup_lt_Some). cbn.
    destruct (Z.eqb_spec (InstanceId (object cb)) (ev_InstanceId updateEvent)) as [E|E];
      [|discriminate].
    cbn. intros [= <- <-]. do 6 (split; [reflexivity|]).
    split; [discriminate|]. intros _. exists p, cb. rewrite Hc.
    repeat split; [assumption | lia | assumption].
  - cbn. intros [= <- <-]. do 6 (split; [reflexivity|]).
    split; [reflexivity | discriminate].
Qed.

Lemma UpdateInstanceLockForPlayer_inv (env : Env) (trans : list Statement) (playerGuid : Z)
    (entries : MapDb2Entries) (updateEvent : InstanceLockUpdateEvent) (w : World)
    (b' : InstanceLock) (trans' : list Statement) (w' : World) :
  UpdateInstanceLockForPlayer env trans playerGuid entries updateEvent w
    = Ok (b', trans', w') →
  ∃ b w1 b1 w2 w3,
    UpdateInstanceLockForPlayer_locate env playerGuid entries updateEvent w = Ok (b, w1) ∧
    UpdateInstanceLockForPlayer_apply playerGuid entries updateEvent b w1 = (b1, w2) ∧
    UpdateInstanceLockForPlayer_reactivate env playerGuid entries updateEvent b1 w2
      = Ok (b', w3) ∧
    trans' = trans ++ UpdateInstanceLockForPlayer_save env playerGuid entries b' ∧
    w' = set_permanent (slot_insert playerGuid (GetKey entries) b' (permanent w3)) w3.
Proof.
  unfold UpdateInstanceLockForPlayer.
  destruct (UpdateInstanceLockForPlayer_locate env playerGuid entries updateEvent w)
    as [[b w1]|] eqn:Hloc; [|discriminate]. cbn.
  destruct (UpdateInstanceLockForPlayer_apply playerGuid entries updateEvent b w1)
    as [b1 w2] eqn:Happ.
  destruct (UpdateInstanceLockForPlayer_reactivate env playerGuid entries updateEvent b1 w2)
    as [[b2 w3]|] eqn:Hre; [|discriminate]. cbn.
  intros [= <- <- <-]. by exists b, w1, b1, w2, w3.
Qed.

Lemma UpdateInstanceLockForPlayer_reactivate_keeps (env : Env) (playerGuid : Z)
    (entries : MapDb2Entries) (updateEvent : InstanceLockUpdateEvent)
    (b b' : InstanceLock) (w w' : World) :
  UpdateInstanceLockForPlayer_reactivate env playerGuid entries updateEvent b w
    = Ok (b', w') →
  _mapId b' = _mapId b ∧ _difficultyId b' = _difficultyId b ∧
  _instanceId b' = _instanceId b ∧ _data b' = _data b ∧
  _sharedData b' = _sharedData b ∧
  (IsExpired env b = false → b' = b) ∧
  (IsExpired env b = true →
     _extended b = true ∧ _expiryTime b' = GetNextResetTime env entries ∧
     _extended b' = false).
Proof.
  unfold UpdateInstanceLockForPlayer_reactivate. destruct (IsExpired env b).
  - destruct (_extended b); [|discriminate]. cbn. intros [= <- <-].
    do 5 (split; [reflexivity|]). split; [discriminate|]. intros _. repeat split.
  - intros [= <- <-]. do 5 (split; [reflexivity|]). split; [reflexivity | discriminate].
Qed.

Lemma uint32_bit_testbit (bit : Z) :
  0 ≤ bit < 32 → Z.testbit (uint32_bit bit) bit = true.
Proof.
  intros Hb. unfold uint32_bit. rewrite Z.land_spec, Z.shiftl_spec by lia.
  rewrite Z.sub_diag. change 4294967295 with (Z.ones 32).
  rewrite Z.ones_spec_low by lia. reflexivity.
Qed.

(** For a bit in 0..31 the shift does not leave the 32 bits. *)
Lemma uint32_bit_shiftl (bit : Z) :
  0 ≤ bit < 32 → uint32_bit bit = Z.shiftl 1 bit.
Proof.
  intros Hb. unfold uint32_bit. change 4294967295 with (Z.ones 32).
  rewrite Z.land_ones, Z.shiftl_1_l by lia. apply Z.mod_small.
  split; [apply Z.pow_nonneg; lia | apply Z.pow_lt_mono_r; lia].
Qed.

(** The mask that [UpdateInstanceLockForPlayer_apply] leaves. *)
Lemma UpdateInstanceLockForPlayer_apply_mask (playerGuid : Z) (entries : MapDb2Entries)
    (updateEvent : InstanceLockUpdateEvent) (b : InstanceLock) (w : World) :
  let b1 := (UpdateInstanceLockForPlayer_apply playerGuid entries updateEvent b w).1 in
  Data (_data b1) = NewData updateEvent ∧
  EntranceWorldSafeLocId (_data b1) = EntranceWorldSafeLocId (_data b) ∧
  _mapId b1 = _mapId b ∧ _difficultyId b1 = _difficultyId b ∧
  CompletedEncountersMask (_data b1)
  = Z.lor (Z.lor (CompletedEncountersMask (_data b))
             (match CompletedEncounter updateEvent with
              | Some enc => uint32_bit (Bit enc)
              | None => 0
              end))
      (if IsUsingEncounterLocks (MapDifficulty entries) then 0
       else InstanceCompletedEncountersMask updateEvent).
Proof.
  unfold UpdateInstanceLockForPlayer_apply.
  destruct (CompletedEncounter updateEvent);
    destruct (IsUsingEncounterLocks (MapDifficulty entries)); cbn;
    rewrite ?Z.lor_0_r; repeat split.
Qed.

(** X3. When [UpdateInstanceLockForPlayer] returns, the lock it returns
    has the instance id and the data of the update event; its mask has
    the bit of the completed encounter (for a bit in 0..31) and, unless
    the difficulty uses encounter locks, every bit of the instance's
    mask; the permanent store holds this lock under the player's key;
    and the transaction has received exactly two statements, the DELETE
    of the player's row followed by the INSERT of the lock as returned. *)
Theorem UpdateInstanceLockForPlayer_result (env : Env) (trans : list Statement)
    (playerGuid : Z) (entries : MapDb2Entries) (updateEvent : InstanceLockUpdateEvent)
    (w : World) (b' : InstanceLock) (trans' : list Statement) (w' : World) :
  UpdateInstanceLockForPlayer env trans playerGuid entries updateEvent w
    = Ok (b', trans', w') →
  _instanceId b' = ev_InstanceId updateEvent ∧
  Data (_data b') = NewData updateEvent ∧
  (∀ enc, CompletedEncounter updateEvent = Some enc → 0 ≤ Bit enc < 32 →
          Z.testbit (CompletedEncountersMask (_data b')) (Bit enc) = true) ∧
  (IsUsingEncounterLocks (MapDifficulty entries) = false →
   ∀ i, Z.testbit (InstanceCompletedEncountersMask updateEvent) i = true →
        Z.testbit (CompletedEncountersMask (_data b')) i = true) ∧
  FindInstanceLock (permanent w') playerGuid entries = Some b' ∧
  trans' = trans ++
    [ DELETE_character_instance_lock playerGuid (MapID (MapDifficulty entries))
        (LockID (MapDifficulty entries));
      INSERT_character_instance_lock playerGuid (MapID (MapDifficulty entries))
        (LockID (MapDifficulty entries)) (ev_InstanceId updateEvent)
        (DifficultyID (MapDifficulty entries))
        (EscapeString env (NewData updateEvent))
        (CompletedEncountersMask (_data b'))
        (EntranceWorldSafeLocId (_data b'))
        (_expiryTime b')
        (if _extended b' then 1 else 0) ].
Proof.
  intros Hup.
  destruct (UpdateInstanceLockForPlayer_inv _ _ _ _ _ _ _ _ _ Hup)
    as (b & w1 & b1 & w2 & w3 & Hloc & Happ & Hre & -> & ->).
  assert (_instanceId b = ev_InstanceId updateEvent) as Hid.
  { destruct (UpdateInstanceLockForPlayer_prior env w playerGuid entries) as [l|] eqn:Hprior.
    - destruct (UpdateInstanceLockForPlayer_locate_found _ _ _ _ _ _ _ _ Hloc Hprior)
        as [-> _]. reflexivity.
    - by destruct (UpdateInstanceLockForPlayer_locate_new _ _ _ _ _ _ _ Hloc Hprior)
        as (_ & _ & ? & _). }
  pose proof (UpdateInstanceLockForPlayer_apply_keeps playerGuid entries updateEvent b w1)
    as (_ & _ & Hid1 & _).
  pose proof (UpdateInstanceLockForPlayer_apply_mask playerGuid entries updateEvent b w1)
    as (Hdata & _ & _ & _ & Hmask).
  cbv zeta in Hid1, Hdata, Hmask. rewrite Happ in Hid1, Hdata, Hmask. cbn [fst] in *.
  destruct (UpdateInstanceLockForPlayer_reactivate_keeps _ _ _ _ _ _ _ _ Hre)
    as (_ & _ & Hid2 & Hd2 & _).
  assert (_instanceId b' = ev_InstanceId updateEvent) as Hid' by congruence.
  split; [exact Hid'|]. split; [rewrite Hd2; exact Hdata|].
  split; [|split; [|split]].
  - intros enc Henc Hbit. rewrite Hd2, Hmask, Henc, !Z.lor_spec.
    rewrite uint32_bit_testbit by exact Hbit. rewrite orb_true_r. reflexivity.
  - intros Hel i Hi. rewrite Hd2, Hmask, Hel, Z.lor_spec, Hi. apply orb_true_r.
  - rewrite FindInstanceLock_slot_lookup. apply slot_lookup_insert_eq.
  - unfold UpdateInstanceLockForPlayer_save. rewrite Hid', Hd2, Hdata. reflexivity.
Qed.

(** Scenario 1: the promoted lock of instance 42 with the bit 3. *)
Lemma UpdateInstanceLockForPlayer_result_witness :
  ∃ b' trans' w',
    UpdateInstanceLockForPlayer Sample.env [] 1 Sample.raid Sample.kill3
      (CreateInstanceLockForNewInstance Sample.env 1 Sample.raid 42 Sample.start).2
    = Ok (b', trans', w') ∧
    _instanceId b' = 42 ∧
    Z.testbit (CompletedEncountersMask (_data b')) 3 = true ∧
    length trans' = 2%nat.
Proof.
  destruct (UpdateInstanceLockForPlayer Sample.env [] 1 Sample.raid Sample.kill3
      (CreateInstanceLockForNewInstance Sample.env 1 Sample.raid 42 Sample.start).2)
    as [[[b' trans'] w']|] eqn:Hup; [|vm_compute in Hup; discriminate Hup].
  destruct (UpdateInstanceLockForPlayer_result _ _ _ _ _ _ _ _ _ Hup)
    as (Hid & _ & Hbit & _ & _ & ->).
  eexists b', _, w'. split; [reflexivity|]. split; [exact Hid|].
  split; [|reflexivity].
  apply (Hbit {| EncounterID := 1; Bit := 3 |}); [reflexivity | cbn; lia].
Defined.

(** ** What an update keeps of the lock it starts from *)

(** X4. When [UpdateInstanceLockForPlayer] works on a lock that exists
    (the usable permanent lock, or else the temporary lock of the key)
    and returns, the returned lock has the map, the difficulty, the
    shared record and the entrance location of that lock, every bit of
    its mask, and, if that lock was not expired, its expiry time and its
    extension flag. *)
Theorem UpdateInstanceLockForPlayer_keeps_prior (env : Env) (trans : list Statement)
    (playerGuid : Z) (entries : MapDb2Entries) (updateEvent : InstanceLockUpdateEvent)
    (w : World) (b' : InstanceLock) (trans' : list Statement) (w' : World)
    (l : InstanceLock) :
  UpdateInstanceLockForPlayer env trans playerGuid entries updateEvent w
    = Ok (b', trans', w') →
  UpdateInstanceLockForPlayer_prior env w playerGuid entries = Some l →
  _mapId b' = _mapId l ∧
  _difficultyId b' = _difficultyId l ∧
  _sharedData b' = _sharedData l ∧
  EntranceWorldSafeLocId (_data b') = EntranceWorldSafeLocId (_data l) ∧
  (∀ i, Z.testbit (CompletedEncountersMask (_data l)) i = true →
        Z.testbit (CompletedEncountersMask (_data b')) i = true) ∧
  (IsExpired env l = false →
     _expiryTime b' = _expiryTime l ∧ _extended b' = _extended l).
Proof.
  intros Hup Hprior.
  destruct (UpdateInstanceLockForPlayer_inv _ _ _ _ _ _ _ _ _ Hup)
    as (b & w1 & b1 & w2 & w3 & Hloc & Happ & Hre & _ & _).
  destruct (UpdateInstanceLockForPlayer_locate_found _ _ _ _ _ _ _ _ Hloc Hprior) as [-> _].
  pose proof (UpdateInstanceLockForPlayer_apply_keeps playerGuid entries updateEvent
                (SetInstanceId (ev_InstanceId updateEvent) l) w1) as (Ht1 & Hx1 & _ & Hs1).
  pose proof (UpdateInstanceLockForPlayer_apply_mask playerGuid entries updateEvent
                (SetInstanceId (ev_InstanceId updateEvent) l) w1)
    as (_ & He1 & Hm1 & Hd1 & Hmask).
  cbv zeta in Ht1, Hx1, Hs1, He1, Hm1, Hd1, Hmask.
  rewrite Happ in Ht1, Hx1, Hs1, He1, Hm1, Hd1, Hmask.
  unfold SetInstanceId in Ht1, Hx1, Hs1, He1, Hm1, Hd1, Hmask.
  cbn in Ht1, Hx1, Hs1, He1, Hm1, Hd1, Hmask.
  destruct (UpdateInstanceLockForPlayer_reactivate_keeps _ _ _ _ _ _ _ _ Hre)
    as (Hm2 & Hd2 & _ & Hdata2 & Hs2 & Hne & _).
  split; [congruence|]. split; [congruence|]. split; [congruence|].
  split; [rewrite Hdata2; exact He1|]. split.
  - intros i Hi. rewrite Hdata2, Hmask, !Z.lor_spec, Hi. reflexivity.
  - intros Hexp. rewrite Hne; [split; assumption|].
    unfold IsExpired in *. rewrite Ht1. exact Hexp.
Qed.

(** The lock of instance 42 with mask 0b0110 gains the bit 3 and keeps
    the bits 1 and 2. *)
Lemma UpdateInstanceLockForPlayer_keeps_prior_witness :
  ∃ b' trans' w',
    UpdateInstanceLockForPlayer Sample.env [] 1 Sample.dungeon Sample.kill3
      (Sample.holding 1 Sample.dungeon
         (Sample.lock_with 42 Sample.tuesday_9 false 6 None Sample.dungeon) Sample.start)
    = Ok (b', trans', w') ∧
    Z.testbit (CompletedEncountersMask (_data b')) 1 = true ∧
    _expiryTime b' = Sample.tuesday_9.
Proof.
  destruct (UpdateInstanceLockForPlayer Sample.env [] 1 Sample.dungeon Sample.kill3
      (Sample.holding 1 Sample.dungeon
         (Sample.lock_with 42 Sample.tuesday_9 false 6 None Sample.dungeon) Sample.start))
    as [[[b' trans'] w']|] eqn:Hup; [|vm_compute in Hup; discriminate Hup].
  destruct (UpdateInstanceLockForPlayer_keeps_prior _ _ _ _ _ _ _ _ _
              (Sample.lock_with 42 Sample.tuesday_9 false 6 None Sample.dungeon)
              Hup eq_refl) as (_ & _ & _ & _ & Hbits & Hexp).
  exists b', trans', w'. split; [reflexivity|].
  split; [apply Hbits; reflexivity | apply Hexp; reflexivity].
Defined.

(** ** What an update does to the two stores *)

Lemma slot_lookup_erase (g : Z) (key : InstanceLockKey)
    (locks : gmap Z (gmap InstanceLockKey InstanceLock))
    (playerLocks : gmap InstanceLockKey InstanceLock) (g' : Z) (key' : InstanceLockKey) :
  locks !! g = Some playerLocks →
  slot_lookup g' key'
    (if decide (delete key playerLocks = ∅) then delete g locks
     else <[g := delete key playerLocks]> locks)
  = if decide ((g', key') = (g, key)) then None else slot_lookup g' key' locks.
Proof.
  intros Hg. unfold slot_lookup.
  destruct (decide ((g', key') = (g, key))) as [[= -> ->]|Hne].
  - case_decide.
    + by rewrite lookup_delete_eq.
    + by rewrite lookup_insert_eq, lookup_delete_eq.
  - destruct (decide (g = g')) as [<-|Hg'].
    + assert (key ≠ key') as Hk by congruence. rewrite Hg. case_decide as Hempty.
      * rewrite lookup_delete_eq.
        apply (f_equal (λ m, m !! key')) in Hempty.
        rewrite lookup_delete_ne, lookup_empty in Hempty by exact Hk. by rewrite Hempty.
      * by rewrite lookup_insert_eq, lookup_delete_ne.
    + case_decide.
      * by rewrite lookup_delete_ne.
      * by rewrite lookup_insert_ne.
Qed.

Lemma promote_temporary_stores (playerGuid : Z) (entries : MapDb2Entries)
    (updateEvent : InstanceLockUpdateEvent) (w : World) (l : InstanceLock) :
  FindInstanceLock (temporary w) playerGuid entries = Some l →
  let w2 := (promote_temporary playerGuid entries updateEvent w).2 in
  permanent w2 = slot_insert playerGuid (GetKey entries) l (permanent w) ∧
  ∀ g' k', slot_lookup g' k' (temporary w2)
           = if decide ((g', k') = (playerGuid, GetKey entries)) then None
             else slot_lookup g' k' (temporary w).
Proof.
  unfold promote_temporary, FindInstanceLock.
  destruct (temporary w !! playerGuid) as [playerLocks|] eqn:Hg; [|discriminate].
  intros Hl. rewrite Hl. cbn [snd].
  destruct (permanent_reset_stores playerGuid (GetKey entries) l w) as [Hperm Htemp].
  rewrite Htemp. split.
  - case_decide; exact Hperm.
  - intros g' k'. rewrite <- (slot_lookup_erase _ _ _ _ _ _ Hg).
    case_decide; reflexivity.
Qed.

Lemma UpdateInstanceLockForPlayer_locate_stores (env : Env) (playerGuid : Z)
    (entries : MapDb2Entries) (updateEvent : InstanceLockUpdateEvent) (w : World)
    (b : InstanceLock) (w1 : World) :
  UpdateInstanceLockForPlayer_locate env playerGuid entries updateEvent w = Ok (b, w1) →
  (∀ g' k', (g', k') ≠ (playerGuid, GetKey entries) →
     slot_lookup g' k' (permanent w1) = slot_lookup g' k' (permanent w) ∧
     slot_lookup g' k' (temporary w1) = slot_lookup g' k' (temporary w)) ∧
  (is_Some (FindActiveInstanceLock env w playerGuid entries true true) →
     temporary w1 = temporary w) ∧
  (FindActiveInstanceLock env w playerGuid entries true true = None →
     FindInstanceLock (temporary w1) playerGuid entries = None).
Proof.
  intros Hloc.
  destruct (UpdateInstanceLockForPlayer_prior env w playerGuid entries) as [l|] eqn:Hprior.
  - destruct (UpdateInstanceLockForPlayer_locate_found _ _ _ _ _ _ _ _ Hloc Hprior)
      as [_ ->].
    unfold UpdateInstanceLockForPlayer_prior in Hprior.
    destruct (FindActiveInstanceLock env w playerGuid entries true true) as [l0|].
    + split; [by intros|]. split; [reflexivity | discriminate].
    + destruct (promote_temporary_stores playerGuid entries updateEvent w l Hprior)
        as [Hperm Htemp].
      split; [|split].
      * intros g' k' Hne. rewrite Hperm, Htemp, decide_False by exact Hne.
        split; [by apply slot_lookup_insert_ne | reflexivity].
      * intros [? [=]].
      * intros _. rewrite FindInstanceLock_slot_lookup, Htemp.
        by rewrite decide_True.
  - unfold UpdateInstanceLockForPlayer_prior in Hprior.
    destruct (FindActiveInstanceLock env w playerGuid entries true true) as [l0|] eqn:Hact;
      [discriminate|].
    revert Hloc. unfold UpdateInstanceLockForPlayer_locate. rewrite Hact.
    rewrite (surjective_pairing (promote_temporary playerGuid entries updateEvent w)).
    rewrite promote_temporary_found, Hprior, (promote_temporary_none _ _ _ _ Hprior).
    assert (∀ lock w0, temporary w0 = temporary w → permanent w0 = permanent w →
              let w1 := TC_LOG (DEBUG_created_new (ID (Map entries))
                                  (DifficultyID (MapDifficulty entries)) playerGuid
                                  (ev_InstanceId updateEvent))
                          (permanent_reset playerGuid (GetKey entries) lock w0) in
              (∀ g' k', (g', k') ≠ (playerGuid, GetKey entries) →
                 slot_lookup g' k' (permanent w1) = slot_lookup g' k' (permanent w) ∧
                 slot_lookup g' k' (temporary w1) = slot_lookup g' k' (temporary w)) ∧
              (is_Some (@None InstanceLock) → temporary w1 = temporary w) ∧
              (@None InstanceLock = None →
                 FindInstanceLock (temporary w1) playerGuid entries = None)) as Hgen.
    { intros lock w0 Ht Hp. cbv zeta.
      change (temporary (TC_LOG ?x ?y)) with (temporary y).
      change (permanent (TC_LOG ?x ?y)) with (permanent y).
      destruct (permanent_reset_stores playerGuid (GetKey entries) lock w0) as [-> ->].
      rewrite Ht, Hp. split; [|split].
      - intros g' k' Hne. split; [by apply slot_lookup_insert_ne | reflexivity].
      - intros [? [=]].
      - intros _. exact Hprior. }
    destruct (IsInstanceIdBound entries).
    + destruct (registry w !! _) as [p|]; [|discriminate].
      destruct (negb (expired p w)); [|discriminate]. cbn.
      destruct (match deref p (shared_ptr_copy p w) with
                | Some d => _ | None => false end); [|discriminate].
      cbn. intros [= <- <-]. apply Hgen.
      * unfold shared_ptr_copy. by destruct (heap w !! p).
      * unfold shared_ptr_copy. by destruct (heap w !! p).
    + cbn. intros [= <- <-]. by apply Hgen.
Qed.

(** X5. A call of [UpdateInstanceLockForPlayer] that returns touches
    one slot only: the locks that both stores hold for other players or
    under other keys are as before. If the player had a usable permanent
    lock the temporary store is unchanged; if not, the temporary store
    holds no lock under the player's key afterwards, the temporary lock
    that was there having been moved to the permanent store. *)
Theorem UpdateInstanceLockForPlayer_stores (env : Env) (trans : list Statement)
    (playerGuid : Z) (entries : MapDb2Entries) (updateEvent : InstanceLockUpdateEvent)
    (w : World) (b' : InstanceLock) (trans' : list Statement) (w' : World) :
  UpdateInstanceLockForPlayer env trans playerGuid entries updateEvent w
    = Ok (b', trans', w') →
  (∀ g' k', (g', k') ≠ (playerGuid, GetKey entries) →
     slot_lookup g' k' (permanent w') = slot_lookup g' k' (permanent w) ∧
     slot_lookup g' k' (temporary w') = slot_lookup g' k' (temporary w)) ∧
  (is_Some (FindActiveInstanceLock env w playerGuid entries true true) →
     temporary w' = temporary w) ∧
  (FindActiveInstanceLock env w playerGuid entries true true = None →
     FindInstanceLock (temporary w') playerGuid entries = None).
Proof.
  intros Hup.
  destruct (UpdateInstanceLockForPlayer_inv _ _ _ _ _ _ _ _ _ Hup)
    as (b & w1 & b1 & w2 & w3 & Hloc & Happ & Hre & _ & ->).
  destruct (UpdateInstanceLockForPlayer_locate_stores _ _ _ _ _ _ _ Hloc)
    as (Hframe & Hsame & Hnone).
  assert (temporary w3 = temporary w1 ∧ permanent w3 = permanent w1) as [Ht Hp].
  { assert (temporary w2 = temporary w1 ∧ permanent w2 = permanent w1) as [Ht2 Hp2].
    { revert Happ. unfold UpdateInstanceLockForPlayer_apply.
      destruct (CompletedEncounter updateEvent); intros [= _ <-]; by split. }
    revert Hre. unfold UpdateInstanceLockForPlayer_reactivate.
    destruct (IsExpired env b1).
    - destruct (_extended b1); [|discriminate]. cbn. intros [= _ <-]. by split.
    - intros [= _ <-]. by split. }
  change (temporary (set_permanent ?x ?y)) with (temporary y).
  change (permanent (set_permanent ?x ?y)) with x.
  rewrite Ht, Hp. split; [|split].
  - intros g' k' Hne. rewrite slot_lookup_insert_ne by exact Hne. by apply Hframe.
  - exact Hsame.
  - exact Hnone.
Qed.

(** Scenario 1: after the promotion the temporary store has no lock of
    player 1 for the raid. *)
Lemma UpdateInstanceLockForPlayer_stores_witness :
  ∃ b' trans' w',
    UpdateInstanceLockForPlayer Sample.env [] 1 Sample.raid Sample.kill3
      (CreateInstanceLockForNewInstance Sample.env 1 Sample.raid 42 Sample.start).2
    = Ok (b', trans', w') ∧
    FindInstanceLock (temporary w') 1 Sample.raid = None.
Proof.
  destruct (UpdateInstanceLockForPlayer Sample.env [] 1 Sample.raid Sample.kill3
      (CreateInstanceLockForNewInstance Sample.env 1 Sample.raid 42 Sample.start).2)
    as [[[b' trans'] w']|] eqn:Hup; [|vm_compute in Hup; discriminate Hup].
  destruct (UpdateInstanceLockForPlayer_stores _ _ _ _ _ _ _ _ _ Hup) as (_ & _ & H).
  exists b', trans', w'. split; [reflexivity | apply H; reflexivity].
Defined.

(** ** An update without a lock to start from *)

Lemma UpdateInstanceLockForPlayer_locate_new_ok (env : Env) (playerGuid : Z)
    (entries : MapDb2Entries) (updateEvent : InstanceLockUpdateEvent) (w : World) :
  UpdateInstanceLockForPlayer_prior env w playerGuid entries = None →
  (IsInstanceIdBound entries = true →
     ∃ p cb, registry w !! ev_InstanceId updateEvent = Some p ∧
             heap w !! p = Some cb ∧ (1 ≤ use_count cb)%nat ∧
             InstanceId (object cb) = ev_InstanceId updateEvent) →
  ∃ res, UpdateInstanceLockForPlayer_locate env playerGuid entries updateEvent w = Ok res.
Proof.
  intros Hprior Hreg. unfold UpdateInstanceLockForPlayer_prior in Hprior.
  unfold UpdateInstanceLockForPlayer_locate.
  destruct (FindActiveInstanceLock env w playerGuid entries true true); [discriminate|].
  rewrite (surjective_pairing (promote_temporary playerGuid entries updateEvent w)).
  rewrite promote_temporary_found, Hprior, (promote_temporary_none _ _ _ _ Hprior).
  destruct (IsInstanceIdBound entries).
  - destruct (Hreg eq_refl) as (p & cb & -> & Hp & Hc & Hid).
    unfold expired, deref, shared_ptr_copy. rewrite Hp.
    destruct (use_count cb) as [|n]; [lia|]. cbn.
    rewrite list_lookup_insert_eq by (by eapply lookup_lt_Some). cbn.
    rewrite Hid, Z.eqb_refl. cbn. eauto.
  - cbn. eauto.
Qed.

(** X6. When the player has neither a usable permanent lock nor a
    temporary lock under the key, [UpdateInstanceLockForPlayer] makes a
    lock, and it returns exactly when the next reset time is not before
    now and, for an instance-bound dungeon, the registry has under the
    event's instance id a record that is alive and whose [InstanceId] is
    that id; otherwise an assertion aborts the call. The lock made and
    returned expires at the next reset time and is not extended. *)
Theorem UpdateInstanceLockForPlayer_new_lock (env : Env) (trans : list Statement)
    (playerGuid : Z) (entries : MapDb2Entries) (updateEvent : InstanceLockUpdateEvent)
    (w : World) :
  UpdateInstanceLockForPlayer_prior env w playerGuid entries = None →
  let r := UpdateInstanceLockForPlayer env trans playerGuid entries updateEvent w in
  ((∃ res, r = Ok res) ↔
     GetSystemTime env ≤ GetNextResetTime env entries ∧
     (IsInstanceIdBound entries = true →
        ∃ p cb, registry w !! ev_InstanceId updateEvent = Some p ∧
                heap w !! p = Some cb ∧ (1 ≤ use_count cb)%nat ∧
                InstanceId (object cb) = ev_InstanceId updateEvent)) ∧
  ((¬ ∃ res, r = Ok res) → r = Abort) ∧
  (∀ b' trans' w', r = Ok (b', trans', w') →
     _expiryTime b' = GetNextResetTime env entries ∧ _extended b' = false ∧
     _mapId b' = MapID (MapDifficulty entries) ∧
     _difficultyId b' = DifficultyID (MapDifficulty entries)).
Proof.
  intros Hprior. cbv zeta.
  assert (∀ b' trans' w',
            UpdateInstanceLockForPlayer env trans playerGuid entries updateEvent w
              = Ok (b', trans', w') →
            GetSystemTime env ≤ GetNextResetTime env entries ∧
            (IsInstanceIdBound entries = true →
               ∃ p cb, registry w !! ev_InstanceId updateEvent = Some p ∧
                       heap w !! p = Some cb ∧ (1 ≤ use_count cb)%nat ∧
                       InstanceId (object cb) = ev_InstanceId updateEvent) ∧
            _expiryTime b' = GetNextResetTime env entries ∧ _extended b' = false ∧
            _mapId b' = MapID (MapDifficulty entries) ∧
            _difficultyId b' = DifficultyID (MapDifficulty entries)) as Hok.
  { intros b' trans' w' Hup.
    destruct (UpdateInstanceLockForPlayer_inv _ _ _ _ _ _ _ _ _ Hup)
      as (b & w1 & b1 & w2 & w3 & Hloc & Happ & Hre & _ & _).
    destruct (UpdateInstanceLockForPlayer_locate_new _ _ _ _ _ _ _ Hloc Hprior)
      as (Hm & Hd & _ & Ht & Hx & _ & _ & Hshared).
    pose proof (UpdateInstanceLockForPlayer_apply_keeps playerGuid entries updateEvent b w1)
      as (Ht1 & Hx1 & _ & _).
    pose proof (UpdateInstanceLockForPlayer_apply_mask playerGuid entries updateEvent b w1)
      as (_ & _ & Hm1 & Hd1 & _).
    cbv zeta in Ht1, Hx1, Hm1, Hd1. rewrite Happ in Ht1, Hx1, Hm1, Hd1.
    cbn [fst] in Ht1, Hx1, Hm1, Hd1.
    destruct (UpdateInstanceLockForPlayer_reactivate_keeps _ _ _ _ _ _ _ _ Hre)
      as (Hm2 & Hd2 & _ & _ & _ & Hne & Hexp).
    destruct (IsExpired env b1) eqn:E.
    - destruct (Hexp eq_refl) as (Hext & _). congruence.
    - rewrite (Hne eq_refl) in *. unfold IsExpired in E. apply Z.ltb_ge in E.
      split; [congruence|]. split.
      + intros Hb. destruct (Hshared Hb) as (p & cb & ? & _ & ? & ? & ?). by exists p, cb.
      + repeat split; congruence. }
  split; [split|split].
  - intros [[[b' trans'] w'] Hup]. destruct (Hok _ _ _ Hup) as (? & ? & _). by split.
  - intros [Htime Hreg].
    destruct (UpdateInstanceLockForPlayer_locate_new_ok env playerGuid entries updateEvent
                w Hprior Hreg) as [[b w1] Hloc].
    destruct (UpdateInstanceLockForPlayer_locate_new _ _ _ _ _ _ _ Hloc Hprior)
      as (_ & _ & _ & Ht & _).
    unfold UpdateInstanceLockForPlayer. rewrite Hloc. cbn.
    pose proof (UpdateInstanceLockForPlayer_apply_keeps playerGuid entries updateEvent b w1)
      as (Ht1 & _). cbv zeta in Ht1.
    destruct (UpdateInstanceLockForPlayer_apply playerGuid entries updateEvent b w1)
      as [b1 w2]. cbn [fst] in Ht1.
    unfold UpdateInstanceLockForPlayer_reactivate, IsExpired.
    rewrite Ht1, Ht. apply Z.ltb_ge in Htime. rewrite Htime. cbn. eauto.
  - intros Hno.
    destruct (UpdateInstanceLockForPlayer env trans playerGuid entries updateEvent w)
      as [res|]; [|reflexivity].
    exfalso. apply Hno. by exists res.
  - intros b' trans' w' Hup. destruct (Hok _ _ _ Hup) as (_ & _ & H). exact H.
Qed.

(** With no lock of player 2 and no record registered for instance 42,
    the update of the instance-bound raid aborts. *)
Lemma UpdateInstanceLockForPlayer_new_lock_witness :
  UpdateInstanceLockForPlayer Sample.env [] 2 Sample.raid Sample.kill3 Sample.start = Abort.
Proof.
  destruct (UpdateInstanceLockForPlayer_new_lock Sample.env [] 2 Sample.raid Sample.kill3
              Sample.start eq_refl) as ([Hiff _] & Habort & _).
  apply Habort. intros Hex. destruct (Hiff Hex) as [_ Hreg].
  destruct (Hreg eq_refl) as (p & cb & Hp & _). vm_compute in Hp. discriminate Hp.
Defined.

(** ** Updating a shared record *)

(** X7. [UpdateSharedInstanceLock] returns exactly when the registry has
    under the event's instance id a record that is alive and whose
    [InstanceId] is that id; otherwise an assertion aborts it. When it
    returns, that record has the event's data; its mask is unchanged
    when the event has no completed encounter, and has gained the bit
    of the completed encounter when that bit is in 0..31, the range in
    which the shift [1u << Bit] is defined; its [InstanceId], its
    entrance location and its owners are unchanged, as are all other
    records, the manager and the statements executed; and the
    transaction has received the DELETE and then the INSERT of the
    record's row in instance2, with the mask that the record has
    then. *)
Theorem UpdateSharedInstanceLock_record (env : Env) (trans : list Statement)
    (updateEvent : InstanceLockUpdateEvent) (w : World) :
  let r := UpdateSharedInstanceLock env trans updateEvent w in
  let instanceId := ev_InstanceId updateEvent in
  ((∃ res, r = Ok res) ↔
     ∃ p cb, registry w !! instanceId = Some p ∧ heap w !! p = Some cb ∧
             (1 ≤ use_count cb)%nat ∧ InstanceId (object cb) = instanceId) ∧
  ((¬ ∃ res, r = Ok res) → r = Abort) ∧
  (∀ trans' w', r = Ok (trans', w') →
     ∃ p cb cb',
       registry w !! instanceId = Some p ∧ heap w !! p = Some cb ∧
       heap w' !! p = Some cb' ∧
       use_count cb' = use_count cb ∧
       InstanceId (object cb') = instanceId ∧
       Data (sharedBase (object cb')) = NewData updateEvent ∧
       (CompletedEncounter updateEvent = None →
          CompletedEncountersMask (sharedBase (object cb'))
            = CompletedEncountersMask (sharedBase (object cb))) ∧
       (∀ enc, CompletedEncounter updateEvent = Some enc → 0 ≤ Bit enc < 32 →
          CompletedEncountersMask (sharedBase (object cb'))
            = Z.lor (CompletedEncountersMask (sharedBase (object cb)))
                (Z.shiftl 1 (Bit enc))) ∧
       EntranceWorldSafeLocId (sharedBase (object cb'))
         = EntranceWorldSafeLocId (sharedBase (object cb)) ∧
       (∀ q, q ≠ p → heap w' !! q = heap w !! q) ∧
       sInstanceLockMgr w' = sInstanceLockMgr w ∧
       CharacterDatabase w' = CharacterDatabase w ∧
       trans' = trans ++
         [ DELETE_instance2 instanceId;
           INSERT_instance2 instanceId (EscapeString env (NewData updateEvent))
             (CompletedEncountersMask (sharedBase (object cb')))
             (EntranceWorldSafeLocId (sharedBase (object cb'))) ]).
Proof.
  cbv zeta.
  assert (∀ A (x : Asserted A), (¬ ∃ res, x = Ok res) → x = Abort) as Habort.
  { intros A [a|] Hno; [|reflexivity]. exfalso. apply Hno. by exists a. }
  split; [|split; [apply Habort|]].
  - unfold UpdateSharedInstanceLock, weak_get, expired. split.
    + intros [res Hr]. revert Hr.
      destruct (registry w !! ev_InstanceId updateEvent) as [p|]; [|discriminate].
      destruct (heap w !! p) as [cb|] eqn:Hp; [|discriminate].
      destruct (use_count cb) as [|n] eqn:Hc; [discriminate|]. cbn.
      destruct (Z.eqb_spec (InstanceId (object cb)) (ev_InstanceId updateEvent)) as [E|E];
        [|discriminate].
      intros _. exists p, cb. rewrite Hc.
      split; [reflexivity|]. split; [exact Hp|]. split; [lia | exact E].
    + intros (p & cb & -> & -> & Hc & ->).
      destruct (use_count cb) as [|n]; [lia|]. cbn. rewrite Z.eqb_refl. cbn.
      destruct (CompletedEncounter updateEvent); eauto.
  - intros trans' w'. unfold UpdateSharedInstanceLock, weak_get, expired.
    destruct (registry w !! ev_InstanceId updateEvent) as [p|]; [|discriminate].
    destruct (heap w !! p) as [cb|] eqn:Hp; [|discriminate].
    destruct (use_count cb) as [|n] eqn:Hc; [discriminate|]. cbn.
    destruct (Z.eqb_spec (InstanceId (object cb)) (ev_InstanceId updateEvent)) as [E|E];
      [|discriminate].
    assert (p < length (heap w))%nat as Hlt by (by eapply lookup_lt_Some).
    cbn. intros Hr. exists p, cb.
    destruct (CompletedEncounter updateEvent) as [enc|]; injection Hr as <- <-;
      eexists; (split; [reflexivity|]); (split; [exact Hp|]);
      (split; [cbn; apply list_lookup_insert_eq; exact Hlt|]); cbn;
      rewrite ?E; rewrite <- ?Hc;
      (do 3 (split; [reflexivity|]));
      (split; [try discriminate; reflexivity|]);
      (split; [try discriminate;
               intros enc' [= <-] Hbit; by rewrite uint32_bit_shiftl|]);
      (split; [reflexivity|]);
      (split; [intros q Hq; by apply list_lookup_insert_ne|]);
      repeat split.
Qed.

(** The record of instance 9 takes the data and the bit 3. *)
Lemma UpdateSharedInstanceLock_record_witness :
  ∃ trans' w' cb',
    UpdateSharedInstanceLock Sample.env []
      {| ev_InstanceId := 9; NewData := "b"; InstanceCompletedEncountersMask := 0;
         CompletedEncounter := Some {| EncounterID := 1; Bit := 3 |} |}
      Sample.two_owners = Ok (trans', w') ∧
    heap w' !! 0%nat = Some cb' ∧
    CompletedEncountersMask (sharedBase (object cb')) = 8 ∧
    length trans' = 2%nat.
Proof.
  destruct (UpdateSharedInstanceLock_record Sample.env []
      {| ev_InstanceId := 9; NewData := "b"; InstanceCompletedEncountersMask := 0;
         CompletedEncounter := Some {| EncounterID := 1; Bit := 3 |} |}
      Sample.two_owners) as ([_ Hex] & _ & Hres).
  destruct Hex as [[trans' w'] Hr].
  { exists 0%nat, {| use_count := 2; object := Sample.record9 |}.
    repeat split; [cbn; lia]. }
  destruct (Hres trans' w' Hr)
    as (p & cb & cb' & Hp & Hcb & Hcb' & _ & _ & _ & _ & Hmask & _ & _ & _ & _ & Htrans).
  vm_compute in Hp. injection Hp as <-. vm_compute in Hcb. injection Hcb as <-.
  exists trans', w', cb'. split; [exact Hr|]. split; [exact Hcb'|].
  split; [rewrite (Hmask _ eq_refl) by (cbn; lia); reflexivity
         | rewrite Htrans; reflexivity].
Defined.

(** ** Extending a lock *)

(** X8. [UpdateInstanceLockExtensionForPlayer] acts on the player's
    permanent lock of the key, expired or not. Without one it changes
    nothing and executes nothing, also when there is a temporary lock.
    With one it sets the flag on that lock and nothing else in the
    manager, and executes one UPDATE of the row. An extended lock is
    then what the lookup without flags returns, even when it is
    expired; an expired lock whose extension is taken away is hidden
    from that lookup, which returns the temporary lock of the key. *)
Theorem UpdateInstanceLockExtensionForPlayer_visibility (env : Env) (playerGuid : Z)
    (entries : MapDb2Entries) (extended : bool) (w : World) :
  let w' := UpdateInstanceLockExtensionForPlayer env playerGuid entries extended w in
  (FindInstanceLock (permanent w) playerGuid entries = None → w' = w) ∧
  (∀ l, FindInstanceLock (permanent w) playerGuid entries = Some l →
     permanent w' = slot_insert playerGuid (GetKey entries) (SetExtended extended l)
                      (permanent w) ∧
     FindInstanceLock (permanent w') playerGuid entries = Some (SetExtended extended l) ∧
     temporary w' = temporary w ∧ registry w' = registry w ∧ heap w' = heap w ∧
     CharacterDatabase w'
       = CharacterDatabase w ++
           [UPDATE_character_instance_lock_extended (if extended then 1 else 0) playerGuid
              (MapID (MapDifficulty entries)) (LockID (MapDifficulty entries))] ∧
     (extended = true →
        FindActiveInstanceLock2 env w' playerGuid entries = Some (SetExtended true l)) ∧
     (extended = false → IsExpired env l = true →
        FindActiveInstanceLock2 env w' playerGuid entries
          = FindInstanceLock (temporary w) playerGuid entries)).
Proof.
  cbv zeta. unfold UpdateInstanceLockExtensionForPlayer, FindActiveInstanceLock2,
    FindActiveInstanceLock.
  split.
  - intros ->. reflexivity.
  - intros l Hl. rewrite Hl. rewrite orb_true_r.
    assert (FindInstanceLock
              (slot_insert playerGuid (GetKey entries) (SetExtended extended l) (permanent w))
              playerGuid entries = Some (SetExtended extended l)) as Hnew
      by (rewrite FindInstanceLock_slot_lookup; apply slot_lookup_insert_eq).
    split; [reflexivity|]. split; [exact Hnew|].
    do 4 (split; [reflexivity|]).
    split.
    + intros ->. unfold permanent at 1. cbn. fold (permanent w). rewrite Hnew.
      cbn. rewrite orb_true_r. reflexivity.
    + intros -> Hexp. unfold permanent at 1. cbn. fold (permanent w). rewrite Hnew.
      unfold IsExpired in *. cbn. rewrite Hexp. reflexivity.
Qed.

(** An expired permanent lock behind a temporary one: extended, it is
    the active lock again. *)
Lemma UpdateInstanceLockExtensionForPlayer_visibility_witness :
  FindActiveInstanceLock2 Sample.env
    (UpdateInstanceLockExtensionForPlayer Sample.env 1 Sample.raid true
       (Sample.holding_temporary 1 Sample.raid
          (Sample.lock_with 0 Sample.tuesday_9 false 0 None Sample.raid)
          (Sample.holding 1 Sample.raid
             (Sample.lock_with 42 0 false 0 None Sample.raid) Sample.start)))
    1 Sample.raid
  = Some (Sample.lock_with 42 0 true 0 None Sample.raid).
Proof.
  destruct (UpdateInstanceLockExtensionForPlayer_visibility Sample.env 1 Sample.raid true
              (Sample.holding_temporary 1 Sample.raid
                 (Sample.lock_with 0 Sample.tuesday_9 false 0 None Sample.raid)
                 (Sample.holding 1 Sample.raid
                    (Sample.lock_with 42 0 false 0 None Sample.raid) Sample.start)))
    as [_ H].
  destruct (H (Sample.lock_with 42 0 false 0 None Sample.raid) eq_refl)
    as (_ & _ & _ & _ & _ & _ & Hext & _).
  rewrite (Hext eq_refl). reflexivity.
Defined.

(** ** Entering after a lock was made *)

Lemma FindActiveInstanceLock_temporary_last (env : Env) (w : World) (playerGuid : Z)
    (entries : MapDb2Entries) (ignoreExpired : bool) :
  FindActiveInstanceLock env w playerGuid entries false ignoreExpired
  = match FindActiveInstanceLock env w playerGuid entries true ignoreExpired with
    | Some l => Some l
    | None => FindInstanceLock (temporary w) playerGuid entries
    end.
Proof.
  unfold FindActiveInstanceLock.
  destruct (FindInstanceLock (permanent w) playerGuid entries) as [l|]; [|reflexivity].
  destruct (_ || _); reflexivity.
Qed.

Lemma CreateInstanceLockForNewInstance_stores (env : Env) (playerGuid : Z)
    (entries : MapDb2Entries) (instanceId : Z) (w : World) :
  HasResetSchedule (MapDifficulty entries) = true →
  ∃ lock,
    (CreateInstanceLockForNewInstance env playerGuid entries instanceId w).1 = Some lock ∧
    temporary (CreateInstanceLockForNewInstance env playerGuid entries instanceId w).2
      = slot_insert playerGuid (GetKey entries) lock (temporary w) ∧
    permanent (CreateInstanceLockForNewInstance env playerGuid entries instanceId w).2
      = permanent w ∧
    _instanceId lock = 0 ∧ _data lock = InstanceLockData_default.
Proof.
  intros Hs. unfold CreateInstanceLockForNewInstance. rewrite Hs. cbn [negb].
  destruct (IsInstanceIdBound entries).
  - unfold make_shared. cbv beta iota zeta. cbn [fst snd].
    eexists. split; [reflexivity|].
    change (temporary (TC_LOG ?l ?x)) with (temporary x).
    change (permanent (TC_LOG ?l ?x)) with (permanent x).
    match goal with |- context [temporary_reset ?g ?k ?l ?x] =>
      destruct (temporary_reset_stores g k l x) as [-> ->] end.
    repeat split.
  - cbn [fst snd]. eexists. split; [reflexivity|].
    change (temporary (TC_LOG ?l ?x)) with (temporary x).
    change (permanent (TC_LOG ?l ?x)) with (permanent x).
    match goal with |- context [temporary_reset ?g ?k ?l ?x] =>
      destruct (temporary_reset_stores g k l x) as [-> ->] end.
    repeat split.
Qed.

(** X9. A lock made by [CreateInstanceLockForNewInstance] never keeps
    its player out. If the player has no usable permanent lock under
    the key, then after the creation [CanJoinInstanceLock] allows every
    candidate instance, under each of the three disciplines; if the
    player has one, the creation does not change the answer. *)
Theorem CanJoinInstanceLock_after_create (env : Env) (playerGuid : Z)
    (entries : MapDb2Entries) (instanceId : Z) (w : World) (candidate : InstanceLock) :
  let w' := (CreateInstanceLockForNewInstance env playerGuid entries instanceId w).2 in
  (FindActiveInstanceLock env w playerGuid entries true true = None →
     CanJoinInstanceLock env w' playerGuid entries candidate = TRANSFER_ABORT_NONE) ∧
  (is_Some (FindActiveInstanceLock env w playerGuid entries true true) →
     CanJoinInstanceLock env w' playerGuid entries candidate
       = CanJoinInstanceLock env w playerGuid entries candidate).
Proof.
  cbv zeta. unfold CanJoinInstanceLock, FindActiveInstanceLock2.
  destruct (HasResetSchedule (MapDifficulty entries)) eqn:Hs; [|by split].
  cbn [negb].
  destruct (CreateInstanceLockForNewInstance_stores env playerGuid entries instanceId w Hs)
    as (lock & _ & Ht & Hp & Hid & Hd).
  rewrite !FindActiveInstanceLock_temporary_last.
  assert (FindActiveInstanceLock env
            (CreateInstanceLockForNewInstance env playerGuid entries instanceId w).2
            playerGuid entries true true
          = FindActiveInstanceLock env w playerGuid entries true true) as ->
    by (unfold FindActiveInstanceLock; rewrite Hp; reflexivity).
  split.
  - intros ->. rewrite Ht, FindInstanceLock_slot_lookup, slot_lookup_insert_eq.
    rewrite Hid, Hd. cbn. rewrite andb_false_r. by destruct (IsFlexLocking _).
  - intros [l ->]. reflexivity.
Qed.

(** Player 1, bound to instance 42 by a lock that expired, is given a
    lock for instance 43 and may enter it. *)
Lemma CanJoinInstanceLock_after_create_witness :
  CanJoinInstanceLock Sample.env
    (CreateInstanceLockForNewInstance Sample.env 1 Sample.raid 43
       (Sample.holding 1 Sample.raid
          (Sample.lock_with 42 0 false 0 None Sample.raid) Sample.start)).2
    1 Sample.raid (Sample.lock_with 43 Sample.tuesday_9 false 0 None Sample.raid)
  = TRANSFER_ABORT_NONE.
Proof.
  destruct (CanJoinInstanceLock_after_create Sample.env 1 Sample.raid 43
              (Sample.holding 1 Sample.raid
                 (Sample.lock_with 42 0 false 0 None Sample.raid) Sample.start)
              (Sample.lock_with 43 Sample.tuesday_9 false 0 None Sample.raid)) as [H _].
  apply H. reflexivity.
Defined.

(** ** Entering after an update *)

Lemma UpdateInstanceLockForPlayer_stored (env : Env) (trans : list Statement)
    (playerGuid : Z) (entries : MapDb2Entries) (updateEvent : InstanceLockUpdateEvent)
    (w : World) (b' : InstanceLock) (trans' : list Statement) (w' : World) :
  UpdateInstanceLockForPlayer env trans playerGuid entries updateEvent w
    = Ok (b', trans', w') →
  _instanceId b' = ev_InstanceId updateEvent ∧
  FindInstanceLock (permanent w') playerGuid entries = Some b'.
Proof.
  intros Hup.
  destruct (UpdateInstanceLockForPlayer_inv _ _ _ _ _ _ _ _ _ Hup)
    as (b & w1 & b1 & w2 & w3 & Hloc & Happ & Hre & _ & ->).
  split; [|rewrite FindInstanceLock_slot_lookup; apply slot_lookup_insert_eq].
  assert (_instanceId b = ev_InstanceId updateEvent) as Hid.
  { destruct (UpdateInstanceLockForPlayer_prior env w playerGuid entries) as [l|] eqn:Hprior.
    - destruct (UpdateInstanceLockForPlayer_locate_found _ _ _ _ _ _ _ _ Hloc Hprior)
        as [-> _]. reflexivity.
    - by destruct (UpdateInstanceLockForPlayer_locate_new _ _ _ _ _ _ _ Hloc Hprior)
        as (_ & _ & ? & _). }
  pose proof (UpdateInstanceLockForPlayer_apply_keeps playerGuid entries updateEvent b w1)
    as (_ & _ & Hid1 & _).
  cbv zeta in Hid1. rewrite Happ in Hid1. cbn [fst] in Hid1.
  destruct (UpdateInstanceLockForPlayer_reactivate_keeps _ _ _ _ _ _ _ _ Hre)
    as (_ & _ & Hid2 & _).
  congruence.
Qed.

(** X10. After [UpdateInstanceLockForPlayer] has returned, with a next
    reset time that is not before now, the returned lock is not
    expired and is the player's active lock for the lookup without
    flags. For an instance-bound dungeon with a reset schedule the
    player is then refused every candidate instance whose id differs
    from the event's instance id (when that is not zero), with
    LOCKED_TO_DIFFERENT_INSTANCE, and allowed the instance itself. *)
Theorem CanJoinInstanceLock_after_update (env : Env) (trans : list Statement)
    (playerGuid : Z) (entries : MapDb2Entries) (updateEvent : InstanceLockUpdateEvent)
    (w : World) (b' : InstanceLock) (trans' : list Statement) (w' : World) :
  UpdateInstanceLockForPlayer env trans playerGuid entries updateEvent w
    = Ok (b', trans', w') →
  GetSystemTime env ≤ GetNextResetTime env entries →
  IsExpired env b' = false ∧
  FindActiveInstanceLock2 env w' playerGuid entries = Some b' ∧
  (HasResetSchedule (MapDifficulty entries) = true →
   IsInstanceIdBound entries = true →
   ∀ candidate,
     (_instanceId candidate = ev_InstanceId updateEvent →
        CanJoinInstanceLock env w' playerGuid entries candidate = TRANSFER_ABORT_NONE) ∧
     (ev_InstanceId updateEvent ≠ 0 →
      _instanceId candidate ≠ ev_InstanceId updateEvent →
        CanJoinInstanceLock env w' playerGuid entries candidate
          = TRANSFER_ABORT_LOCKED_TO_DIFFERENT_INSTANCE)).
Proof.
  intros Hup Htime.
  destruct (UpdateInstanceLockForPlayer_stored _ _ _ _ _ _ _ _ _ Hup) as (Hid & Hperm).
  destruct (UpdateInstanceLockForPlayer_inv _ _ _ _ _ _ _ _ _ Hup)
    as (b & w1 & b1 & w2 & w3 & _ & _ & Hre & _ & _).
  assert (IsExpired env b' = false) as Hfresh.
  { destruct (UpdateInstanceLockForPlayer_reactivate_keeps _ _ _ _ _ _ _ _ Hre)
      as (_ & _ & _ & _ & _ & Hne & Hexp).
    destruct (IsExpired env b1) eqn:E.
    - destruct (Hexp eq_refl) as (_ & Ht & _). unfold IsExpired. rewrite Ht.
      by apply Z.ltb_ge.
    - by rewrite (Hne eq_refl). }
  assert (FindActiveInstanceLock2 env w' playerGuid entries = Some b') as Hact.
  { unfold FindActiveInstanceLock2, FindActiveInstanceLock. rewrite Hperm, Hfresh.
    reflexivity. }
  split; [exact Hfresh|]. split; [exact Hact|].
  intros Hs Hb candidate. unfold CanJoinInstanceLock. rewrite Hs, Hact. cbn [negb].
  unfold IsInstanceIdBound in Hb. apply andb_true_iff in Hb as [Hf He].
  apply negb_true_iff in Hf, He. rewrite Hf, He, Hid. cbn [negb andb]. split.
  - intros ->. rewrite Z.eqb_refl. cbn. by rewrite andb_false_r.
  - intros H0 Hne. apply Z.eqb_neq in H0. rewrite H0. cbn.
    destruct (Z.eqb_spec (ev_InstanceId updateEvent) (_instanceId candidate)) as [E|E];
      [congruence | reflexivity].
Qed.

(** Scenario 3: promoted into instance 42, player 1 is refused
    instance 43. *)
Lemma CanJoinInstanceLock_after_update_witness :
  ∃ b' trans' w',
    UpdateInstanceLockForPlayer Sample.env [] 1 Sample.raid Sample.kill3
      (CreateInstanceLockForNewInstance Sample.env 1 Sample.raid 42 Sample.start).2
    = Ok (b', trans', w') ∧
    CanJoinInstanceLock Sample.env w' 1 Sample.raid
      (Sample.lock_with 43 Sample.tuesday_9 false 0 None Sample.raid)
    = TRANSFER_ABORT_LOCKED_TO_DIFFERENT_INSTANCE.
Proof.
  destruct (UpdateInstanceLockForPlayer Sample.env [] 1 Sample.raid Sample.kill3
      (CreateInstanceLockForNewInstance Sample.env 1 Sample.raid 42 Sample.start).2)
    as [[[b' trans'] w']|] eqn:Hup; [|vm_compute in Hup; discriminate Hup].
  destruct (CanJoinInstanceLock_after_update _ _ _ _ _ _ _ _ _ Hup) as (_ & _ & H).
  { vm_compute. discriminate. }
  exists b', trans', w'. split; [reflexivity|].
  apply (H eq_refl eq_refl); vm_compute; discriminate.
Defined.

(** ** Nothing is deleted from instance2 once the manager unloads *)

Lemma quiet_refl (w : World) : quiet w w.
Proof. intros Hu. split; [exact Hu|]. exists []. by rewrite app_nil_r. Qed.

Lemma quiet_trans (w1 w2 w3 : World) : quiet w1 w2 → quiet w2 w3 → quiet w1 w3.
Proof.
  intros H12 H23 Hu. destruct (H12 Hu) as (Hu2 & l1 & E1 & F1).
  destruct (H23 Hu2) as (Hu3 & l2 & E2 & F2). split; [exact Hu3|].
  exists (l1 ++ l2). split; [by rewrite E2, E1, app_assoc | by apply Forall_app].
Qed.

Lemma quiet_same (w w' : World) :
  unloading w' = unloading w → CharacterDatabase w' = CharacterDatabase w → quiet w w'.
Proof.
  intros Hu' Hdb Hu. split; [congruence|]. exists []. by rewrite app_nil_r.
Qed.

Lemma quiet_only_heap (w w' : World) : (unloading w = true → only_heap w w') → quiet w w'.
Proof.
  intros H Hu. destruct (H Hu) as (Hm & Hdb & _). revert Hu. apply quiet_same; [|exact Hdb].
  unfold unloading. by rewrite Hm.
Qed.

Lemma quiet_PExecute (s : Statement) (w : World) :
  (∀ instanceId, s ≠ DELETE_instance2 instanceId) → quiet w (PExecute s w).
Proof.
  intros Hs Hu. split; [exact Hu|]. exists [s]. split; [reflexivity|].
  by apply Forall_singleton.
Qed.

Lemma quiet_shared_ptr_release (p : nat) (w : World) : quiet w (shared_ptr_release p w).
Proof. apply quiet_only_heap. apply shared_ptr_release_unloading. Qed.

Lemma quiet_destroy_old (old : option InstanceLock) (w : World) :
  quiet w (destroy_old old w).
Proof.
  destruct old as [o|]; [|apply quiet_refl]. apply quiet_only_heap.
  apply InstanceLock_dtor_unloading.
Qed.

Lemma quiet_permanent_reset (playerGuid : Z) (key : InstanceLockKey) (lock : InstanceLock)
    (w : World) :
  quiet w (permanent_reset playerGuid key lock w).
Proof.
  unfold permanent_reset. eapply quiet_trans; [|apply quiet_destroy_old].
  by apply quiet_same.
Qed.

Lemma quiet_temporary_reset (playerGuid : Z) (key : InstanceLockKey) (lock : InstanceLock)
    (w : World) :
  quiet w (temporary_reset playerGuid key lock w).
Proof.
  unfold temporary_reset. eapply quiet_trans; [|apply quiet_destroy_old].
  by apply quiet_same.
Qed.

Lemma quiet_shared_ptr_copy (p : nat) (w : World) : quiet w (shared_ptr_copy p w).
Proof. unfold shared_ptr_copy. destruct (heap w !! p); by apply quiet_same. Qed.

Lemma quiet_releases (ps : list nat) (w : World) :
  quiet w (foldl (λ w p, shared_ptr_release p w) w ps).
Proof.
  revert w. induction ps as [|p ps IH]; intros w; [apply quiet_refl|].
  cbn. eapply quiet_trans; [apply quiet_shared_ptr_release | apply IH].
Qed.

Lemma quiet_Unload (w : World) : quiet w (Unload w).
Proof.
  intros _. unfold Unload.
  pose proof (destroy_locks_unloading (owned_locks (permanent (set_unloading true w)))
                (set_unloading true w) eq_refl) as (Hm & Hdb & _ & _).
  split.
  - change (unloading (set_registry ?a (set_permanent ?b ?x))) with (unloading x).
    unfold unloading. rewrite Hm. reflexivity.
  - exists []. split; [|constructor].
    change (CharacterDatabase (set_registry ?a (set_permanent ?b ?x)))
      with (CharacterDatabase x).
    rewrite Hdb, app_nil_r. reflexivity.
Qed.

Lemma quiet_make_shared (d : SharedInstanceLockData) (w : World) :
  quiet w (make_shared d w).2.
Proof. by apply quiet_same. Qed.

Lemma quiet_CreateInstanceLockForNewInstance (env : Env) (playerGuid : Z)
    (entries : MapDb2Entries) (instanceId : Z) (w : World) :
  quiet w (CreateInstanceLockForNewInstance env playerGuid entries instanceId w).2.
Proof.
  unfold CreateInstanceLockForNewInstance.
  destruct (HasResetSchedule _); [|apply quiet_refl]. cbn [negb].
  destruct (IsInstanceIdBound entries).
  - unfold make_shared. cbv beta iota zeta. cbn [snd].
    eapply quiet_trans; [|by apply quiet_same].
    eapply quiet_trans; [|apply quiet_temporary_reset]. by apply quiet_same.
  - cbn [snd]. eapply quiet_trans; [|by apply quiet_same]. apply quiet_temporary_reset.
Qed.

Lemma quiet_UpdateInstanceLockExtensionForPlayer (env : Env) (playerGuid : Z)
    (entries : MapDb2Entries) (extended : bool) (w : World) :
  quiet w (UpdateInstanceLockExtensionForPlayer env playerGuid entries extended w).
Proof.
  unfold UpdateInstanceLockExtensionForPlayer.
  destruct (FindActiveInstanceLock _ _ _ _ _ _); [|apply quiet_refl].
  intros Hu. split; [exact Hu|]. eexists [_]. split; [reflexivity|].
  by apply Forall_singleton.
Qed.

Lemma quiet_UpdateSharedInstanceLock (env : Env) (trans : list Statement)
    (updateEvent : InstanceLockUpdateEvent) (w : World) (res : list Statement * World) :
  UpdateSharedInstanceLock env trans updateEvent w = Ok res → quiet w res.2.
Proof.
  unfold UpdateSharedInstanceLock.
  destruct (registry w !! _) as [p|]; [|discriminate].
  destruct (weak_get p w); [|discriminate].
  destruct (heap w !! p) as [cb|]; [|discriminate].
  destruct (InstanceId (object cb) =? _); [|discriminate]. cbn.
  destruct (CompletedEncounter updateEvent); intros [= <-]; by apply quiet_same.
Qed.

Lemma quiet_promote_temporary (playerGuid : Z) (entries : MapDb2Entries)
    (updateEvent : InstanceLockUpdateEvent) (w : World) :
  quiet w (promote_temporary playerGuid entries updateEvent w).2.
Proof.
  unfold promote_temporary.
  destruct (temporary w !! playerGuid) as [playerLocks|]; [|apply quiet_refl].
  destruct (playerLocks !! GetKey entries) as [l|]; [|apply quiet_refl].
  cbn [snd]. eapply quiet_trans; [apply (quiet_permanent_reset playerGuid (GetKey entries) l)|].
  case_decide; by apply quiet_same.
Qed.

Lemma quiet_UpdateInstanceLockForPlayer (env : Env) (trans : list Statement)
    (playerGuid : Z) (entries : MapDb2Entries) (updateEvent : InstanceLockUpdateEvent)
    (w : World) (res : InstanceLock * list Statement * World) :
  UpdateInstanceLockForPlayer env trans playerGuid entries updateEvent w = Ok res →
  quiet w res.2.
Proof.
  destruct res as [[b' trans'] w']. intros Hup.
  destruct (UpdateInstanceLockForPlayer_inv _ _ _ _ _ _ _ _ _ Hup)
    as (b & w1 & b1 & w2 & w3 & Hloc & Happ & Hre & _ & ->). cbn [snd].
  assert (quiet w w1) as H1.
  { revert Hloc. unfold UpdateInstanceLockForPlayer_locate.
    assert (quiet w
              (match FindActiveInstanceLock env w playerGuid entries true true with
               | Some l => (Some l, w)
               | None => promote_temporary playerGuid entries updateEvent w
               end).2) as Hq.
    { destruct (FindActiveInstanceLock _ _ _ _ _ _);
        [apply quiet_refl | apply quiet_promote_temporary]. }
    destruct (match FindActiveInstanceLock env w playerGuid entries true true with
              | Some l => (Some l, w)
              | None => promote_temporary playerGuid entries updateEvent w
              end) as [found w0]. cbn [snd] in Hq.
    destruct found as [l|].
    - destruct (IsInstanceIdBound entries).
      + destruct (_ || _); [|discriminate]. cbn.
        destruct (registry w0 !! _); [|discriminate].
        destruct (_sharedData l); [|discriminate].
        destruct (bool_decide _); [|discriminate]. cbn. intros [= _ <-]. exact Hq.
      + cbn. intros [= _ <-]. exact Hq.
    - destruct (IsInstanceIdBound entries).
      + destruct (registry w0 !! _) as [p|]; [|discriminate].
        destruct (negb (expired p w0)); [|discriminate]. cbn.
        destruct (match deref p (shared_ptr_copy p w0) with
                  | Some d => _ | None => false end); [|discriminate].
        cbn. intros [= _ <-].
        eapply quiet_trans; [exact Hq|].
        eapply quiet_trans; [apply quiet_shared_ptr_copy|].
        eapply quiet_trans; [apply quiet_permanent_reset|]. by apply quiet_same.
      + cbn. intros [= _ <-].
        eapply quiet_trans; [exact Hq|].
        eapply quiet_trans; [apply quiet_permanent_reset|]. by apply quiet_same. }
  assert (quiet w1 w2) as H2.
  { revert Happ. unfold UpdateInstanceLockForPlayer_apply.
    destruct (CompletedEncounter updateEvent); intros [= _ <-]; by apply quiet_same. }
  assert (quiet w2 w3) as H3.
  { revert Hre. unfold UpdateInstanceLockForPlayer_reactivate.
    destruct (IsExpired env b1).
    - destruct (_extended b1); [|discriminate]. cbn. intros [= _ <-]. by apply quiet_same.
    - intros [= _ <-]. apply quiet_refl. }
  eapply quiet_trans; [exact H1|]. eapply quiet_trans; [exact H2|].
  eapply quiet_trans; [exact H3|]. by apply quiet_same.
Qed.

Lemma quiet_Load (env : Env) (instanceRows : list InstanceRow) (lockRows : list LockRow)
    (w w' : World) :
  Load env instanceRows lockRows w = Ok w' → quiet w w'.
Proof.
  unfold Load.
  assert (∀ rows st, quiet st.2 (foldl (λ st row, Load_instance_row row st) st rows).2)
    as Hfirst.
  { induction rows as [|row rows IH]; intros st; [apply quiet_refl|].
    cbn [foldl]. eapply quiet_trans; [|apply IH].
    destruct st as [idx w0]. unfold Load_instance_row. cbn [snd].
    destruct (idx !! ir_instanceId row); cbn [snd].
    - eapply quiet_trans; [|apply quiet_shared_ptr_release]. apply (quiet_make_shared _ w0).
    - apply (quiet_make_shared _ w0). }
  assert (∀ idx rows w0 w1, Load_lock_rows env idx rows w0 = Ok w1 → quiet w0 w1)
    as Hsecond.
  { intros idx. induction rows as [|row rows IH]; intros w0 w1.
    - intros [= <-]. apply quiet_refl.
    - cbn [Load_lock_rows].
      destruct (Load_lock_row env idx row w0) as [w2|] eqn:Hrow; [|discriminate]. cbn.
      intros Hrest. eapply quiet_trans; [|by apply IH].
      revert Hrow. unfold Load_lock_row.
      destruct (MapDb2Entries_ctor _ _ _) as [entries|]; [|discriminate]. cbn.
      destruct (IsInstanceIdBound entries).
      + destruct (idx !! lr_instanceId row) as [p|].
        * intros [= <-]. eapply quiet_trans; [|apply quiet_permanent_reset].
          eapply quiet_trans; [|by apply quiet_same].
          eapply quiet_trans; [|apply quiet_shared_ptr_copy]. by apply quiet_same.
        * intros [= <-]. intros Hu. split; [exact Hu|]. eexists [_].
          split; [reflexivity|]. by apply Forall_singleton.
      + intros [= <-]. eapply quiet_trans; [|apply quiet_permanent_reset].
        by apply quiet_same. }
  specialize (Hfirst instanceRows (∅, w)). cbn [snd] in Hfirst.
  destruct (foldl _ (∅, w) instanceRows) as [idx w1]. cbn [snd] in Hfirst.
  destruct (Load_lock_rows env idx lockRows w1) as [w2|] eqn:H2; [|discriminate].
  cbn. intros [= <-].
  eapply quiet_trans; [exact Hfirst|].
  eapply quiet_trans; [by eapply Hsecond | apply quiet_releases].
Qed.

(** X11. Once the unloading flag is set, as [Unload] sets it, it stays
    set through every later call of the manager's operations, and no
    such call executes a DELETE FROM instance2 on the database,
    whatever locks and records it destroys: the statements executed
    from a state that unloads to any state reached from it contain no
    shared delete. *)
Theorem unloading_never_deletes_shared (w w' : World) :
  unloading w = true →
  rtc step w w' →
  unloading w' = true ∧
  ∃ l, CharacterDatabase w' = CharacterDatabase w ++ l ∧
       ∀ instanceId, DELETE_instance2 instanceId ∉ l.
Proof.
  intros Hu Hsteps.
  assert (quiet w w') as Hq.
  { clear Hu. induction Hsteps as [|w1 w2 w3 Hstep _ IH]; [apply quiet_refl|].
    eapply quiet_trans; [|exact IH]. destruct Hstep.
    - by eapply quiet_Load.
    - apply quiet_Unload.
    - apply quiet_CreateInstanceLockForNewInstance.
    - by eapply quiet_UpdateInstanceLockForPlayer.
    - by eapply quiet_UpdateSharedInstanceLock.
    - apply quiet_UpdateInstanceLockExtensionForPlayer. }
  destruct (Hq Hu) as (Hu' & l & Hl & Hall). split; [exact Hu'|].
  exists l. split; [exact Hl|]. intros instanceId Hin.
  rewrite Forall_forall in Hall. by apply (Hall _ Hin instanceId).
Qed.

(** Player 1 has a temporary lock with its record when the manager
    unloads; a second lock made for the player then destroys the first
    with its record, and nothing is executed. *)
Lemma unloading_never_deletes_shared_witness :
  let w := Unload (CreateInstanceLockForNewInstance Sample.env 1 Sample.raid 42
                     Sample.start).2 in
  let w' := (CreateInstanceLockForNewInstance Sample.env 1 Sample.raid 43 w).2 in
  expired 0 w = false ∧ expired 0 w' = true ∧
  unloading w' = true ∧
  ∃ l, CharacterDatabase w' = CharacterDatabase w ++ l ∧
       ∀ instanceId, DELETE_instance2 instanceId ∉ l.
Proof.
  cbv zeta. split; [reflexivity|]. split; [reflexivity|].
  apply (unloading_never_deletes_shared
           (Unload (CreateInstanceLockForNewInstance Sample.env 1 Sample.raid 42
                      Sample.start).2)); [reflexivity|].
  apply rtc_once. apply step_CreateInstanceLockForNewInstance.
Defined.

(** ** Load, from the two tables to the manager *)

Lemma NoDup_fmap_eq {A B} (f : A → B) (l : list A) (x y : A) :
  NoDup (f <$> l) → x ∈ l → y ∈ l → f x = f y → x = y.
Proof.
  induction l as [|a l IH]; intros Hnd Hx Hy Hf; [by apply elem_of_nil in Hx|].
  cbn in Hnd. apply NoDup_cons in Hnd as [Hnot Hnd].
  apply elem_of_cons in Hx as [->|Hx]; apply elem_of_cons in Hy as [->|Hy].
  - reflexivity.
  - exfalso. apply Hnot. rewrite Hf. by apply list_elem_of_fmap_2.
  - exfalso. apply Hnot. rewrite <- Hf. by apply list_elem_of_fmap_2.
  - by apply IH.
Qed.

(** The first loop, on rows with distinct instance ids: one new record
    per row, each owned by the index alone. *)
Lemma Load_instance_rows_index (rows : list InstanceRow) (w : World) :
  NoDup (ir_instanceId <$> rows) →
  let st := foldl (λ st row, Load_instance_row row st) (∅, w) rows in
  (∀ id p, st.1 !! id = Some p →
     ∃ ir, ir ∈ rows ∧ ir_instanceId ir = id ∧
           heap st.2 !! p = Some {| use_count := 1; object := record_of_row ir |}) ∧
  (∀ ir, ir ∈ rows → is_Some (st.1 !! ir_instanceId ir)) ∧
  (∀ id1 id2 p, st.1 !! id1 = Some p → st.1 !! id2 = Some p → id1 = id2) ∧
  sInstanceLockMgr st.2 = sInstanceLockMgr w ∧
  CharacterDatabase st.2 = CharacterDatabase w.
Proof.
  induction rows as [|row rows IH] using rev_ind; intros Hnd; cbv zeta.
  - cbn. repeat split; try (intros; simplify_map_eq; fail).
    intros ir Hin. by apply elem_of_nil in Hin.
  - rewrite fmap_app in Hnd. apply NoDup_app in Hnd as (Hnd & Hfresh & _).
    specialize (IH Hnd). cbv zeta in IH. rewrite foldl_snoc.
    destruct (foldl (λ st row, Load_instance_row row st) (∅, w) rows) as [idx w1].
    cbn [fst snd] in IH. destruct IH as (I1 & I2 & I3 & I4 & I5).
    assert (idx !! ir_instanceId row = None) as Hnone.
    { destruct (idx !! ir_instanceId row) as [p|] eqn:E; [|reflexivity].
      destruct (I1 _ _ E) as (ir & Hin & Hid & _). exfalso.
      apply (Hfresh (ir_instanceId row)).
      - rewrite <- Hid. by apply list_elem_of_fmap_2.
      - cbn. apply list_elem_of_singleton. reflexivity. }
    unfold Load_instance_row, make_shared. rewrite Hnone. cbn [fst snd].
    fold (record_of_row row).
    split; [|split; [|split; [|split]]].
    + intros id p Hp. destruct (decide (ir_instanceId row = id)) as [<-|Hne].
      * rewrite lookup_insert_eq in Hp. injection Hp as <-.
        exists row. split; [apply elem_of_app; right; by apply list_elem_of_singleton|].
        split; [reflexivity|]. cbn. rewrite lookup_app_r by lia.
        by rewrite Nat.sub_diag.
      * rewrite lookup_insert_ne in Hp by exact Hne.
        destruct (I1 _ _ Hp) as (ir & Hin & Hid & Hcell).
        exists ir. split; [apply elem_of_app; by left|]. split; [exact Hid|].
        cbn. rewrite lookup_app_l by (by eapply lookup_lt_Some). exact Hcell.
    + intros ir Hin. apply elem_of_app in Hin as [Hin|Hin].
      * destruct (decide (ir_instanceId row = ir_instanceId ir)) as [<-|Hne].
        -- rewrite lookup_insert_eq. eauto.
        -- rewrite lookup_insert_ne by exact Hne. by apply I2.
      * apply list_elem_of_singleton in Hin as ->. rewrite lookup_insert_eq. eauto.
    + intros id1 id2 p H1 H2.
      assert (∀ id, idx !! id = Some (length (heap w1)) → False) as Hold.
      { intros id E. destruct (I1 _ _ E) as (ir & _ & _ & Hcell).
        apply lookup_lt_Some in Hcell. lia. }
      destruct (decide (ir_instanceId row = id1)) as [<-|Hne1];
        destruct (decide (ir_instanceId row = id2)) as [<-|Hne2].
      * reflexivity.
      * rewrite lookup_insert_eq in H1. rewrite lookup_insert_ne in H2 by exact Hne2.
        injection H1 as <-. exfalso. by eapply Hold.
      * rewrite lookup_insert_eq in H2. rewrite lookup_insert_ne in H1 by exact Hne1.
        injection H2 as <-. exfalso. by eapply Hold.
      * rewrite lookup_insert_ne in H1 by exact Hne1.
        rewrite lookup_insert_ne in H2 by exact Hne2. by eapply I3.
    + exact I4.
    + exact I5.
Qed.

(** One turn of the second loop on a row whose slot is free. *)
Lemma Load_lock_row_free (env : Env) (idx : gmap Z nat) (row : LockRow) (w0 w1 : World) :
  slot_lookup (lr_guid row) (lr_mapId row, lr_lockId row) (permanent w0) = None →
  Load_lock_row env idx row w0 = Ok w1 →
  permanent w1
    = match Load_lock_row_slot env idx row with
      | Some l => slot_insert (lr_guid row) (lr_mapId row, lr_lockId row) l (permanent w0)
      | None => permanent w0
      end ∧
  (∀ q cb, heap w0 !! q = Some cb →
     ∃ cb', heap w1 !! q = Some cb' ∧ object cb' = object cb ∧
            (use_count cb ≤ use_count cb')%nat ∧
            (lock_row_shares env idx row q → use_count cb' = S (use_count cb)) ∧
            (¬ lock_row_shares env idx row q → use_count cb' = use_count cb)) ∧
  (∀ id, registry w1 !! id = registry w0 !! id ∨
         (∃ p, lock_row_shares env idx row p ∧ lr_instanceId row = id ∧
               registry w1 !! id = Some p)) ∧
  (∀ p, lock_row_shares env idx row p → registry w1 !! lr_instanceId row = Some p) ∧
  unloading w1 = unloading w0.
Proof.
  intros Hfree. unfold Load_lock_row, Load_lock_row_slot, lock_row_shares, lock_row_bound.
  destruct (MapDb2Entries_ctor env (lr_mapId row) (lr_difficulty row)) as [entries|];
    [|discriminate]. cbn.
  destruct (IsInstanceIdBound entries).
  - destruct (idx !! lr_instanceId row) as [p|] eqn:Hidx.
    + intros [= <-]. unfold permanent_reset.
      change (permanent (set_registry ?a ?x)) with (permanent x).
      unfold shared_ptr_copy.
      change (heap (RegisterInstanceId ?i ?x)) with (heap x).
      destruct (heap w0 !! p) as [cbp|] eqn:Hp.
      * change (permanent (set_heap ?a ?x)) with (permanent x).
        change (permanent (RegisterInstanceId ?a ?x)) with (permanent x).
        rewrite Hfree. cbn [destroy_old].
        split; [reflexivity|]. split; [|split; [|split; [|reflexivity]]].
        -- intros q cb Hq. cbn. destruct (decide (p = q)) as [<-|Hne].
           ++ rewrite list_lookup_insert_eq by (by eapply lookup_lt_Some).
              eexists. split; [reflexivity|]. cbn.
              assert (cbp = cb) as -> by congruence.
              split; [reflexivity|]. split; [lia|]. split; [reflexivity|].
              intros Hno. exfalso. apply Hno. by split.
           ++ rewrite list_lookup_insert_ne by exact Hne. exists cb.
              split; [exact Hq|]. split; [reflexivity|]. split; [lia|].
              split; [intros [_ [= ?]]; congruence | reflexivity].
        -- intros id. cbn. destruct (decide (lr_instanceId row = id)) as [<-|Hne].
           ++ right. exists p. split; [by split|].
              split; [reflexivity|]. apply lookup_insert_eq.
           ++ left. by apply lookup_insert_ne.
        -- intros p' [_ [= <-]]. cbn. apply lookup_insert_eq.
      * change (permanent (RegisterInstanceId ?a ?x)) with (permanent x).
        rewrite Hfree. cbn [destroy_old].
        split; [reflexivity|]. split; [|split; [|split; [|reflexivity]]].
        -- intros q cb Hq. cbn. exists cb. split; [exact Hq|]. split; [reflexivity|].
           split; [lia|]. split; [intros [_ [= ?]]; congruence | reflexivity].
        -- intros id. cbn. destruct (decide (lr_instanceId row = id)) as [<-|Hne].
           ++ right. exists p. split; [by split|].
              split; [reflexivity|]. apply lookup_insert_eq.
           ++ left. by apply lookup_insert_ne.
        -- intros p' [_ [= <-]]. cbn. apply lookup_insert_eq.
    + intros [= <-]. split; [reflexivity|]. split; [|split; [|split; [|reflexivity]]].
      * intros q cb Hq. exists cb. split; [exact Hq|]. split; [reflexivity|].
        split; [lia|]. split; [intros [_ [=]] | reflexivity].
      * intros id. by left.
      * intros p' [_ [=]].
  - intros [= <-]. unfold permanent_reset.
    change (permanent (RegisterInstanceId ?a ?x)) with (permanent x).
    rewrite Hfree. cbn [destroy_old].
    split; [reflexivity|]. split; [|split; [|split; [|reflexivity]]].
    + intros q cb Hq. exists cb. split; [exact Hq|]. split; [reflexivity|].
      split; [lia|]. split; [intros [[=] _] | reflexivity].
    + intros id. by left.
    + intros p' [[=] _].
Qed.

(** The second loop on rows with distinct keys whose slots are free. *)
Lemma Load_lock_rows_free (env : Env) (idx : gmap Z nat) (rows : list LockRow)
    (w0 w' : World) :
  NoDup (lock_row_key <$> rows) →
  (∀ r, r ∈ rows →
     slot_lookup (lr_guid r) (lr_mapId r, lr_lockId r) (permanent w0) = None) →
  Load_lock_rows env idx rows w0 = Ok w' →
  (∀ r, r ∈ rows →
     slot_lookup (lr_guid r) (lr_mapId r, lr_lockId r) (permanent w')
       = Load_lock_row_slot env idx r) ∧
  (∀ g k, (g, k) ∉ lock_row_key <$> rows →
     slot_lookup g k (permanent w') = slot_lookup g k (permanent w0)) ∧
  (∀ q cb, heap w0 !! q = Some cb →
     ∃ cb', heap w' !! q = Some cb' ∧ object cb' = object cb ∧
            (use_count cb ≤ use_count cb')%nat ∧
            ((∃ r, r ∈ rows ∧ lock_row_shares env idx r q) →
               (S (use_count cb) ≤ use_count cb')%nat) ∧
            ((∀ r, r ∈ rows → ¬ lock_row_shares env idx r q) →
               use_count cb' = use_count cb)) ∧
  (∀ id, registry w' !! id = registry w0 !! id ∨
         (∃ r p, r ∈ rows ∧ lock_row_shares env idx r p ∧ lr_instanceId r = id ∧
                 registry w' !! id = Some p)) ∧
  (∀ r p, r ∈ rows → lock_row_shares env idx r p →
          registry w' !! lr_instanceId r = Some p) ∧
  unloading w' = unloading w0.
Proof.
  revert w0. induction rows as [|row rows IH]; intros w0 Hnd Hfree.
  - intros [= <-]. split; [intros r Hin; by apply elem_of_nil in Hin|].
    split; [reflexivity|]. split; [|split; [by left | split; [|reflexivity]]].
    + intros q cb Hq. exists cb. split; [exact Hq|]. split; [reflexivity|].
      split; [lia|]. split; [|reflexivity].
      intros (r & Hin & _). by apply elem_of_nil in Hin.
    + intros r p Hin. by apply elem_of_nil in Hin.
  - cbn [Load_lock_rows].
    destruct (Load_lock_row env idx row w0) as [w1|] eqn:Hrow; [|discriminate]. cbn.
    intros Hrest. cbn in Hnd. apply NoDup_cons in Hnd as [Hnotin Hnd].
    destruct (Load_lock_row_free env idx row w0 w1)
      as (Hperm & Hheap & Hreg & Hregp & Hun); [apply Hfree; by left | exact Hrow |].
    assert (∀ g k, (g, k) ≠ lock_row_key row →
              slot_lookup g k (permanent w1) = slot_lookup g k (permanent w0)) as Hframe1.
    { intros g k Hne. rewrite Hperm. destruct (Load_lock_row_slot env idx row);
        [by apply slot_lookup_insert_ne | reflexivity]. }
    assert (slot_lookup (lr_guid row) (lr_mapId row, lr_lockId row) (permanent w1)
            = Load_lock_row_slot env idx row) as Hslot1.
    { rewrite Hperm. destruct (Load_lock_row_slot env idx row);
        [apply slot_lookup_insert_eq | apply Hfree; by left]. }
    destruct (IH w1 Hnd) as (B1 & B2 & B3 & B4 & B5 & B6); [|exact Hrest|].
    { intros r Hin. rewrite Hframe1; [apply Hfree; by right|].
      intros E. apply Hnotin. change (lr_guid r, (lr_mapId r, lr_lockId r))
        with (lock_row_key r) in E. rewrite <- E. by apply list_elem_of_fmap_2. }
    split; [|split; [|split; [|split; [|split]]]].
    + intros r Hin. apply elem_of_cons in Hin as [->|Hin]; [|by apply B1].
      rewrite B2; [exact Hslot1 | exact Hnotin].
    + intros g k Hk. cbn in Hk. apply not_elem_of_cons in Hk as [Hne Hk].
      rewrite B2 by exact Hk. by apply Hframe1.
    + intros q cb Hq. destruct (Hheap q cb Hq) as (cb1 & Hq1 & Ho1 & Hc1 & Hs1 & Hn1).
      destruct (B3 q cb1 Hq1) as (cb' & Hq' & Ho' & Hc' & Hs' & Hn').
      exists cb'. split; [exact Hq'|]. split; [congruence|]. split; [lia|]. split.
      * intros (r & Hin & Hshare). apply elem_of_cons in Hin as [->|Hin].
        -- rewrite (Hs1 Hshare) in Hc'. lia.
        -- assert (S (use_count cb1) ≤ use_count cb')%nat by (apply Hs'; by exists r).
           lia.
      * intros Hnone. rewrite Hn', Hn1; [reflexivity | |].
        -- apply Hnone. apply elem_of_cons. by left.
        -- intros r Hin. apply Hnone. apply elem_of_cons. by right.
    + intros id. destruct (B4 id) as [E|(r & p & Hin & Hshare & Hid & E)].
      * destruct (Hreg id) as [E1|(p & Hshare & Hid & E1)].
        -- left. congruence.
        -- right. exists row, p. split; [apply elem_of_cons; by left|].
           split; [exact Hshare|]. split; [exact Hid | congruence].
      * right. exists r, p. split; [apply elem_of_cons; by right|].
        split; [exact Hshare|]. split; [exact Hid | exact E].
    + intros r p Hin Hshare. apply elem_of_cons in Hin as [->|Hin]; [|by eapply B5].
      destruct (B4 (lr_instanceId row)) as [E|(r' & p' & _ & [_ Hidx'] & Hid & E)].
      * rewrite E. by apply Hregp.
      * rewrite E. destruct Hshare as [_ Hidx]. congruence.
    + congruence.
Qed.

Lemma releases_heap_frame (ps : list nat) (p : nat) (w : World) :
  p ∉ ps → heap (foldl (λ w p, shared_ptr_release p w) w ps) !! p = heap w !! p.
Proof.
  revert w. induction ps as [|q ps IH]; intros w Hnotin; [reflexivity|].
  apply not_elem_of_cons in Hnotin as [Hne Hnotin]. cbn.
  rewrite IH by exact Hnotin. apply shared_ptr_release_heap_ne. congruence.
Qed.

Lemma grows_releases (ps : list nat) (w : World) :
  grows w (foldl (λ w p, shared_ptr_release p w) w ps).
Proof.
  revert w. induction ps as [|p ps IH]; intros w; [apply grows_refl|].
  cbn. eapply grows_trans; [apply grows_shared_ptr_release | apply IH].
Qed.

(** The end of [Load]: the index lets go of its records, each once. *)
Lemma releases_final (ps : list nat) (w : World) :
  NoDup ps → unloading w = false →
  let w' := foldl (λ w p, shared_ptr_release p w) w ps in
  (∀ p cb, p ∈ ps → heap w !! p = Some cb → (2 ≤ use_count cb)%nat →
     ∃ cb', heap w' !! p = Some cb' ∧ object cb' = object cb ∧
            (1 ≤ use_count cb')%nat) ∧
  (∀ p cb, p ∈ ps → heap w !! p = Some cb → use_count cb = 1%nat →
     InstanceId (object cb) ≠ 0 →
     DELETE_instance2 (InstanceId (object cb)) ∈ CharacterDatabase w') ∧
  (∀ id, (∀ p cb, p ∈ ps → heap w !! p = Some cb → use_count cb = 1%nat →
                  InstanceId (object cb) ≠ id) →
     registry w' !! id = registry w !! id) ∧
  (∀ id v, registry w' !! id = Some v → registry w !! id = Some v) ∧
  permanent w' = permanent w.
Proof.
  revert w. induction ps as [|p ps IH]; intros w Hnd Hu; cbv zeta.
  - cbn. split; [intros p cb Hin; by apply elem_of_nil in Hin|].
    split; [intros p cb Hin; by apply elem_of_nil in Hin|]. by repeat split.
  - apply NoDup_cons in Hnd as [Hnotin Hnd]. cbn [foldl].
    set (w1 := shared_ptr_release p w).
    destruct (shared_ptr_release_stores p w) as (_ & Hperm1 & Hu1 & _). fold w1 in Hperm1, Hu1.
    assert (∀ q, q ∈ ps → heap w1 !! q = heap w !! q) as Hframe.
    { intros q Hq. apply shared_ptr_release_heap_ne. intros ->. contradiction. }
    destruct (IH w1 Hnd) as (C1 & C2 & C3 & C4 & C5); [congruence|].
    split; [|split; [|split; [|split]]].
    + intros q cb Hin Hq Hc. apply elem_of_cons in Hin as [->|Hin].
      * rewrite releases_heap_frame by exact Hnotin.
        by apply shared_ptr_release_keeps.
      * apply (C1 q cb); [exact Hin | by rewrite Hframe | exact Hc].
    + intros q cb Hin Hq Hc Hid. apply elem_of_cons in Hin as [->|Hin].
      * destruct (grows_releases ps w1) as [_ Hdb].
        eapply elem_of_prefix; [|exact Hdb].
        unfold w1. rewrite (shared_ptr_release_last _ _ _ Hq Hc).
        unfold SharedInstanceLockData_dtor.
        destruct (Z.eqb_spec (InstanceId (object cb)) 0) as [E|_]; [contradiction|].
        unfold OnSharedInstanceLockDataDelete.
        replace (unloading (set_heap _ w)) with (unloading w) by reflexivity.
        rewrite Hu. cbn. apply elem_of_app. right. by apply list_elem_of_singleton.
      * apply (C2 q cb); [exact Hin | by rewrite Hframe | exact Hc | exact Hid].
    + intros id Hid. rewrite C3.
      * destruct (shared_ptr_release_registry p w) as [E|(cb & Hp & Hc & _ & _ & E)];
          fold w1 in E; rewrite E; [reflexivity|].
        apply lookup_delete_ne. apply (Hid p cb); [by left | exact Hp | exact Hc].
      * intros q cb Hin Hq Hc. apply (Hid q cb); [by right | | exact Hc].
        by rewrite <- Hframe.
    + intros id v Hv. apply C4 in Hv.
      destruct (shared_ptr_release_registry p w) as [E|(cb & _ & _ & _ & _ & E)];
        fold w1 in E; rewrite E in Hv; [exact Hv|].
      destruct (decide (InstanceId (object cb) = id)) as [<-|Hne].
      * by rewrite lookup_delete_eq in Hv.
      * by rewrite lookup_delete_ne in Hv.
    + congruence.
Qed.

(** The second loop returns when the catalog has the map and difficulty
    of every row. *)
Lemma Load_lock_rows_returns (env : Env) (idx : gmap Z nat) (rows : list LockRow)
    (w : World) :
  (∀ r, r ∈ rows →
     ∃ entries, MapDb2Entries_ctor env (lr_mapId r) (lr_difficulty r) = Ok entries) →
  ∃ w', Load_lock_rows env idx rows w = Ok w'.
Proof.
  revert w. induction rows as [|row rows IH]; intros w Hcat; [by eexists|].
  cbn [Load_lock_rows].
  destruct (Hcat row) as [entries He]; [by left|].
  assert (∃ w1, Load_lock_row env idx row w = Ok w1) as [w1 ->].
  { unfold Load_lock_row. rewrite He. cbn.
    destruct (IsInstanceIdBound entries); [|by eexists].
    destruct (idx !! lr_instanceId row); by eexists. }
  cbn. apply IH. intros r Hr. apply Hcat. by right.
Qed.

(** What one turn of the second loop on a row whose slot is free adds to
    the log and to the executed statements. *)
Lemma Load_lock_row_free_log (env : Env) (idx : gmap Z nat) (row : LockRow)
    (w0 w1 : World) :
  slot_lookup (lr_guid row) (lr_mapId row, lr_lockId row) (permanent w0) = None →
  Load_lock_row env idx row w0 = Ok w1 →
  let ids := match Load_lock_row_slot env idx row with
             | Some _ => []
             | None => [lr_instanceId row]
             end in
  Log w1 = Log w0 ++ (ERROR_missing_instance_data <$> ids) ∧
  CharacterDatabase w1
    = CharacterDatabase w0 ++ (DELETE_character_instance_lock_instanceId <$> ids).
Proof.
  intros Hfree. unfold Load_lock_row, Load_lock_row_slot, lock_row_bound.
  destruct (MapDb2Entries_ctor env (lr_mapId row) (lr_difficulty row)) as [entries|];
    [|discriminate]. cbn.
  destruct (IsInstanceIdBound entries).
  - destruct (idx !! lr_instanceId row) as [p|].
    + intros [= <-]. unfold permanent_reset.
      change (permanent (set_registry ?a ?x)) with (permanent x).
      unfold shared_ptr_copy.
      change (heap (RegisterInstanceId ?i ?x)) with (heap x).
      destruct (heap w0 !! p);
        [change (permanent (set_heap ?a ?x)) with (permanent x)|];
        change (permanent (RegisterInstanceId ?a ?x)) with (permanent x);
        rewrite Hfree; cbn; by rewrite !app_nil_r.
    + intros [= <-]. split; reflexivity.
  - intros [= <-]. unfold permanent_reset.
    change (permanent (RegisterInstanceId ?a ?x)) with (permanent x).
    rewrite Hfree. cbn. by rewrite !app_nil_r.
Qed.

(** The second loop on rows with distinct keys whose slots are free: one
    error and one DELETE for every row that it leaves without lock, in
    the order of the rows, and nothing else. *)
Lemma Load_lock_rows_free_log (env : Env) (idx : gmap Z nat) (rows : list LockRow)
    (w0 w' : World) :
  NoDup (lock_row_key <$> rows) →
  (∀ r, r ∈ rows →
     slot_lookup (lr_guid r) (lr_mapId r, lr_lockId r) (permanent w0) = None) →
  Load_lock_rows env idx rows w0 = Ok w' →
  let ids := lr_instanceId <$>
               List.filter (λ r, bool_decide (Load_lock_row_slot env idx r = None)) rows in
  Log w' = Log w0 ++ (ERROR_missing_instance_data <$> ids) ∧
  CharacterDatabase w'
    = CharacterDatabase w0 ++ (DELETE_character_instance_lock_instanceId <$> ids).
Proof.
  revert w0. induction rows as [|row rows IH]; intros w0 Hnd Hfree; cbv zeta.
  - intros [= <-]. cbn. by rewrite !app_nil_r.
  - cbn [Load_lock_rows].
    destruct (Load_lock_row env idx row w0) as [w1|] eqn:Hrow; [|discriminate]. cbn.
    intros Hrest. cbn in Hnd. apply NoDup_cons in Hnd as [Hnotin Hnd].
    destruct (Load_lock_row_free env idx row w0 w1) as (Hperm & _);
      [apply Hfree; by left | exact Hrow |].
    destruct (Load_lock_row_free_log env idx row w0 w1) as [Hl1 Hd1];
      [apply Hfree; by left | exact Hrow |].
    destruct (IH w1 Hnd) as [Hl Hd]; [|exact Hrest|].
    { intros r Hin. rewrite Hperm.
      assert ((lr_guid r, (lr_mapId r, lr_lockId r)) ≠ lock_row_key row) as Hne.
      { intros E. apply Hnotin. change (lr_guid r, (lr_mapId r, lr_lockId r))
          with (lock_row_key r) in E. rewrite <- E. by apply list_elem_of_fmap_2. }
      destruct (Load_lock_row_slot env idx row);
        [rewrite slot_lookup_insert_ne by exact Hne|]; apply Hfree; by right. }
    rewrite Hl, Hd, Hl1, Hd1.
    destruct (Load_lock_row_slot env idx row) as [l|]; cbn;
      rewrite <- ?app_assoc; split; reflexivity.
Qed.

(** What the releases at the end of [Load] add to the log and to the
    executed statements: the lines of the records they destroy. *)
Lemma shared_ptr_release_log (p : nat) (w : World) :
  ∃ ids, Log (shared_ptr_release p w) = Log w ++ (DEBUG_deleting_instance <$> ids) ∧
         CharacterDatabase (shared_ptr_release p w)
           = CharacterDatabase w ++ (DELETE_instance2 <$> ids).
Proof.
  assert (∀ w', Log w' = Log w → CharacterDatabase w' = CharacterDatabase w →
            ∃ ids, Log w' = Log w ++ (DEBUG_deleting_instance <$> ids) ∧
                   CharacterDatabase w' = CharacterDatabase w ++ (DELETE_instance2 <$> ids))
    as Hsame.
  { intros w' -> ->. exists []. cbn. by rewrite !app_nil_r. }
  unfold shared_ptr_release. destruct (heap w !! p) as [cb|]; [|by apply Hsame].
  destruct (use_count cb) as [|[|n]]; [by apply Hsame | | by apply Hsame].
  unfold SharedInstanceLockData_dtor. destruct (_ =? 0); [by apply Hsame|].
  unfold OnSharedInstanceLockDataDelete.
  match goal with |- context [if ?b then _ else _] => destruct b end;
    [by apply Hsame|].
  exists [InstanceId (object cb)]. split; reflexivity.
Qed.

Lemma releases_log (ps : list nat) (w : World) :
  let w' := foldl (λ w p, shared_ptr_release p w) w ps in
  ∃ ids, Log w' = Log w ++ (DEBUG_deleting_instance <$> ids) ∧
         CharacterDatabase w' = CharacterDatabase w ++ (DELETE_instance2 <$> ids).
Proof.
  cbv zeta. revert w. induction ps as [|p ps IH]; intros w.
  - exists []. cbn. by rewrite !app_nil_r.
  - cbn [foldl]. destruct (IH (shared_ptr_release p w)) as (ids2 & Hl2 & Hd2).
    destruct (shared_ptr_release_log p w) as (ids1 & Hl1 & Hd1).
    exists (ids1 ++ ids2). rewrite Hl2, Hd2, Hl1, Hd1, !fmap_app, <- !app_assoc.
    split; reflexivity.
Qed.

(** The releases at the end of [Load] keep the permanent store, and
    every record that has another owner. *)
Lemma releases_keep (ps : list nat) (w : World) :
  NoDup ps →
  let w' := foldl (λ w p, shared_ptr_release p w) w ps in
  (∀ p cb, p ∈ ps → heap w !! p = Some cb → (2 ≤ use_count cb)%nat →
     ∃ cb', heap w' !! p = Some cb' ∧ object cb' = object cb ∧
            (1 ≤ use_count cb')%nat) ∧
  permanent w' = permanent w.
Proof.
  revert w. induction ps as [|p ps IH]; intros w Hnd; cbv zeta.
  - cbn. split; [intros p cb Hin; by apply elem_of_nil in Hin | reflexivity].
  - apply NoDup_cons in Hnd as [Hnotin Hnd]. cbn [foldl].
    destruct (shared_ptr_release_stores p w) as (_ & Hperm1 & _).
    destruct (IH (shared_ptr_release p w) Hnd) as [C1 C5]. split; [|congruence].
    intros q cb Hin Hq Hc. apply elem_of_cons in Hin as [->|Hin].
    + rewrite releases_heap_frame by exact Hnotin. by apply shared_ptr_release_keeps.
    + apply (C1 q cb); [exact Hin | | exact Hc].
      rewrite shared_ptr_release_heap_ne; [exact Hq|]. intros ->. contradiction.
Qed.

(** The first loop, on rows with distinct instance ids, logs nothing. *)
Lemma Load_instance_rows_Log (rows : list InstanceRow) (w : World) :
  NoDup (ir_instanceId <$> rows) →
  Log (foldl (λ st row, Load_instance_row row st) (∅, w) rows).2 = Log w.
Proof.
  induction rows as [|row rows IH] using rev_ind; intros Hnd; [reflexivity|].
  rewrite fmap_app in Hnd. apply NoDup_app in Hnd as (Hnd & Hfresh & _).
  pose proof (Load_instance_rows_index rows w Hnd) as HA. cbv zeta in HA.
  specialize (IH Hnd). rewrite foldl_snoc.
  destruct (foldl (λ st row, Load_instance_row row st) (∅, w) rows) as [idx w1].
  cbn [fst snd] in *. destruct HA as (I1 & _).
  assert (idx !! ir_instanceId row = None) as Hnone.
  { destruct (idx !! ir_instanceId row) as [p|] eqn:E; [|reflexivity].
    destruct (I1 _ _ E) as (ir & Hin & Hid & _). exfalso.
    apply (Hfresh (ir_instanceId row)).
    - rewrite <- Hid. by apply list_elem_of_fmap_2.
    - cbn. apply list_elem_of_singleton. reflexivity. }
  unfold Load_instance_row, make_shared. rewrite Hnone. exact IH.
Qed.

(** C9. [Load] from tables with distinct primary keys into a manager
    without permanent locks returns whenever the catalog has the map and
    difficulty of every row of character_instance_lock; an orphaned row,
    whose map and difficulty are instance-bound and whose instance id
    has no row in the instance table, and so no record in the index that
    the first loop builds, does not stop it. For every orphaned row, and
    for no other row, [Load] logs the error of the missing instance data
    and executes the DELETE on character_instance_lock for the row's
    instance id, in the order of the rows; besides these the log and the
    executed statements gain only the lines of the records destroyed
    when the index goes out of scope. An orphaned row has no lock in its
    slot of the permanent store. A row of an instance-bound map whose
    instance id has a row in the instance table has in its slot the lock
    made from it, which owns the record made from the instance's row:
    this record is alive after [Load], when the index has let go of
    it. *)
Theorem Load_instance_bound_rows (env : Env) (instanceRows : list InstanceRow)
    (lockRows : list LockRow) (w : World) :
  permanent w = ∅ →
  NoDup (ir_instanceId <$> instanceRows) →
  NoDup (lock_row_key <$> lockRows) →
  (∀ r, r ∈ lockRows →
     ∃ entries, MapDb2Entries_ctor env (lr_mapId r) (lr_difficulty r) = Ok entries) →
  ∃ w' destroyed,
    Load env instanceRows lockRows w = Ok w' ∧
    Log w' = Log w
             ++ (ERROR_missing_instance_data
                   <$> orphaned_instance_ids env instanceRows lockRows)
             ++ (DEBUG_deleting_instance <$> destroyed) ∧
    CharacterDatabase w'
      = CharacterDatabase w
        ++ (DELETE_character_instance_lock_instanceId
              <$> orphaned_instance_ids env instanceRows lockRows)
        ++ (DELETE_instance2 <$> destroyed) ∧
    (∀ r, r ∈ lockRows → lock_row_orphaned env instanceRows r = true →
       slot_lookup (lr_guid r) (lr_mapId r, lr_lockId r) (permanent w') = None) ∧
    (∀ r ir, r ∈ lockRows → ir ∈ instanceRows → lock_row_bound env r = true →
       lr_instanceId r = ir_instanceId ir →
       ∃ p cb,
         slot_lookup (lr_guid r) (lr_mapId r, lr_lockId r) (permanent w')
           = Some (lock_of_row r (Some p)) ∧
         heap w' !! p = Some cb ∧ (1 ≤ use_count cb)%nat ∧
         object cb = record_of_row ir).
Proof.
  intros Hperm Hnd1 Hnd2 Hcat. unfold Load.
  pose proof (Load_instance_rows_index instanceRows w Hnd1) as HA. cbv zeta in HA.
  pose proof (Load_instance_rows_Log instanceRows w Hnd1) as HL.
  destruct (foldl (λ st row, Load_instance_row row st) (∅, w) instanceRows) as [idx w1].
  cbn [fst snd] in HA, HL. destruct HA as (A1 & A2 & A3 & A4 & A5).
  destruct (Load_lock_rows_returns env idx lockRows w1 Hcat) as [w2 Hrows].
  rewrite Hrows. cbn.
  assert (permanent w1 = ∅) as Hperm1 by (unfold permanent; rewrite A4; exact Hperm).
  assert (∀ r, r ∈ lockRows →
            slot_lookup (lr_guid r) (lr_mapId r, lr_lockId r) (permanent w1) = None)
    as Hfree by (intros r _; rewrite Hperm1; reflexivity).
  destruct (Load_lock_rows_free env idx lockRows w1 w2 Hnd2 Hfree Hrows)
    as (B1 & _ & B3 & _).
  destruct (Load_lock_rows_free_log env idx lockRows w1 w2 Hnd2 Hfree Hrows)
    as [Hlog2 Hdb2].
  assert (NoDup (map_to_list idx).*2) as Hndp.
  { apply NoDup_fmap_2_strong; [|apply NoDup_map_to_list].
    intros [id1 p1] [id2 p2] H1 H2 E. cbn in E. subst p2.
    apply elem_of_map_to_list in H1, H2. by rewrite (A3 _ _ _ H1 H2). }
  destruct (releases_keep (map_to_list idx).*2 w2 Hndp) as [C1 C5].
  destruct (releases_log (map_to_list idx).*2 w2) as (destroyed & Hlog3 & Hdb3).
  set (w' := foldl (λ w p, shared_ptr_release p w) w2 (map_to_list idx).*2) in *.
  (* the index has a record exactly for the ids of the instance table *)
  assert (∀ id, idx !! id = None ↔ id ∉ ir_instanceId <$> instanceRows) as Hidx.
  { intros id. split.
    - intros Hnone Hin. apply list_elem_of_fmap in Hin as (ir & -> & Hir).
      destruct (A2 ir Hir) as [p Hp]. congruence.
    - intros Hnotin. destruct (idx !! id) as [p|] eqn:E; [|reflexivity].
      destruct (A1 _ _ E) as (ir & Hir & <- & _). exfalso. apply Hnotin.
      by apply list_elem_of_fmap_2. }
  assert (∀ r, bool_decide (Load_lock_row_slot env idx r = None)
               = lock_row_orphaned env instanceRows r) as Horph.
  { intros r. unfold Load_lock_row_slot, lock_row_orphaned.
    destruct (lock_row_bound env r); cbn; [|reflexivity].
    apply bool_decide_ext. rewrite <- Hidx.
    destruct (idx !! lr_instanceId r); split; congruence. }
  assert (lr_instanceId <$>
            List.filter (λ r, bool_decide (Load_lock_row_slot env idx r = None)) lockRows
          = orphaned_instance_ids env instanceRows lockRows) as Hids.
  { unfold orphaned_instance_ids. f_equal. apply List.filter_ext. exact Horph. }
  cbv zeta in Hlog2, Hdb2. rewrite Hids in Hlog2, Hdb2.
  exists w', destroyed. split; [reflexivity|].
  split; [rewrite Hlog3, Hlog2, HL, <- app_assoc; reflexivity|].
  split; [rewrite Hdb3, Hdb2, A5, <- app_assoc; reflexivity|].
  split.
  - intros r Hr Ho. rewrite C5, (B1 r Hr). rewrite <- Horph in Ho.
    by apply bool_decide_eq_true in Ho.
  - intros r ir Hr Hir Hb Hid.
    destruct (A2 ir Hir) as [p Hp].
    destruct (A1 _ _ Hp) as (ir' & Hir' & Hid' & Hcell).
    assert (ir' = ir) as -> by (by eapply (NoDup_fmap_eq ir_instanceId instanceRows)).
    destruct (B3 _ _ Hcell) as (cb & Hcb & Ho & _ & Hs & _). cbn in Ho, Hs.
    assert (lock_row_shares env idx r p) as Hshare by (split; [exact Hb | by rewrite Hid]).
    destruct (C1 p cb) as (cb' & Hcb' & Ho' & Hc'); [| exact Hcb | apply Hs; eauto |].
    { apply list_elem_of_fmap. exists (ir_instanceId ir, p).
      split; [reflexivity | by apply elem_of_map_to_list]. }
    exists p, cb'. rewrite C5, (B1 r Hr). unfold Load_lock_row_slot.
    rewrite Hb, Hid, Hp. split; [reflexivity|].
    split; [exact Hcb'|]. split; [exact Hc' | congruence].
Qed.

(** The sample tables: the row of player 2 for instance 77 is orphaned,
    the row of player 1 for instance 9 is not; instance 10 has no owner
    left when the index goes out of scope. *)
Lemma Load_instance_bound_rows_witness :
  ∃ w' destroyed p cb,
    Load Sample.env SampleTables.instances SampleTables.locks Sample.start = Ok w' ∧
    Log w' = [ERROR_missing_instance_data 77] ++ (DEBUG_deleting_instance <$> destroyed) ∧
    CharacterDatabase w'
      = [DELETE_character_instance_lock_instanceId 77] ++ (DELETE_instance2 <$> destroyed) ∧
    slot_lookup 2 (100, 7) (permanent w') = None ∧
    slot_lookup 1 (100, 7) (permanent w')
      = Some (lock_of_row SampleTables.bound_row (Some p)) ∧
    heap w' !! p = Some cb ∧ (1 ≤ use_count cb)%nat.
Proof.
  destruct (Load_instance_bound_rows Sample.env SampleTables.instances SampleTables.locks
              Sample.start eq_refl)
    as (w' & destroyed & Hload & Hlog & Hdb & Horphan & Hbound).
  - repeat (apply NoDup_cons; split;
              [intros H; repeat (apply elem_of_cons in H as [H|H]; [discriminate H|]);
               by apply elem_of_nil in H|]).
    apply NoDup_nil. exact I.
  - repeat (apply NoDup_cons; split;
              [intros H; repeat (apply elem_of_cons in H as [H|H]; [discriminate H|]);
               by apply elem_of_nil in H|]).
    apply NoDup_nil. exact I.
  - intros r Hr. exists Sample.raid.
    apply elem_of_cons in Hr as [->|Hr]; [reflexivity|].
    apply elem_of_cons in Hr as [->|Hr]; [reflexivity|].
    by apply elem_of_nil in Hr.
  - destruct (Hbound SampleTables.bound_row
                {| ir_instanceId := 9; ir_data := "nine"; ir_completedEncountersMask := 1 |})
      as (p & cb & Hslot & Hcb & Hc & _).
    + apply elem_of_cons. by left.
    + apply elem_of_cons. by left.
    + reflexivity.
    + reflexivity.
    + exists w', destroyed, p, cb. split; [exact Hload|].
      split; [exact Hlog|]. split; [exact Hdb|].
      split; [|split; [exact Hslot | split; [exact Hcb | exact Hc]]].
      apply (Horphan SampleTables.orphan_row); [|reflexivity].
      apply elem_of_cons. right. apply elem_of_cons. by left.
Defined.

(** X12. [Load] into a manager without permanent locks and registry
    entries, not unloading, from tables whose primary keys are
    distinct, when it returns:
    - a row of an instance-bound map whose instance has its row in the
      instance table has its lock in the permanent store, under the
      row's player and key; the lock owns the record made from the
      instance's row, which is alive, and the registry refers to that
      record under the instance id;
    - an instance whose id is not zero and which no instance-bound row
      refers to has had its record destroyed when the index went out of
      scope: a DELETE FROM instance2 has been executed for it and the
      registry has no entry for it;
    - an orphaned row has no lock in its slot;
    - a row of a map that is not instance-bound has its lock, without a
      shared record, in its slot. *)
Theorem Load_from_tables (env : Env) (instanceRows : list InstanceRow)
    (lockRows : list LockRow) (w w' : World) :
  permanent w = ∅ → registry w = ∅ → unloading w = false →
  NoDup (ir_instanceId <$> instanceRows) →
  NoDup (lock_row_key <$> lockRows) →
  Load env instanceRows lockRows w = Ok w' →
  (∀ r ir, r ∈ lockRows → ir ∈ instanceRows → lock_row_bound env r = true →
     lr_instanceId r = ir_instanceId ir →
     ∃ p cb,
       slot_lookup (lr_guid r) (lr_mapId r, lr_lockId r) (permanent w')
         = Some (lock_of_row r (Some p)) ∧
       registry w' !! lr_instanceId r = Some p ∧
       heap w' !! p = Some cb ∧ (1 ≤ use_count cb)%nat ∧
       object cb = record_of_row ir) ∧
  (∀ ir, ir ∈ instanceRows → ir_instanceId ir ≠ 0 →
     (∀ r, r ∈ lockRows → lock_row_bound env r = true →
           lr_instanceId r ≠ ir_instanceId ir) →
     DELETE_instance2 (ir_instanceId ir) ∈ CharacterDatabase w' ∧
     registry w' !! ir_instanceId ir = None) ∧
  (∀ r, r ∈ lockRows → lock_row_bound env r = true →
     (∀ ir, ir ∈ instanceRows → ir_instanceId ir ≠ lr_instanceId r) →
     slot_lookup (lr_guid r) (lr_mapId r, lr_lockId r) (permanent w') = None) ∧
  (∀ r, r ∈ lockRows → lock_row_bound env r = false →
     slot_lookup (lr_guid r) (lr_mapId r, lr_lockId r) (permanent w')
       = Some (lock_of_row r None)).
Proof.
  intros Hperm Hreg Hu Hnd1 Hnd2. unfold Load.
  pose proof (Load_instance_rows_index instanceRows w Hnd1) as HA. cbv zeta in HA.
  destruct (foldl (λ st row, Load_instance_row row st) (∅, w) instanceRows) as [idx w1].
  cbn [fst snd] in HA. destruct HA as (A1 & A2 & A3 & A4 & _).
  destruct (Load_lock_rows env idx lockRows w1) as [w2|] eqn:Hrows; [|discriminate].
  cbn. intros [= <-].
  assert (permanent w1 = ∅) as Hperm1 by (unfold permanent; rewrite A4; exact Hperm).
  assert (registry w1 = ∅) as Hreg1 by (unfold registry; rewrite A4; exact Hreg).
  assert (unloading w1 = false) as Hu1 by (unfold unloading; rewrite A4; exact Hu).
  destruct (Load_lock_rows_free env idx lockRows w1 w2 Hnd2)
    as (B1 & _ & B3 & B4 & B5 & B6); [|exact Hrows|].
  { intros r _. rewrite Hperm1. reflexivity. }
  assert (NoDup (map_to_list idx).*2) as Hndp.
  { apply NoDup_fmap_2_strong; [|apply NoDup_map_to_list].
    intros [id1 p1] [id2 p2] H1 H2 E. cbn in E. subst p2.
    apply elem_of_map_to_list in H1, H2. by rewrite (A3 _ _ _ H1 H2). }
  assert (∀ id p, idx !! id = Some p → p ∈ (map_to_list idx).*2) as Hin.
  { intros id p Hp. apply list_elem_of_fmap. exists (id, p).
    split; [reflexivity | by apply elem_of_map_to_list]. }
  assert (∀ p, p ∈ (map_to_list idx).*2 → ∃ id, idx !! id = Some p) as Hin'.
  { intros p Hp. apply list_elem_of_fmap in Hp as ([id p'] & -> & Hp).
    exists id. by apply elem_of_map_to_list. }
  destruct (releases_final (map_to_list idx).*2 w2 Hndp) as (C1 & C2 & C3 & C4 & C5);
    [congruence|].
  set (w' := foldl (λ w p, shared_ptr_release p w) w2 (map_to_list idx).*2) in *.
  (* the record of an instance row, after the second loop *)
  assert (∀ ir, ir ∈ instanceRows →
            ∃ p cb, idx !! ir_instanceId ir = Some p ∧ heap w2 !! p = Some cb ∧
                    object cb = record_of_row ir ∧ (1 ≤ use_count cb)%nat ∧
                    ((∃ r, r ∈ lockRows ∧ lock_row_shares env idx r p) →
                       (2 ≤ use_count cb)%nat) ∧
                    ((∀ r, r ∈ lockRows → ¬ lock_row_shares env idx r p) →
                       use_count cb = 1%nat)) as Hrec.
  { intros ir Hir. destruct (A2 ir Hir) as [p Hp]. exists p.
    destruct (A1 _ _ Hp) as (ir' & Hir' & Hid' & Hcell).
    assert (ir' = ir) as -> by (by eapply (NoDup_fmap_eq ir_instanceId instanceRows)).
    destruct (B3 _ _ Hcell) as (cb & Hcb & Ho & Hc & Hs & Hn). exists cb.
    split; [exact Hp|]. split; [exact Hcb|]. split; [exact Ho|].
    cbn in Hc, Hs, Hn. split; [exact Hc|]. split; [exact Hs | exact Hn]. }
  split; [|split; [|split]].
  - intros r ir Hr Hir Hb Hid.
    destruct (Hrec ir Hir) as (p & cb & Hp & Hcb & Ho & _ & Hs & _).
    assert (lock_row_shares env idx r p) as Hshare by (split; [exact Hb | by rewrite Hid]).
    destruct (C1 p cb (Hin _ _ Hp) Hcb) as (cb' & Hcb' & Ho' & Hc'); [apply Hs; eauto|].
    exists p, cb'. rewrite C5, (B1 r Hr). unfold Load_lock_row_slot.
    rewrite Hb, Hid, Hp. split; [reflexivity|]. rewrite <- Hid.
    split; [|split; [exact Hcb' | split; [exact Hc' | congruence]]].
    rewrite C3; [by eapply B5|].
    intros q cbq Hq Hcbq Hcq Eq. destruct (Hin' q Hq) as [id' Hid'].
    destruct (A1 _ _ Hid') as (ir' & Hir' & Hir'id & Hcell').
    destruct (B3 _ _ Hcell') as (cbq' & Hcbq' & Hoq & _).
    assert (cbq' = cbq) as -> by congruence.
    rewrite Hoq in Eq. cbn in Eq.
    assert (q = p) as -> by congruence.
    assert (cbq = cb) as -> by congruence.
    assert (2 ≤ use_count cb)%nat by (apply Hs; eauto). lia.
  - intros ir Hir Hne Hnone.
    destruct (Hrec ir Hir) as (p & cb & Hp & Hcb & Ho & _ & _ & Hn).
    assert (use_count cb = 1%nat) as Hc.
    { apply Hn. intros r Hr [Hb Hidx]. apply (Hnone r Hr Hb).
      destruct (A1 _ _ Hidx) as (ir' & Hir' & Hid' & _).
      by rewrite (A3 _ _ _ Hidx Hp). }
    split.
    + replace (ir_instanceId ir) with (InstanceId (object cb)) by (by rewrite Ho).
      apply (C2 p cb (Hin _ _ Hp) Hcb Hc). by rewrite Ho.
    + destruct (registry w' !! ir_instanceId ir) as [v|] eqn:E; [|reflexivity].
      apply C4 in E.
      destruct (B4 (ir_instanceId ir)) as [E2|(r & p' & Hr & [Hb _] & Hid & _)].
      * rewrite E2, Hreg1 in E. by rewrite lookup_empty in E.
      * exfalso. by apply (Hnone r Hr Hb).
  - intros r Hr Hb Hnone. rewrite C5, (B1 r Hr). unfold Load_lock_row_slot. rewrite Hb.
    destruct (idx !! lr_instanceId r) as [p|] eqn:Hp; [|reflexivity].
    destruct (A1 _ _ Hp) as (ir & Hir & Hid & _). exfalso. by apply (Hnone ir Hir).
  - intros r Hr Hb. rewrite C5, (B1 r Hr). unfold Load_lock_row_slot. by rewrite Hb.
Qed.

(** Instance 9 is kept for player 1, instance 10 is deleted. *)
Lemma Load_from_tables_witness :
  ∃ w' p cb,
    Load Sample.env SampleTables.instances SampleTables.locks Sample.start = Ok w' ∧
    registry w' !! 9 = Some p ∧ heap w' !! p = Some cb ∧ (1 ≤ use_count cb)%nat ∧
    DELETE_instance2 10 ∈ CharacterDatabase w' ∧
    slot_lookup 2 (100, 7) (permanent w') = None.
Proof.
  destruct (Load Sample.env SampleTables.instances SampleTables.locks Sample.start)
    as [w'|] eqn:Hload; [|vm_compute in Hload; discriminate Hload].
  destruct (Load_from_tables Sample.env SampleTables.instances SampleTables.locks
              Sample.start w' eq_refl eq_refl eq_refl) as (H1 & H2 & H3 & _).
  - repeat (apply NoDup_cons; split;
              [intros H; repeat (apply elem_of_cons in H as [H|H]; [discriminate H|]);
               by apply elem_of_nil in H|]).
    apply NoDup_nil. exact I.
  - repeat (apply NoDup_cons; split;
              [intros H; repeat (apply elem_of_cons in H as [H|H]; [discriminate H|]);
               by apply elem_of_nil in H|]).
    apply NoDup_nil. exact I.
  - exact Hload.
  - destruct (H1 SampleTables.bound_row
                {| ir_instanceId := 9; ir_data := "nine"; ir_completedEncountersMask := 1 |})
      as (p & cb & _ & Hreg & Hcb & Hc & _).
    + apply elem_of_cons. by left.
    + apply elem_of_cons. by left.
    + reflexivity.
    + reflexivity.
    + exists w', p, cb. split; [reflexivity|]. split; [exact Hreg|].
      split; [exact Hcb|]. split; [exact Hc|]. split.
      * apply (H2 {| ir_instanceId := 10; ir_data := "ten";
                     ir_completedEncountersMask := 0 |}).
        -- apply elem_of_cons. right. apply elem_of_cons. by left.
        -- cbn. lia.
        -- intros r Hr _. apply elem_of_cons in Hr as [->|Hr]; [cbn; lia|].
           apply elem_of_cons in Hr as [->|Hr]; [cbn; lia|].
           by apply elem_of_nil in Hr.
      * apply (H3 SampleTables.orphan_row).
        -- apply elem_of_cons. right. apply elem_of_cons. by left.
        -- reflexivity.
        -- intros ir Hir. apply elem_of_cons in Hir as [->|Hir]; [cbn; lia|].
           apply elem_of_cons in Hir as [->|Hir]; [cbn; lia|].
           by apply elem_of_nil in Hir.
Defined.

(** ** Active means not past the effective expiry *)

(** X13. Take a lock whose effective expiry time is defined, a next
    reset time of its map and difficulty that is not before now, and a
    raid duration that is not negative. Then the lock is usable (not
    expired, or extended) exactly when now is not after its effective
    expiry time; so the permanent lock of a key is what
    [FindActiveInstanceLock] returns, with expired locks ignored,
    exactly when its effective expiry time has not passed. *)
Theorem GetEffectiveExpiryTime_active (env : Env) (w : World) (playerGuid : Z)
    (entries : MapDb2Entries) (l : InstanceLock) (t : Z) :
  GetEffectiveExpiryTime env l = Ok t →
  (∀ own, MapDb2Entries_ctor env (_mapId l) (_difficultyId l) = Ok own →
          GetSystemTime env ≤ GetNextResetTime env own ∧
          0 ≤ GetRaidDuration (MapDifficulty own)) →
  (negb (IsExpired env l) || _extended l = true ↔ GetSystemTime env ≤ t) ∧
  (FindInstanceLock (permanent w) playerGuid entries = Some l →
     (FindActiveInstanceLock env w playerGuid entries true true = Some l ↔
        GetSystemTime env ≤ t)).
Proof.
  intros Ht Hsane.
  assert (negb (IsExpired env l) || _extended l = true ↔ GetSystemTime env ≤ t) as Hiff.
  { revert Ht. unfold GetEffectiveExpiryTime, IsExpired.
    destruct (_extended l); cbn [negb].
    - destruct (MapDb2Entries_ctor env (_mapId l) (_difficultyId l)) as [own|] eqn:Hown;
        [|discriminate]. cbn.
      destruct (Hsane own eq_refl) as [Hnext Hdur].
      destruct (Z.ltb_spec (_expiryTime l) (GetSystemTime env)); intros [= <-];
        rewrite orb_true_r; split; intros _; [exact Hnext | reflexivity | lia | reflexivity].
    - intros [= <-]. rewrite orb_false_r.
      destruct (Z.ltb_spec (_expiryTime l) (GetSystemTime env)); cbn;
        split; intros H'; try lia; try discriminate; reflexivity. }
  split; [exact Hiff|].
  intros Hl. unfold FindActiveInstanceLock. rewrite Hl. cbn [negb].
  rewrite orb_false_r. rewrite <- Hiff.
  destruct (negb (IsExpired env l) || _extended l); split; intros H';
    try reflexivity; discriminate.
Qed.

(** The extended lock that expired at time 0 is active: Tuesday 09:00,
    its effective expiry, is ahead. *)
Lemma GetEffectiveExpiryTime_active_witness :
  FindActiveInstanceLock Sample.env
    (Sample.holding 1 Sample.raid
       (Sample.lock_with 42 0 true 0 None Sample.raid) Sample.start)
    1 Sample.raid true true
  = Some (Sample.lock_with 42 0 true 0 None Sample.raid).
Proof.
  destruct (GetEffectiveExpiryTime_active Sample.env
              (Sample.holding 1 Sample.raid
                 (Sample.lock_with 42 0 true 0 None Sample.raid) Sample.start)
              1 Sample.raid (Sample.lock_with 42 0 true 0 None Sample.raid)
              Sample.tuesday_9 eq_refl) as [_ H].
  - intros own Hown. vm_compute in Hown. injection Hown as <-.
    vm_compute. split; discriminate.
  - apply (H eq_refl). vm_compute. discriminate.
Defined.

(** ** Without a usable permanent lock nobody is kept out *)

Lemma temporary_locks_fresh_evolves (w w' : World) :
  evolves w w' → temporary_locks_fresh w → temporary_locks_fresh w'.
Proof. intros [Ht _] Hinv g k l Hl. apply (Hinv g k l). by apply Ht. Qed.

Lemma temporary_locks_fresh_Create (env : Env) (playerGuid : Z)
    (entries : MapDb2Entries) (instanceId : Z) (w : World) :
  temporary_locks_fresh w →
  temporary_locks_fresh
    (CreateInstanceLockForNewInstance env playerGuid entries instanceId w).2.
Proof.
  intros Hinv.
  destruct (HasResetSchedule (MapDifficulty entries)) eqn:Hs.
  - destruct (CreateInstanceLockForNewInstance_stores env playerGuid entries instanceId w Hs)
      as (lock & Hlock & Ht & _ & Hid & Hd).
    assert (_extended lock = false) as Hx.
    { revert Hlock. unfold CreateInstanceLockForNewInstance. rewrite Hs. cbn [negb].
      destruct (IsInstanceIdBound entries); unfold make_shared; cbn; by intros [= <-]. }
    intros g k l Hl. rewrite Ht in Hl.
    destruct (decide ((g, k) = (playerGuid, GetKey entries))) as [[= -> ->]|Hne].
    + rewrite slot_lookup_insert_eq in Hl. injection Hl as <-. by repeat split.
    + rewrite slot_lookup_insert_ne in Hl by exact Hne. by apply (Hinv g k l).
  - unfold CreateInstanceLockForNewInstance. rewrite Hs. exact Hinv.
Qed.

Lemma reachable_temporary_locks_fresh (w : World) :
  reachable w → temporary_locks_fresh w.
Proof.
  unfold reachable. revert w. apply (rtc_ind_r temporary_locks_fresh initial).
  - intros g k l Hl. vm_compute in Hl. discriminate Hl.
  - intros w2 w3 _ Hstep IH. destruct Hstep.
    + eapply temporary_locks_fresh_evolves; [by eapply evolves_Load | exact IH].
    + eapply temporary_locks_fresh_evolves; [apply evolves_Unload | exact IH].
    + by apply temporary_locks_fresh_Create.
    + eapply temporary_locks_fresh_evolves;
        [by eapply evolves_UpdateInstanceLockForPlayer | exact IH].
    + eapply temporary_locks_fresh_evolves;
        [by eapply evolves_UpdateSharedInstanceLock | exact IH].
    + eapply temporary_locks_fresh_evolves;
        [apply evolves_UpdateInstanceLockExtensionForPlayer | exact IH].
Qed.

(** X14. In every state that the manager's operations lead to from
    start-up, the temporary locks are as they were made: instance id 0,
    not extended, no data and no completed encounter. Hence a player
    without a usable permanent lock under the key (none, or one that is
    expired and not extended) is allowed into every candidate instance
    by [CanJoinInstanceLock], whatever the locking discipline. *)
Theorem reachable_without_permanent_lock_joins (env : Env) (w : World) (playerGuid : Z)
    (entries : MapDb2Entries) (candidate : InstanceLock) :
  reachable w →
  temporary_locks_fresh w ∧
  (FindActiveInstanceLock env w playerGuid entries true true = None →
     CanJoinInstanceLock env w playerGuid entries candidate = TRANSFER_ABORT_NONE).
Proof.
  intros Hreach. pose proof (reachable_temporary_locks_fresh w Hreach) as Hinv.
  split; [exact Hinv|]. intros Hnone.
  unfold CanJoinInstanceLock, FindActiveInstanceLock2.
  rewrite FindActiveInstanceLock_temporary_last, Hnone.
  destruct (HasResetSchedule (MapDifficulty entries)); [|reflexivity]. cbn [negb].
  rewrite FindInstanceLock_slot_lookup.
  destruct (slot_lookup playerGuid (GetKey entries) (temporary w)) as [l|] eqn:Hl;
    [|reflexivity].
  destruct (Hinv _ _ _ Hl) as (Hid & _ & Hd). rewrite Hid, Hd. cbn.
  rewrite andb_false_r. by destruct (IsFlexLocking _).
Qed.

(** After one creation for player 1 the player may enter instance 43. *)
Lemma reachable_without_permanent_lock_joins_witness :
  CanJoinInstanceLock Sample.env
    (CreateInstanceLockForNewInstance Sample.env 1 Sample.raid 42 Sample.start).2
    1 Sample.raid (Sample.lock_with 43 Sample.tuesday_9 false 0 None Sample.raid)
  = TRANSFER_ABORT_NONE.
Proof.
  destruct (reachable_without_permanent_lock_joins Sample.env
              (CreateInstanceLockForNewInstance Sample.env 1 Sample.raid 42 Sample.start).2
              1 Sample.raid (Sample.lock_with 43 Sample.tuesday_9 false 0 None Sample.raid))
    as [_ H].
  - apply rtc_once. apply step_CreateInstanceLockForNewInstance.
  - apply H. reflexivity.
Defined.

(** ** A lock that replaces an expired one *)

Lemma permanent_reset_last_owner (playerGuid : Z) (key : InstanceLockKey)
    (lock old : InstanceLock) (q : nat) (cb : ControlBlock) (w : World) :
  slot_lookup playerGuid key (permanent w) = Some old →
  _sharedData old = Some q →
  heap w !! q = Some cb → use_count cb = 1%nat →
  InstanceId (object cb) ≠ 0 → unloading w = false →
  let w1 := permanent_reset playerGuid key lock w in
  CharacterDatabase w1
    = CharacterDatabase w ++ [DELETE_instance2 (InstanceId (object cb))] ∧
  registry w1 = delete (InstanceId (object cb)) (registry w) ∧
  expired q w1 = true.
Proof.
  intros Hold Hq Hcb Hc Hid Hu. cbv zeta. unfold permanent_reset. rewrite Hold.
  cbn [destroy_old]. unfold InstanceLock_dtor. rewrite Hq.
  rewrite (shared_ptr_release_last q cb) by assumption.
  unfold SharedInstanceLockData_dtor.
  destruct (Z.eqb_spec (InstanceId (object cb)) 0) as [E|_]; [contradiction|].
  unfold OnSharedInstanceLockDataDelete.
  replace (unloading (set_heap _ _)) with (unloading w) by reflexivity. rewrite Hu.
  split; [reflexivity|]. split; [reflexivity|].
  unfold expired. cbn. rewrite (expired_after_last _ _ _ Hcb). reflexivity.
Qed.

(** X15. Let the player's permanent lock of the key be expired and not
    extended, and be the last owner of a shared record whose
    [InstanceId] is neither zero nor the instance id of the update
    event. When [UpdateInstanceLockForPlayer] returns, outside
    unloading, the lock it has promoted or made has taken the place of
    that lock, whose record has been destroyed: the one statement
    executed is the DELETE FROM instance2 of the record's instance, and
    the registry has no entry for it. *)
Theorem UpdateInstanceLockForPlayer_replaces_expired (env : Env) (trans : list Statement)
    (playerGuid : Z) (entries : MapDb2Entries) (updateEvent : InstanceLockUpdateEvent)
    (w : World) (old : InstanceLock) (q : nat) (cb : ControlBlock)
    (b' : InstanceLock) (trans' : list Statement) (w' : World) :
  FindInstanceLock (permanent w) playerGuid entries = Some old →
  IsExpired env old = true → _extended old = false →
  _sharedData old = Some q →
  heap w !! q = Some cb → use_count cb = 1%nat →
  InstanceId (object cb) ≠ 0 →
  InstanceId (object cb) ≠ ev_InstanceId updateEvent →
  unloading w = false →
  UpdateInstanceLockForPlayer env trans playerGuid entries updateEvent w
    = Ok (b', trans', w') →
  CharacterDatabase w'
    = CharacterDatabase w ++ [DELETE_instance2 (InstanceId (object cb))] ∧
  registry w' !! InstanceId (object cb) = None ∧
  expired q w' = true.
Proof.
  intros Hold Hexp Hext Hq Hcb Hc Hid Hother Hu Hup.
  destruct (UpdateInstanceLockForPlayer_inv _ _ _ _ _ _ _ _ _ Hup)
    as (b & w1 & b1 & w2 & w3 & Hloc & Happ & Hre & _ & ->).
  assert (CharacterDatabase w3 = CharacterDatabase w1 ∧ registry w3 = registry w1 ∧
          heap w3 = heap w1) as (Hdb & Hreg & Hheap).
  { assert (CharacterDatabase w2 = CharacterDatabase w1 ∧ registry w2 = registry w1 ∧
            heap w2 = heap w1) as (Hdb2 & Hreg2 & Hheap2).
    { revert Happ. unfold UpdateInstanceLockForPlayer_apply.
      destruct (CompletedEncounter updateEvent); intros [= _ <-]; by repeat split. }
    revert Hre. unfold UpdateInstanceLockForPlayer_reactivate.
    destruct (IsExpired env b1).
    - destruct (_extended b1); [|discriminate]. cbn. intros [= _ <-]. by repeat split.
    - intros [= _ <-]. by repeat split. }
  change (CharacterDatabase (set_permanent ?x ?y)) with (CharacterDatabase y).
  change (registry (set_permanent ?x ?y)) with (registry y).
  change (expired q (set_permanent ?x ?y)) with (expired q y).
  unfold expired. rewrite Hdb, Hreg, Hheap. fold (expired q w1).
  assert (FindActiveInstanceLock env w playerGuid entries true true = None) as Hnone.
  { unfold FindActiveInstanceLock. rewrite Hold, Hexp, Hext. reflexivity. }
  rewrite FindInstanceLock_slot_lookup in Hold.
  assert (∀ lock w0, permanent w0 = permanent w → heap w0 !! q = Some cb →
            unloading w0 = false → CharacterDatabase w0 = CharacterDatabase w →
            registry w0 = registry w →
            let w1 := permanent_reset playerGuid (GetKey entries) lock w0 in
            CharacterDatabase w1
              = CharacterDatabase w ++ [DELETE_instance2 (InstanceId (object cb))] ∧
            registry w1 !! InstanceId (object cb) = None ∧
            expired q w1 = true) as Hreset.
  { intros lock w0 Hp0 Hcb0 Hu0 Hdb0 Hreg0.
    destruct (permanent_reset_last_owner playerGuid (GetKey entries) lock old q cb w0)
      as (E1 & E2 & E3); try assumption; [by rewrite Hp0|].
    cbv zeta. rewrite E1, E2, Hdb0. split; [reflexivity|].
    split; [apply lookup_delete_eq | exact E3]. }
  destruct (FindInstanceLock (temporary w) playerGuid entries) as [l|] eqn:Htemp.
  - destruct (UpdateInstanceLockForPlayer_locate_found env playerGuid entries updateEvent
                w b w1 l Hloc) as [_ ->].
    { unfold UpdateInstanceLockForPlayer_prior. by rewrite Hnone. }
    rewrite Hnone. unfold promote_temporary.
    unfold FindInstanceLock in Htemp.
    destruct (temporary w !! playerGuid) as [playerLocks|]; [|discriminate].
    rewrite Htemp. cbn [snd].
    destruct (Hreset l w) as (E1 & E2 & E3); try reflexivity; try assumption.
    case_decide; (split; [exact E1|]; split; [exact E2 | exact E3]).
  - revert Hloc. unfold UpdateInstanceLockForPlayer_locate. rewrite Hnone.
    rewrite (surjective_pairing (promote_temporary playerGuid entries updateEvent w)).
    rewrite promote_temporary_found, Htemp, (promote_temporary_none _ _ _ _ Htemp).
    destruct (IsInstanceIdBound entries).
    + destruct (registry w !! ev_InstanceId updateEvent) as [p|]; [|discriminate].
      unfold expired at 1, deref, shared_ptr_copy.
      destruct (heap w !! p) as [cbp|] eqn:Hp; [|discriminate].
      destruct (use_count cbp) as [|n]; [discriminate|]. cbn.
      rewrite list_lookup_insert_eq by (by eapply lookup_lt_Some). cbn.
      destruct (Z.eqb_spec (InstanceId (object cbp)) (ev_InstanceId updateEvent)) as [E|E];
        [|discriminate].
      cbn. intros [= _ <-].
      assert (p ≠ q) as Hpq by (intros ->; congruence).
      apply Hreset; try reflexivity; [|exact Hu].
      cbn. by rewrite list_lookup_insert_ne.
    + cbn. intros [= _ <-]. by apply Hreset.
Qed.

(** Player 1's lock for instance 9 of the raid has expired and owns the
    record of instance 9 alone; the player enters instance 42, the
    temporary lock is promoted, and instance 9 is deleted. *)
Lemma UpdateInstanceLockForPlayer_replaces_expired_witness :
  ∃ b' trans' w',
    UpdateInstanceLockForPlayer Sample.env [] 1 Sample.raid Sample.kill3
      (CreateInstanceLockForNewInstance Sample.env 1 Sample.raid 42
         SampleTables.expired_owner).2 = Ok (b', trans', w') ∧
    CharacterDatabase w' = [DELETE_instance2 9] ∧ registry w' !! 9 = None ∧
    _instanceId b' = 42.
Proof.
  destruct (UpdateInstanceLockForPlayer Sample.env [] 1 Sample.raid Sample.kill3
              (CreateInstanceLockForNewInstance Sample.env 1 Sample.raid 42
                 SampleTables.expired_owner).2)
    as [[[b' trans'] w']|] eqn:Hup; [|vm_compute in Hup; discriminate Hup].
  destruct (UpdateInstanceLockForPlayer_replaces_expired Sample.env [] 1 Sample.raid
              Sample.kill3
              (CreateInstanceLockForNewInstance Sample.env 1 Sample.raid 42
                 SampleTables.expired_owner).2
              (Sample.lock_with 9 0 false 0 (Some 0%nat) Sample.raid) 0
              {| use_count := 1; object := Sample.record9 |} b' trans' w')
    as (Hdb & Hreg & _); try reflexivity; try (vm_compute; discriminate); [exact Hup|].
  exists b', trans', w'. split; [reflexivity|]. split; [exact Hdb|].
  split; [exact Hreg|]. vm_compute in Hup. by injection Hup as <- _ _.
Defined.
